(** * Prez: SPARQL query synthesis

    A shallow embedding of the query generators of
    [prez/services/sparql_new.py], [prez/services/spaceprez_service.py] and
    [prez/services/query_generation/search_fuseki_fts.py], with the
    properties of the generated queries stated over it.

    Python [str] values are [string]s, Python [int]s are [Z], [None]-able
    arguments are [option]s, and an f-string is the concatenation of its
    pieces in source order. *)

From Stdlib Require Import String Ascii List ZArith Lia Bool Arith.
From Stdlib Require Import Numbers.DecimalString.
From Stdlib Require DecimalPos DecimalZ.
Import ListNotations.

Set Warnings "-register-all".

Open Scope string_scope.
Open Scope list_scope.

(** ** The Python fragments the sources rely on *)

Module Py.

(** [chr(10)], [chr(9)] and the double quote, which the templates use. *)
Definition nl : string := String (ascii_of_nat 10) EmptyString.
Definition tab : string := String (ascii_of_nat 9) EmptyString.
Definition dq : string := String (ascii_of_nat 34) EmptyString.

(** [str(n)] of a Python [int]. *)
Definition str_int (n : Z) : string := NilZero.string_of_int (Z.to_int n).

(** [sep.join(l)]. *)
Fixpoint join (sep : string) (l : list string) : string :=
  match l with
  | [] => ""
  | [x] => x
  | x :: rest => x ++ sep ++ join sep rest
  end.

(** [s * n] for a string [s] and an [int] [n]: empty when [n <= 0]. *)
Fixpoint repeat_nat (s : string) (n : nat) : string :=
  match n with
  | O => ""
  | S k => s ++ repeat_nat s k
  end.

Definition mul_str (s : string) (n : Z) : string := repeat_nat s (Z.to_nat n).

(** [range(n)] and [reversed(range(n))]. *)
Definition range (n : Z) : list Z := map Z.of_nat (seq 0 (Z.to_nat n)).
Definition reversed {A} (l : list A) : list A := rev l.

(** Truth value of a string ([bool(s)]): the empty string is false. *)
Definition truthy_str (s : string) : bool :=
  match s with EmptyString => false | _ => true end.

(** Truth value of an optional string: [None] and [""] are false. *)
Definition truthy_opt (o : option string) : bool :=
  match o with None => false | Some s => truthy_str s end.

(** Truth value of a list: the empty list is false. *)
Definition truthy_list {A} (l : list A) : bool :=
  match l with [] => false | _ => true end.

(** [f"{x}"] of an optional string: [None] is rendered as [None]. *)
Definition fmt_opt (o : option string) : string :=
  match o with None => "None" | Some s => s end.

(** [s.split(c)] for a one-character separator [c]: the pieces between
    the occurrences of [c], empty pieces included. *)
Fixpoint split_on (c : ascii) (s : string) : list string :=
  match s with
  | EmptyString => [""]
  | String a rest =>
      if Ascii.eqb a c then "" :: split_on c rest
      else match split_on c rest with
           | [] => [String a ""]
           | w :: ws => String a w :: ws
           end
  end.

End Py.

(** ** Reading generated text back

    The generated fragments are whitespace-separated SPARQL tokens; the
    properties of a fragment are stated on its token list. *)

Module Lex.

Definition is_ws (c : ascii) : bool :=
  match nat_of_ascii c with
  | 9 | 10 | 13 | 32 => true
  | _ => false
  end.

Fixpoint no_ws (s : string) : bool :=
  match s with
  | EmptyString => true
  | String c rest => negb (is_ws c) && no_ws rest
  end.

Definition flush (cur : string) : list string :=
  match cur with EmptyString => [] | _ => [cur] end.

(** [scan cur s]: the tokens of [s], [cur] being the token under way. *)
Fixpoint scan (cur : string) (s : string) : list string :=
  match s with
  | EmptyString => flush cur
  | String c rest =>
      if is_ws c then flush cur ++ scan "" rest
      else scan (cur ++ String c "") rest
  end.

Definition tokens (s : string) : list string := scan "" s.

(** A SPARQL variable token. *)
Definition is_var (t : string) : bool :=
  match t with
  | String c _ => Ascii.eqb c "?"
  | EmptyString => false
  end.

Definition count_tok (t : string) (l : list string) : nat :=
  List.length (filter (String.eqb t) l).

(** Deepest nesting of braces in a token list: [depth_from k l] is the
    deepest level reached from level [k]. *)
Fixpoint depth_from (k : nat) (l : list string) : nat :=
  match l with
  | [] => k
  | t :: rest =>
      if String.eqb t "{" then Nat.max k (depth_from (S k) rest)
      else if String.eqb t "}" then Nat.max k (depth_from (Nat.pred k) rest)
      else depth_from k rest
  end.

(** Braces are balanced: never closed below level 0, and level 0 at the end. *)
Fixpoint balanced_from (k : nat) (l : list string) : bool :=
  match l with
  | [] => Nat.eqb k 0
  | t :: rest =>
      if String.eqb t "{" then balanced_from (S k) rest
      else if String.eqb t "}" then
        match k with O => false | S k' => balanced_from k' rest end
      else balanced_from k rest
  end.

(** Triples written [s p o .] one after the other. *)
Fixpoint triples (l : list string) : option (list (string * string * string)) :=
  match l with
  | [] => Some []
  | s :: p :: o :: dot :: rest =>
      if String.eqb dot "." then
        match triples rest with
        | Some ts => Some ((s, p, o) :: ts)
        | None => None
        end
      else None
  | _ => None
  end.

(** [starts_with p t]: the token [t] begins with [p]. *)
Fixpoint starts_with (p t : string) : bool :=
  match p, t with
  | EmptyString, _ => true
  | String a p', String b t' => Ascii.eqb a b && starts_with p' t'
  | String _ _, EmptyString => false
  end.

(** The tokens of a group pattern that only structure it: the [OPTIONAL]
    keyword, the braces and the [FILTER(...)] guards. *)
Definition is_structure (t : string) : bool :=
  String.eqb t "OPTIONAL" || String.eqb t "{" || String.eqb t "}"
  || starts_with "FILTER(" t.

(** The triple patterns of a group pattern, its structure left out. *)
Definition pattern_triples (l : list string) : option (list (string * string * string)) :=
  triples (filter (fun t => negb (is_structure t)) l).

End Lex.

(** ** Results and exceptions *)

Inductive Exn : Type :=
| ValueError (msg : string)
| TypeError (msg : string)
| IndexError (msg : string)
| Exception (msg : string).

Inductive Res (A : Type) : Type :=
| Ok (a : A)
| Raise (e : Exn).

Arguments Ok {A} a.
Arguments Raise {A} e.

Definition is_ok {A} (r : Res A) : bool :=
  match r with Ok _ => true | Raise _ => false end.

(** ** The RDF graph interface (rdflib) the generators read *)

Module Rdf.

(** Graph terms; each is a Python [str] carrying its text. *)
Inductive Node : Type :=
| URIRef (s : string)
| BNode (s : string)
| Literal (s : string).

Definition node_str (n : Node) : string :=
  match n with URIRef s | BNode s | Literal s => s end.

Definition node_eqb (a b : Node) : bool :=
  match a, b with
  | URIRef x, URIRef y | BNode x, BNode y | Literal x, Literal y => String.eqb x y
  | _, _ => false
  end.

Definition Triple : Type := Node * Node * Node.
Definition Graph : Type := list Triple.

Definition subj (t : Triple) : Node := fst (fst t).
Definition pred (t : Triple) : Node := snd (fst t).
Definition obj (t : Triple) : Node := snd t.

(** A pattern position: [None] matches every term. *)
Definition pos_matches (pat : option Node) (n : Node) : bool :=
  match pat with None => true | Some m => node_eqb m n end.

(** [Graph.triples((s, p, o))]. *)
Definition triples (g : Graph) (s p o : option Node) : list Triple :=
  filter (fun t => pos_matches s (subj t) && pos_matches p (pred t) && pos_matches o (obj t)) g.

(** [Graph.objects(subject, predicate)]. *)
Definition objects (g : Graph) (s p : Node) : list Node :=
  map obj (triples g (Some s) (Some p) None).

(** [Graph.triples_choices((subjects, p, o))] with a list of subjects:
    the matches of each subject in turn; an empty list of subjects
    matches every subject. *)
Definition triples_choices (g : Graph) (subjects : list Node) (p : Node) (o : option Node)
  : list Triple :=
  match subjects with
  | [] => triples g None (Some p) o
  | _ => flat_map (fun s => triples g (Some s) (Some p) o) subjects
  end.

(** [Graph.value(subject, predicate, None)]: the first object, if any. *)
Definition value (g : Graph) (s p : Node) : option Node :=
  match objects g s p with
  | [] => None
  | o :: _ => Some o
  end.

Definition RDF_first : Node := URIRef "http://www.w3.org/1999/02/22-rdf-syntax-ns#first".
Definition RDF_rest : Node := URIRef "http://www.w3.org/1999/02/22-rdf-syntax-ns#rest".

Definition opt_node_eqb (a b : option Node) : bool :=
  match a, b with
  | None, None => true
  | Some x, Some y => node_eqb x y
  | _, _ => false
  end.

Definition truthy_node (n : Node) : bool := Py.truthy_str (node_str n).

(** [Graph.items(list)]: the [rdf:first] values along the [rdf:rest]
    links of an RDF list.  [chain] holds the cells met so far; meeting one
    again raises [ValueError].  Each round adds a new cell to [chain], so
    [fuel] rounds suffice when [fuel] exceeds the number of triples. *)
Fixpoint items_loop (fuel : nat) (g : Graph) (cell : option Node) (chain : list (option Node))
  : Res (list Node) :=
  match fuel with
  | O => Raise (Exception "items: out of fuel")
  | S fuel' =>
      match cell with
      | None => Ok []
      | Some c =>
          if truthy_node c then
            let item := value g c RDF_first in
            let next := value g c RDF_rest in
            if existsb (opt_node_eqb next) chain then
              Raise (ValueError "List contains a recursive rdf:rest reference")
            else
              match items_loop fuel' g next (next :: chain) with
              | Ok rest =>
                  Ok (match item with Some i => i :: rest | None => rest end)
              | Raise e => Raise e
              end
          else Ok []
      end
  end.

Definition items (g : Graph) (head : Node) : Res (list Node) :=
  items_loop (2 + List.length g) g (Some head) [Some head].

End Rdf.

Import Rdf.

(** ** functools.lru_cache *)

Module LruCache.

Section Cache.
Context {K V : Type}.
Variable key_eqb : K -> K -> bool.

(** The entries, most recently used first, and the two counters that
    [cache_info()] reports. *)
Record t : Type := mk {
  entries : list (K * V);
  hits : nat;
  misses : nat
}.

Definition empty : t := mk [] 0 0.

Fixpoint find (k : K) (l : list (K * V)) : option V :=
  match l with
  | [] => None
  | (k', v) :: rest => if key_eqb k k' then Some v else find k rest
  end.

Fixpoint remove (k : K) (l : list (K * V)) : list (K * V) :=
  match l with
  | [] => []
  | (k', v) :: rest => if key_eqb k k' then rest else (k', v) :: remove k rest
  end.

(** A hit moves the entry to the most recently used end. *)
Definition touch (k : K) (v : V) (c : t) : t :=
  mk ((k, v) :: remove k (entries c)) (S (hits c)) (misses c).

(** A miss is counted before the function runs. *)
Definition miss (c : t) : t := mk (entries c) (hits c) (S (misses c)).

(** A miss stores the new result; a full cache first drops its least
    recently used entry. *)
Definition store (maxsize : nat) (k : K) (v : V) (c : t) : t :=
  match find k (entries c) with
  | Some _ => mk (entries c) (hits c) (S (misses c))
  | None =>
      if Nat.leb maxsize (List.length (entries c))
      then mk ((k, v) :: removelast (entries c)) (hits c) (S (misses c))
      else mk ((k, v) :: entries c) (hits c) (S (misses c))
  end.

End Cache.

Arguments t : clear implicits.

End LruCache.

(** ** prez/services/sparql_new.py *)

Module SparqlNew.

Import Py.
Local Open Scope string_scope.

(** The item descriptors of [prez.models], with the attributes the
    generators read. *)
Record Item : Type := mkItem {
  uri : option string;
  selected_class : Node;
  general_class : string;
  link_constructor : string
}.

Definition opt_str_eqb (a b : option string) : bool :=
  match a, b with
  | None, None => true
  | Some x, Some y => String.eqb x y
  | _, _ => false
  end.

Definition item_eqb (a b : Item) : bool :=
  opt_str_eqb (uri a) (uri b) && node_eqb (selected_class a) (selected_class b)
  && String.eqb (general_class a) (general_class b)
  && String.eqb (link_constructor a) (link_constructor b).

(** The argument tuple of [generate_item_construct], the key of its cache. *)
Definition Key : Type := Item * Node.

Definition key_eqb (a b : Key) : bool :=
  item_eqb (fst a) (fst b) && node_eqb (snd a) (snd b).

(** The module-level state: the profiles graph ([prez.cache]), the number
    of queries made to it (what a call-count probe on the graph's methods
    reads), and the [lru_cache] of [generate_item_construct]. *)
Record World : Type := mkWorld {
  profiles_graph_cache : Graph;
  graph_calls : nat;
  item_construct_cache : LruCache.t Key string
}.

Definition M (A : Type) : Type := World -> Res A * World.

Definition ret {A} (a : A) : M A := fun w => (Ok a, w).

Definition raise {A} (e : Exn) : M A := fun w => (Raise e, w).

Definition bind {A B} (c : M A) (k : A -> M B) : M B :=
  fun w =>
    match c w with
    | (Ok a, w') => k a w'
    | (Raise e, w') => (Raise e, w')
    end.

Notation "x <- c ;; k" := (bind c (fun x => k))
  (at level 61, c at next level, right associativity).

Definition lift {A} (r : Res A) : M A := fun w => (r, w).

(** One query of the profiles graph. *)
Definition pg {A} (f : Graph -> A) : M A :=
  fun w =>
    (Ok (f (profiles_graph_cache w)),
     mkWorld (profiles_graph_cache w) (S (graph_calls w)) (item_construct_cache w)).

Definition pg_res {A} (f : Graph -> Res A) : M A :=
  fun w =>
    (f (profiles_graph_cache w),
     mkWorld (profiles_graph_cache w) (S (graph_calls w)) (item_construct_cache w)).

Fixpoint mapM {A B} (f : A -> M B) (l : list A) : M (list B) :=
  match l with
  | [] => ret []
  | x :: rest =>
      y <- f x ;;
      ys <- mapM f rest ;;
      ret (y :: ys)
  end.

Definition ALTREXT (name : string) : Node :=
  URIRef ("http://www.w3.org/ns/dx/conneg/altr-ext#" ++ name).

Definition SH (name : string) : Node :=
  URIRef ("http://www.w3.org/ns/shacl#" ++ name).

(** *** Predicate resolution *)

Definition get_relevant_shape_bns_for_profile (selected_class : Node) (profile : Node)
  : M (option (list Node)) :=
  shape_bns <- pg (fun g => objects g profile (ALTREXT "hasNodeShape")) ;;
  if negb (truthy_list shape_bns) then ret None
  else
    relevant_shape_bns <-
      pg (fun g => map subj (triples_choices g shape_bns (SH "targetClass") (Some selected_class))) ;;
    ret (Some relevant_shape_bns).

Definition truthy_opt_list {A} (o : option (list A)) : bool :=
  match o with None => false | Some l => truthy_list l end.

Definition opt_list {A} (o : option (list A)) : list A :=
  match o with None => [] | Some l => l end.

Definition ListingPredicates : Type := list Node * list Node * list Node * list Node.

Definition get_listing_predicates (profile : Node) (selected_class : Node)
  : M ListingPredicates :=
  shape_bns <- get_relevant_shape_bns_for_profile selected_class profile ;;
  if negb (truthy_opt_list shape_bns) then ret ([], [], [], [])
  else
    let bns := opt_list shape_bns in
    inbound_children <-
      pg (fun g => map obj (triples_choices g bns (ALTREXT "inboundChildren") None)) ;;
    inbound_parents <-
      pg (fun g => map obj (triples_choices g bns (ALTREXT "inboundParents") None)) ;;
    outbound_children <-
      pg (fun g => map obj (triples_choices g bns (ALTREXT "outboundChildren") None)) ;;
    outbound_parents <-
      pg (fun g => map obj (triples_choices g bns (ALTREXT "outboundParents") None)) ;;
    ret (inbound_children, inbound_parents, outbound_children, outbound_parents).

(** The value [excludes = ...] of [get_item_predicates]: [None] when no
    shape applies, the placeholder [Ellipsis] otherwise. *)
Inductive Excludes : Type :=
| ExcludesNone
| ExcludesEllipsis.

Definition ItemPredicates : Type :=
  option (list Node) * Excludes * option (list Node) * option (list (list Node)).

Definition get_item_predicates (profile : Node) (selected_class : Node) : M ItemPredicates :=
  shape_bns <- get_relevant_shape_bns_for_profile selected_class profile ;;
  if negb (truthy_opt_list shape_bns) then ret (None, ExcludesNone, None, None)
  else
    let bns := opt_list shape_bns in
    includes <- pg (fun g => map obj (triples_choices g bns (SH "path") None)) ;;
    inverses <- pg (fun g => map obj (triples_choices g bns (SH "inversePath") None)) ;;
    sequence_nodes <- pg (fun g => map obj (triples_choices g bns (SH "sequencePath") None)) ;;
    sequence_paths <- mapM (fun i => pg_res (fun g => items g i)) sequence_nodes ;;
    ret (Some includes, ExcludesEllipsis, Some inverses, Some sequence_paths).

(** *** Fragment builders *)

Definition values_list (preds : list Node) : string :=
  join " " (map (fun pred => "<" ++ node_str pred ++ ">") preds).

Definition generate_outbound_predicates (item : Item)
  (outbound_children outbound_parents : list Node) : string :=
  if truthy_opt (uri item) then
    let where0 := "" in
    let where1 :=
      if truthy_list outbound_children then
        where0 ++ "<" ++ fmt_opt (uri item) ++ "> ?outbound_children ?item ." ++ nl
        ++ "            ?item dcterms:identifier ?outbound_children_id ." ++ nl
        ++ "            FILTER(DATATYPE(?outbound_children_id) = xsd:token)" ++ nl
        ++ "            VALUES ?outbound_children { " ++ values_list outbound_children ++ " }" ++ nl
      else where0 in
    let where2 :=
      if truthy_list outbound_parents then
        where1 ++ "<" ++ fmt_opt (uri item) ++ "> ?outbound_parents ?item ." ++ nl
        ++ "            ?item dcterms:identifier ?outbound_parents_id ." ++ nl
        ++ "            FILTER(DATATYPE(?outbound_parents_id) = xsd:token)" ++ nl
        ++ "            VALUES ?outbound_parents { " ++ values_list outbound_parents ++ " }" ++ nl
      else where1 in
    if negb (truthy_list outbound_children) && negb (truthy_list outbound_parents) then
      where2 ++ "VALUES ?outbound_children {}" ++ nl ++ "VALUES ?outbound_parents {}"
    else where2
  else "".

Definition generate_inbound_predicates (item : Item)
  (inbound_children inbound_parents : list Node) : string :=
  if negb (truthy_list inbound_children) && negb (truthy_list inbound_parents) then ""
  else
    let where0 := "" in
    let where1 :=
      if truthy_list inbound_children then
        where0 ++ "?inbound_child_s ?inbound_child <" ++ fmt_opt (uri item) ++ "> ;" ++ nl
        ++ "        dcterms:identifier ?inbound_children_id ." ++ nl
        ++ "        FILTER(DATATYPE(?inbound_children_id) = xsd:token)" ++ nl
        ++ "        VALUES ?inbound_child { " ++ values_list inbound_children ++ " }" ++ nl
      else where0 in
    if truthy_list inbound_parents then
      where1 ++ "?inbound_parent_s ?inbound_parent <" ++ fmt_opt (uri item) ++ "> ;" ++ nl
      ++ "        dcterms:identifier ?inbound_parent_id ." ++ nl
      ++ "        FILTER(DATATYPE(?inbound_parent_id) = xsd:token)" ++ nl
      ++ "        VALUES ?inbound_parent { " ++ values_list inbound_parents ++ " }" ++ nl
    else where1.

Definition generate_id_listing_binds (item : Item) (ic ip oc op : list Node) : string :=
  let lc := dq ++ link_constructor item ++ dq in
  let binds0 := "" in
  let binds1 :=
    if truthy_list ic then
      binds0 ++ "BIND(CONCAT(" ++ lc ++ ", " ++ dq ++ "/" ++ dq
      ++ ", STR(?inbound_children_id))AS ?inbound_children_link)" ++ nl
    else binds0 in
  let binds2 :=
    if truthy_list oc then
      binds1 ++ "BIND(CONCAT(" ++ lc ++ ", " ++ dq ++ "/" ++ dq
      ++ ", STR(?outbound_children_id))AS ?outbound_children_link)" ++ nl
    else binds1 in
  let binds3 :=
    if truthy_list ip then binds2 ++ "BIND(" ++ lc ++ " AS ?inbound_parent_link)" ++ nl
    else binds2 in
  let binds4 :=
    if truthy_list op then binds3 ++ "BIND(" ++ lc ++ " AS ?outbound_parent_link)" ++ nl
    else binds3 in
  if negb (truthy_str binds4) then
    binds4 ++ "BIND(CONCAT(" ++ lc ++ ", " ++ dq ++ "/" ++ dq
    ++ ", STR(?outbound_id))AS ?outbound_general_link)" ++ nl
  else binds4.

Definition generate_include_predicates (include_predicates : option (list Node)) : string :=
  if truthy_opt_list include_predicates then
    "VALUES ?p{" ++ nl
    ++ join nl (map (fun p => "<" ++ node_str p ++ ">") (opt_list include_predicates))
    ++ nl ++ "}"
  else "".

Definition generate_inverse_predicates (inverse_predicates : option (list Node)) : string :=
  if truthy_opt_list inverse_predicates then
    "VALUES ?inbound_p{" ++ nl
    ++ join nl (map (fun p => "<" ++ node_str p ++ ">") (opt_list inverse_predicates))
    ++ nl ++ "}"
  else "".

(** The inner loop of [generate_sequence_construct]: the triples for
    [predicate_list[i]], [predicate_list[i+1]], ... appended one by one. *)
Fixpoint sequence_steps (i : Z) (preds : list Node) : string :=
  match preds with
  | [] => ""
  | p :: rest =>
      nl ++ tab ++ "?seq_o" ++ str_int i ++ " <" ++ node_str p ++ "> ?seq_o"
      ++ str_int (i + 1) ++ " ." ++ sequence_steps (i + 1) rest
  end.

(** One round of the outer loop; [predicate_list[0]] of an empty chain
    raises [IndexError]. *)
Definition sequence_chain (object_uri : option string) (predicate_list : list Node)
  : Res string :=
  match predicate_list with
  | [] => Raise (IndexError "list index out of range")
  | p0 :: rest =>
      Ok (tab ++ "<" ++ fmt_opt object_uri ++ "> <" ++ node_str p0 ++ "> ?seq_o1 ."
          ++ sequence_steps 1 rest)
  end.

Fixpoint sequence_chains (object_uri : option string) (acc : string)
  (sequence_predicates : list (list Node)) : Res string :=
  match sequence_predicates with
  | [] => Ok acc
  | predicate_list :: rest =>
      match sequence_chain object_uri predicate_list with
      | Ok construct_and_where =>
          sequence_chains object_uri (acc ++ construct_and_where) rest
      | Raise e => Raise e
      end
  end.

Definition generate_sequence_construct (object_uri : option string)
  (sequence_predicates : option (list (list Node))) : Res string :=
  if truthy_opt_list sequence_predicates then
    sequence_chains object_uri "" (opt_list sequence_predicates)
  else Ok "".

Definition generate_bnode_construct (depth : Z) : string :=
  nl ++ join nl
    (map (fun i => tab ++ "?o" ++ str_int (i + 1) ++ " ?p" ++ str_int (i + 2)
                   ++ " ?o" ++ str_int (i + 2) ++ " .")
         (range depth)).

Definition generate_bnode_select (depth : Z) : string :=
  let part_one :=
    join nl
      (map (fun i =>
              mul_str tab (i + 1) ++ "OPTIONAL {" ++ nl
              ++ mul_str tab (i + 2) ++ "FILTER(ISBLANK(?o" ++ str_int (i + 1) ++ "))" ++ nl
              ++ mul_str tab (i + 2) ++ "?o" ++ str_int (i + 1) ++ " ?p" ++ str_int (i + 2)
              ++ " ?o" ++ str_int (i + 2) ++ " .")
           (range depth)) in
  let part_two :=
    join "" (map (fun i => nl ++ mul_str tab (i + 1) ++ "}") (reversed (range depth))) in
  part_one ++ part_two.

(** *** Query assemblers *)

Definition generate_listing_construct (parent_item : Item) (profile : Node)
  (page per_page : option Z) : M string :=
  preds <- get_listing_predicates profile (selected_class parent_item) ;;
  let '(inbound_children, inbound_parents, outbound_children, outbound_parents) := preds in
  if truthy_opt (uri parent_item)
     && negb (truthy_list inbound_children)
     && negb (truthy_list inbound_parents)
     && negb (truthy_list outbound_children)
     && negb (truthy_list outbound_parents)
  then ret ""
  else
    let u := fmt_opt (uri parent_item) in
    ret ("PREFIX dcterms: <http://purl.org/dc/terms/>" ++ nl
      ++ "PREFIX prez: <https://kurrawong.net/prez/>" ++ nl
      ++ "PREFIX rdf: <http://www.w3.org/1999/02/22-rdf-syntax-ns#>" ++ nl
      ++ "PREFIX rdfs: <http://www.w3.org/2000/01/rdf-schema#>" ++ nl
      ++ "PREFIX xsd: <http://www.w3.org/2001/XMLSchema#>" ++ nl
      ++ "PREFIX skos: <http://www.w3.org/2004/02/skos/core#>" ++ nl
      ++ nl
      ++ "CONSTRUCT {" ++ nl
      ++ (if truthy_list outbound_children || truthy_opt (uri parent_item)
          then "<" ++ u ++ "> ?outbound_children ?item ."
               ++ "?item prez:link ?outbound_children_link ." ++ nl
          else "")
      ++ (if truthy_list outbound_parents || truthy_opt (uri parent_item)
          then "<" ++ u ++ "> ?outbound_parents ?item ."
               ++ "?item prez:link ?outbound_parents_link ." ++ nl
          else "")
      ++ (if truthy_list inbound_children
          then "?inbound_child_s ?inbound_child <" ++ u ++ "> ;"
               ++ "prez:link ?inbound_children_link ." ++ nl
          else "")
      ++ (if truthy_list inbound_parents
          then "?inbound_parent_s ?inbound_parent <" ++ u ++ "> ;"
               ++ "prez:link ?inbound_parent_link ." ++ nl
          else "")
      ++ "        ?item rdfs:label ?label ." ++ nl
      ++ (if negb (truthy_opt (uri parent_item))
          then "prez:memberList a rdf:Bag ;" ++ nl
               ++ "                rdfs:member ?item ." ++ nl
               ++ "    ?item prez:link ?outbound_general_link"
          else "")
      ++ " " ++ "    }" ++ nl
      ++ "WHERE {" ++ nl
      ++ generate_outbound_predicates parent_item outbound_children outbound_parents ++ " "
      ++ generate_inbound_predicates parent_item inbound_children inbound_parents ++ " "
      ++ "    "
      ++ (if negb (truthy_opt (uri parent_item))
          then "?item a <" ++ general_class parent_item ++ "> ." ++ nl
               ++ "    ?item dcterms:identifier ?outbound_id . "
          else "")
      ++ nl
      ++ "    ?item rdfs:label|dcterms:title|skos:prefLabel ?label ." ++ nl
      ++ generate_id_listing_binds parent_item inbound_children inbound_parents
           outbound_children outbound_parents
      ++ nl
      ++ "    } "
      ++ (match page, per_page with
          | Some pg_no, Some pp =>
              "LIMIT " ++ str_int pp ++ " OFFSET " ++ str_int ((pg_no - 1) * pp)
          | _, _ => ""
          end)
      ++ nl
      ++ "    ").

Section ItemConstruct.

(** What [range(depth)] makes of a term read from the graph
    ([operator.index]): its integer, or the [TypeError] it raises. *)
Variable py_index : Node -> Res Z.

(** The function that [@lru_cache(maxsize=128)] decorates. *)
Definition generate_item_construct_body (item : Item) (profile : Node) : M string :=
  let object_uri := uri item in
  let u := fmt_opt object_uri in
  preds <- get_item_predicates profile (selected_class item) ;;
  let '(include_predicates, exclude_predicates, inverse_predicates, sequence_predicates) :=
    preds in
  depth_term <- pg (fun g => value g profile (ALTREXT "hasBNodeDepth")) ;;
  seq_construct <-
    lift (if truthy_opt_list sequence_predicates
          then generate_sequence_construct object_uri sequence_predicates
          else Ok "") ;;
  bnode_depth <-
    lift (match depth_term with
          | None => Ok 2%Z
          | Some t => py_index t
          end) ;;
  seq_where <-
    lift (if truthy_opt_list sequence_predicates
          then generate_sequence_construct object_uri sequence_predicates
          else Ok nl) ;;
  ret ("PREFIX rdfs: <http://www.w3.org/2000/01/rdf-schema#>" ++ nl ++ nl
    ++ "CONSTRUCT {" ++ nl
    ++ tab ++ "<" ++ u ++ "> ?p ?o1 ." ++ nl
    ++ seq_construct ++ nl
    ++ (if truthy_opt_list inverse_predicates
        then tab ++ "?s ?inbound_p <" ++ u ++ "> ."
        else "")
    ++ nl
    ++ generate_bnode_construct bnode_depth ++ " "
    ++ nl ++ "}" ++ nl
    ++ "WHERE {" ++ nl
    ++ "    {" ++ nl
    ++ "    <" ++ u ++ "> ?p ?o1 . " ++ nl ++ " "
    ++ seq_where ++ " "
    ++ "    "
    ++ (if truthy_opt_list inverse_predicates
        then "?s ?inbound_p <" ++ u ++ ">" ++ nl
        else nl)
    ++ " "
    ++ "    " ++ generate_include_predicates include_predicates ++ " "
    ++ "    " ++ generate_inverse_predicates inverse_predicates ++ " "
    ++ "    " ++ generate_bnode_select bnode_depth ++ " "
    ++ "    } "
    ++ "}" ++ nl).

(** [@lru_cache(maxsize)] around a function of the key: a hit returns the
    stored result without running the function; a miss is counted and the
    function runs; its result is stored, and when it raises nothing is
    stored and the miss stays counted. *)
Definition lru_cache (maxsize : nat) (f : Key -> M string) (k : Key) : M string :=
  fun w =>
    match LruCache.find key_eqb k (LruCache.entries (item_construct_cache w)) with
    | Some v =>
        (Ok v,
         mkWorld (profiles_graph_cache w) (graph_calls w)
                 (LruCache.touch key_eqb k v (item_construct_cache w)))
    | None =>
        match f k w with
        | (Ok v, w') =>
            (Ok v,
             mkWorld (profiles_graph_cache w') (graph_calls w')
                     (LruCache.store key_eqb maxsize k v (item_construct_cache w')))
        | (Raise e, w') =>
            (Raise e,
             mkWorld (profiles_graph_cache w') (graph_calls w')
                     (LruCache.miss (item_construct_cache w')))
        end
    end.

Definition generate_item_construct (item : Item) (profile : Node) : M string :=
  lru_cache 128 (fun k => generate_item_construct_body (fst k) (snd k)) (item, profile).

End ItemConstruct.

Definition generate_listing_count_construct (item : Item) : string :=
  if truthy_opt (uri item) then
    "PREFIX prez: <https://kurrawong.net/prez/>" ++ nl
    ++ "PREFIX rdfs: <http://www.w3.org/2000/01/rdf-schema#>" ++ nl
    ++ nl
    ++ "CONSTRUCT { <" ++ fmt_opt (uri item) ++ "> prez:count ?count }" ++ nl
    ++ "WHERE {" ++ nl
    ++ "    SELECT (COUNT(?item) as ?count) {" ++ nl
    ++ "        <" ++ fmt_opt (uri item) ++ "> rdfs:member ?item ." ++ nl
    ++ "    }" ++ nl
    ++ "}"
  else
    "PREFIX prez: <https://kurrawong.net/prez/>" ++ nl
    ++ nl
    ++ "CONSTRUCT { <" ++ general_class item ++ "> prez:count ?count }" ++ nl
    ++ "WHERE {" ++ nl
    ++ "    SELECT (COUNT(?item) as ?count) {" ++ nl
    ++ "        ?item a <" ++ general_class item ++ "> ." ++ nl
    ++ "    }" ++ nl
    ++ "}".

(** *** Profile and mediatype negotiation *)

Section Negotiation.

(** The preference weights of the requested mediatypes and their [str()]. *)
Variable Weight : Type.
Variable str_weight : Weight -> string.

(** The order in which Python iterates over the set built from a list of
    strings (the [IF] lines are collected in a set comprehension). *)
Variable set_iter : list string -> list string.

Definition generate_mediatype_if_statements (requested_mediatypes : list (Weight * string))
  : string :=
  let line_join := "," ++ nl in
  "BIND(" ++ nl
  ++ join line_join
       (set_iter
          (map (fun tup => "IF(?format=" ++ dq ++ snd tup ++ dq ++ ", " ++ dq
                           ++ str_weight (fst tup) ++ dq)
               requested_mediatypes))
  ++ ", " ++ dq ++ dq ++ repeat_nat ")" (List.length requested_mediatypes) ++ nl
  ++ "AS ?req_format)".

(** The clauses that close the negotiation query. *)
Definition group_by_clause : string :=
  "GROUP BY ?class ?profile ?req_profile ?def_profile ?format ?req_format ?def_format".

Definition order_by_clause : string :=
  "ORDER BY DESC(?req_profile) DESC(?distance) DESC(?def_profile) DESC(?req_format) DESC(?def_format)".

Definition limit_clause : string := "LIMIT 1".

Definition select_profile_mediatype (classes : list string)
  (requested_profile : option string)
  (requested_mediatypes : option (list (Weight * string))) : string :=
  nl
  ++ "PREFIX dcat: <http://www.w3.org/ns/dcat#>" ++ nl
  ++ "PREFIX sh: <http://www.w3.org/ns/shacl#>" ++ nl
  ++ "PREFIX geo: <http://www.opengis.net/ont/geosparql#>" ++ nl
  ++ "PREFIX rdfs: <http://www.w3.org/2000/01/rdf-schema#>" ++ nl
  ++ "PREFIX altr-ext: <http://www.w3.org/ns/dx/conneg/altr-ext#>" ++ nl
  ++ "PREFIX dcterms: <http://purl.org/dc/terms/>" ++ nl
  ++ "PREFIX prez: <https://kurrawong.net/prez/>" ++ nl
  ++ nl
  ++ "SELECT ?profile ?class (count(?mid) as ?distance) ?req_profile ?def_profile ?format ?req_format ?def_format" ++ nl
  ++ nl
  ++ "WHERE {" ++ nl
  ++ "  VALUES ?class {" ++ join " " (map (fun klass => "<" ++ klass ++ ">") classes) ++ "}" ++ nl
  ++ "  ?class rdfs:subClassOf* ?mid ." ++ nl
  ++ "  ?mid rdfs:subClassOf* ?general_class ." ++ nl
  ++ "  VALUES ?general_class { dcat:Dataset geo:FeatureCollection prez:FeatureCollectionList prez:FeatureList geo:Feature" ++ nl
  ++ "  skos:ConceptScheme skos:Concept skos:Collection prez:DatasetList prez:VocPrezCollectionList prez:SchemesList" ++ nl
  ++ "  prez:CatalogList dcat:Catalog dcat:Resource }" ++ nl
  ++ "  ?profile altr-ext:constrainsClass ?class ;" ++ nl
  ++ "           altr-ext:hasResourceFormat ?format ." ++ nl
  ++ "  "
  ++ (if truthy_opt requested_profile
      then "BIND(?profile=<" ++ fmt_opt requested_profile ++ "> as ?req_profile)"
      else "")
  ++ nl
  ++ "  BIND(EXISTS { ?shape sh:targetClass ?class ;" ++ nl
  ++ "                       altr-ext:hasDefaultProfile ?profile } AS ?def_profile)" ++ nl
  ++ "  "
  ++ (if truthy_opt_list requested_mediatypes
      then generate_mediatype_if_statements (opt_list requested_mediatypes)
      else "")
  ++ nl
  ++ "  BIND(EXISTS { ?profile altr-ext:hasDefaultResourceFormat ?format } AS ?def_format)" ++ nl
  ++ "}" ++ nl
  ++ nl
  ++ group_by_clause ++ nl
  ++ order_by_clause ++ nl
  ++ limit_clause ++ nl
  ++ "        ".

End Negotiation.

End SparqlNew.

(** ** SPARQL string literals

    [STRING_LITERAL2] of the SPARQL 1.1 grammar: a double quote, then
    characters other than the double quote, the backslash, line feed and
    carriage return, or escape sequences, then a double quote.  It tells
    where a quoted literal that opens at the head of a text ends. *)

Module Literal.

Definition is_dq (c : ascii) : bool := Nat.eqb (nat_of_ascii c) 34.
Definition is_backslash (c : ascii) : bool := Nat.eqb (nat_of_ascii c) 92.
Definition is_eol (c : ascii) : bool :=
  Nat.eqb (nat_of_ascii c) 10 || Nat.eqb (nat_of_ascii c) 13.

(** [ECHAR]: the characters that may follow a backslash. *)
Definition is_echar (c : ascii) : bool :=
  match nat_of_ascii c with
  | 116 | 98 | 110 | 114 | 102 | 92 | 34 | 39 => true
  | _ => false
  end.

(** The body of a literal, read after its opening quote: the characters up
    to the closing quote, and the text after it. *)
Fixpoint body (s : string) : option (string * string) :=
  match s with
  | EmptyString => None
  | String c rest =>
      if is_dq c then Some (EmptyString, rest)
      else if is_eol c then None
      else if is_backslash c then
        match rest with
        | String e rest' =>
            if is_echar e then
              match body rest' with
              | Some (b, r) => Some (String c (String e b), r)
              | None => None
              end
            else None
        | EmptyString => None
        end
      else
        match body rest with
        | Some (b, r) => Some (String c b, r)
        | None => None
        end
  end.

Definition string_literal2 (s : string) : option (string * string) :=
  match s with
  | String c rest => if is_dq c then body rest else None
  | EmptyString => None
  end.

(** A value that can stand between double quotes as it is. *)
Fixpoint plain (v : string) : bool :=
  match v with
  | EmptyString => true
  | String c rest => negb (is_dq c) && negb (is_eol c) && negb (is_backslash c) && plain rest
  end.

(** A value [v] written in the text [dq ++ v ++ dq ++ post] stays inside its
    quotes when the literal that opens there ends exactly where [post]
    starts. *)
Definition stays_quoted (v post : string) : Prop :=
  exists b, string_literal2 (Py.dq ++ v ++ Py.dq ++ post)%string = Some (b, post).

End Literal.

(** ** prez/services/spaceprez_service.py *)

Module SpacePrez.

Import Py.
Local Open Scope string_scope.

(** What the triplestore client returns: [(True, result)] or
    [(False, {code, message})]. *)
Inductive Reply (R : Type) : Type :=
| Success (result : R)
| Failure (code message : string).

Arguments Success {R} result.
Arguments Failure {R} code message.

(** The queries sent to the store so far, each with its target. *)
Definition Sent : Type := list (string * string).

Definition Q (A : Type) : Type := Sent -> Res A * Sent.

Section Service.

(** The namespaces and the shared query fragments that the module takes
    from [prez.services.sparql_utils]. *)
Variables DCAT DCTERMS RDFS XSD : string.
Variables construct_all_prop_obj_info construct_all_bnode_prop_obj_info : string.
Variables get_all_bnode_prop_obj_info get_all_prop_obj_info : string.

(** The store client. *)
Variables GraphResult Rows : Type.
Variable sparql_construct : string -> string -> Reply GraphResult.
Variable sparql_query : string -> string -> Reply Rows.

Definition run_query {R} (client : string -> string -> Reply R) (q : string) : Q R :=
  fun sent =>
    match client q "SpacePrez" with
    | Success result => (Ok result, (sent ++ [(q, "SpacePrez")])%list)
    | Failure code message =>
        (Raise (Exception ("SPARQL query error code " ++ code ++ ": " ++ message)),
         (sent ++ [(q, "SpacePrez")])%list)
    end.

Definition is_none {A} (o : option A) : bool :=
  match o with None => true | Some _ => false end.

Definition get_dataset_construct (dataset_id dataset_uri : option string) : Q GraphResult :=
  if is_none dataset_id && is_none dataset_uri then
    fun sent =>
      (Raise (ValueError "Either an ID or a URI must be provided for a SPARQL query"), sent)
  else
    let query_by_id :=
      nl
      ++ "        ?d dcterms:identifier " ++ dq ++ fmt_opt dataset_id ++ dq ++ "^^xsd:token ;" ++ nl
      ++ "            a dcat:Dataset ." ++ nl
      ++ "        BIND(" ++ dq ++ fmt_opt dataset_id ++ dq ++ " AS ?id)" ++ nl
      ++ "    " in
    let query_by_uri :=
      nl
      ++ "        BIND (<" ++ fmt_opt dataset_uri ++ "> as ?d)" ++ nl
      ++ "        ?d a dcat:Dataset ." ++ nl
      ++ "    " in
    let q :=
      nl
      ++ "        PREFIX dcat: <" ++ DCAT ++ ">" ++ nl
      ++ "        PREFIX dcterms: <" ++ DCTERMS ++ ">" ++ nl
      ++ "        PREFIX rdfs: <" ++ RDFS ++ ">" ++ nl
      ++ "        PREFIX xsd: <" ++ XSD ++ ">" ++ nl
      ++ "        CONSTRUCT {" ++ nl
      ++ "            ?d ?p1 ?o1 ;" ++ nl
      ++ "                rdfs:member ?coll ." ++ nl
      ++ "            ?coll dcterms:identifier ?coll_id ;" ++ nl
      ++ "                dcterms:title ?coll_title ." ++ nl
      ++ "            " ++ construct_all_prop_obj_info ++ nl
      ++ "            " ++ construct_all_bnode_prop_obj_info ++ nl
      ++ "        }" ++ nl
      ++ "        WHERE {" ++ nl
      ++ "            " ++ (if negb (is_none dataset_id) then query_by_id else query_by_uri) ++ nl
      ++ "            ?d ?p1 ?o1 ;" ++ nl
      ++ "                rdfs:member ?coll ." ++ nl
      ++ "            ?coll dcterms:identifier ?coll_id ;" ++ nl
      ++ "                dcterms:title ?coll_title ." ++ nl
      ++ "            " ++ get_all_bnode_prop_obj_info ++ nl
      ++ "            " ++ get_all_prop_obj_info ++ nl
      ++ "        }" ++ nl
      ++ "    " in
    run_query sparql_construct q.

Definition get_dataset_label (dataset_id : string) : Q Rows :=
  let q :=
    nl
    ++ "        PREFIX dcat: <" ++ DCAT ++ ">" ++ nl
    ++ "        PREFIX dcterms: <" ++ DCTERMS ++ ">" ++ nl
    ++ "        PREFIX xsd: <" ++ XSD ++ ">" ++ nl
    ++ "        SELECT ?title" ++ nl
    ++ "        WHERE {" ++ nl
    ++ "            ?d a dcat:Dataset ;" ++ nl
    ++ "                dcterms:title ?title ;" ++ nl
    ++ "                dcterms:identifier ?d_id ." ++ nl
    ++ "            FILTER (STR(?d_id) = " ++ dq ++ dataset_id ++ dq
    ++ " && DATATYPE(?d_id) = xsd:token)" ++ nl
    ++ "            FILTER(lang(?title) = " ++ dq ++ dq ++ " || lang(?title) = "
    ++ dq ++ "en" ++ dq ++ ")" ++ nl
    ++ "        } LIMIT 1" ++ nl
    ++ "    " in
  run_query sparql_query q.

(** The text of [get_dataset_label]'s query before the opening quote of the
    identifier and after its closing quote. *)
Definition label_before : string :=
  nl
  ++ "        PREFIX dcat: <" ++ DCAT ++ ">" ++ nl
  ++ "        PREFIX dcterms: <" ++ DCTERMS ++ ">" ++ nl
  ++ "        PREFIX xsd: <" ++ XSD ++ ">" ++ nl
  ++ "        SELECT ?title" ++ nl
  ++ "        WHERE {" ++ nl
  ++ "            ?d a dcat:Dataset ;" ++ nl
  ++ "                dcterms:title ?title ;" ++ nl
  ++ "                dcterms:identifier ?d_id ." ++ nl
  ++ "            FILTER (STR(?d_id) = ".

Definition label_after : string :=
  " && DATATYPE(?d_id) = xsd:token)" ++ nl
  ++ "            FILTER(lang(?title) = " ++ dq ++ dq ++ " || lang(?title) = "
  ++ dq ++ "en" ++ dq ++ ")" ++ nl
  ++ "        } LIMIT 1" ++ nl
  ++ "    ".

(** The text of [get_dataset_construct]'s query by identifier: before the
    opening quote of the first copy of the identifier, between its two
    copies, and after the closing quote of the second. *)
Definition construct_before : string :=
  nl
  ++ "        PREFIX dcat: <" ++ DCAT ++ ">" ++ nl
  ++ "        PREFIX dcterms: <" ++ DCTERMS ++ ">" ++ nl
  ++ "        PREFIX rdfs: <" ++ RDFS ++ ">" ++ nl
  ++ "        PREFIX xsd: <" ++ XSD ++ ">" ++ nl
  ++ "        CONSTRUCT {" ++ nl
  ++ "            ?d ?p1 ?o1 ;" ++ nl
  ++ "                rdfs:member ?coll ." ++ nl
  ++ "            ?coll dcterms:identifier ?coll_id ;" ++ nl
  ++ "                dcterms:title ?coll_title ." ++ nl
  ++ "            " ++ construct_all_prop_obj_info ++ nl
  ++ "            " ++ construct_all_bnode_prop_obj_info ++ nl
  ++ "        }" ++ nl
  ++ "        WHERE {" ++ nl
  ++ "            " ++ nl
  ++ "        ?d dcterms:identifier ".

Definition construct_between : string :=
  "^^xsd:token ;" ++ nl
  ++ "            a dcat:Dataset ." ++ nl
  ++ "        BIND(".

Definition construct_after : string :=
  " AS ?id)" ++ nl
  ++ "    " ++ nl
  ++ "            ?d ?p1 ?o1 ;" ++ nl
  ++ "                rdfs:member ?coll ." ++ nl
  ++ "            ?coll dcterms:identifier ?coll_id ;" ++ nl
  ++ "                dcterms:title ?coll_title ." ++ nl
  ++ "            " ++ get_all_bnode_prop_obj_info ++ nl
  ++ "            " ++ get_all_prop_obj_info ++ nl
  ++ "        }" ++ nl
  ++ "    ".

(** The queries a call sends, in order. *)
Definition queries_sent {A} (c : Q A) : list string := map fst (snd (c [])).

End Service.

End SpacePrez.

(** ** prez/services/query_generation/search_fuseki_fts.py *)

Module SearchFts.

Import Py.
Local Open Scope string_scope.

(** *** The grammar objects the query is built from
    ([sparql_grammar_pydantic]), wrappers with a single field folded into
    their content. *)

Inductive Var : Type := mkVar (value : string).
Inductive IRI : Type := mkIRI (value : string).
Inductive RDFLiteral : Type := mkRDFLiteral (value : string).

Inductive GraphTerm : Type :=
| TermIRI (content : IRI)
| TermLiteral (content : RDFLiteral).

Inductive VarOrTerm : Type :=
| OfVar (varorterm : Var)
| OfTerm (varorterm : GraphTerm).

(** [GraphNodePath]: a variable or term, or a collection
    ([TriplesNodePath] over a [CollectionPath]). *)
Inductive GraphNodePath : Type :=
| NodeVarOrTerm (v : VarOrTerm)
| NodeCollection (graphnodepath_list : list GraphNodePath).

(** [VerbPath]: the alternatives of an [SG_Path], each a sequence of path
    elements. *)
Inductive VerbPath : Type := mkVerbPath (sequence_paths : list (list IRI)).

(** [TriplesSameSubject.from_spo]. *)
Record TriplesSameSubject : Type := from_spo {
  tss_subject : VarOrTerm;
  tss_predicate : IRI;
  tss_object : VarOrTerm
}.

(** Expressions: [PrimaryExpression] over a variable, a literal or a
    [BuiltInCall]. *)
Inductive Expression : Type :=
| ExprVar (content : Var)
| ExprLiteral (content : RDFLiteral)
| BuiltInCall (function_name : string) (arguments : list Expression).

Definition create_with_one_expr (function_name : string) (e : Expression) : Expression :=
  BuiltInCall function_name [e].

Definition create_with_n_expr (function_name : string) (es : list Expression) : Expression :=
  BuiltInCall function_name es.

(** An entry of a [SelectClause]: a variable, or [(expression AS var)]. *)
Inductive SelectItem : Type :=
| SelectVar (v : Var)
| SelectAs (e : Expression) (v : Var).

Record OrderCondition : Type := mkOrderCondition {
  oc_var : Var;
  direction : string
}.

Record LimitOffsetClauses : Type := mkLimitOffsetClauses {
  limit_clause : Z;
  offset_clause : Z
}.

Record SolutionModifier : Type := mkSolutionModifier {
  order_by : option (list OrderCondition);
  limit_offset : option LimitOffsetClauses
}.

Section Query.

(** The path triples the caller supplies with the shape-derived predicates
    ([TriplesSameSubjectPath] values built elsewhere). *)
Variable CallerTSSP : Type.

(** The namespace [PREZ] of [prez.reference_data.prez_ns]. *)
Variable PREZ : string.

(** The triple of a full-text-search block: the collection of result
    variables, the path, and the collection of its arguments. *)
Record TriplesSameSubjectPath : Type := mkTSSP {
  tssp_subject : GraphNodePath;
  tssp_verb : VerbPath;
  tssp_objects : list GraphNodePath
}.

(** [TriplesBlock]; [triples_block] holds the argument of
    [TriplesBlock.from_tssp_list] when it is set. *)
Record TriplesBlock : Type := mkTriplesBlock {
  triples : TriplesSameSubjectPath;
  triples_block : option (list CallerTSSP)
}.

(** [GroupGraphPattern] over a [GroupGraphPatternSub] with one block. *)
Inductive GroupGraphPattern : Type := mkGGP (triples_block_of : TriplesBlock).

Record SubSelect : Type := mkSubSelect {
  select_clause : list SelectItem;
  (** the [GroupOrUnionGraphPattern] of the inner WHERE clause *)
  group_graph_patterns : list GroupGraphPattern;
  solution_modifier : SolutionModifier
}.

Record ConstructQuery : Type := mkConstructQuery {
  construct_template : list TriplesSameSubject;
  where_clause : SubSelect;
  outer_solution_modifier : SolutionModifier
}.

Definition RDF_type : string := "http://www.w3.org/1999/02/22-rdf-syntax-ns#type".
Definition TEXT_query : string := "http://jena.apache.org/text#query".

Definition node_of_var (v : Var) : GraphNodePath := NodeVarOrTerm (OfVar v).

(** The search phrase as the query carries it. *)
Definition join_term (term : string) : string := join "+" (split_on " "%char term).

Definition sr_uri : Var := mkVar "focus_node".
Definition weight : Var := mkVar "weight".
Definition match_ : Var := mkVar "match".
Definition g : Var := mkVar "g".
Definition pred : Var := mkVar "pred".
Definition hashid : Var := mkVar "hashID".

Definition generate_fts_triples_block (term : string) (preds : list string) (sr_uri : Var)
  : TriplesBlock :=
  mkTriplesBlock
    (mkTSSP
       (NodeCollection
          [node_of_var sr_uri; node_of_var weight; node_of_var match_;
           node_of_var g; node_of_var pred])
       (mkVerbPath [[mkIRI TEXT_query]])
       [NodeCollection
          (map (fun predicate => NodeVarOrTerm (OfTerm (TermIRI (mkIRI predicate)))) preds
           ++ [NodeVarOrTerm (OfTerm (TermLiteral (mkRDFLiteral term)))])%list])
    None.

(** The bound expression of the result identifier. *)
Definition hash_expression : Expression :=
  create_with_one_expr "URI"
    (create_with_n_expr "CONCAT"
       [ExprLiteral (mkRDFLiteral "urn:hash:");
        create_with_one_expr "SHA256"
          (create_with_n_expr "CONCAT"
             (map (fun e => create_with_one_expr "STR" (ExprVar e))
                  [sr_uri; pred; match_; weight]))]).

(** [SearchQueryFusekiFTS.__init__]: the query object, or the exception
    raised while building it. *)
Definition SearchQueryFusekiFTS (term : string) (limit offset : Z)
  (non_shacl_predicates : option (list string))
  (shacl_tssp_preds : option (list (list CallerTSSP * list string)))
  (tss_list : option (list TriplesSameSubject)) : Res ConstructQuery :=
  let limit := (limit + 1)%Z in
  let term := join_term term in
  let ct_map :=
    [(mkIRI (PREZ ++ "searchResultWeight"), OfVar weight);
     (mkIRI (PREZ ++ "searchResultPredicate"), OfVar pred);
     (mkIRI (PREZ ++ "searchResultMatch"), OfVar match_);
     (mkIRI (PREZ ++ "searchResultURI"), OfVar sr_uri);
     (mkIRI RDF_type, OfTerm (TermIRI (mkIRI (PREZ ++ "SearchResult"))))] in
  let construct_tss_list :=
    map (fun pv => from_spo (OfVar hashid) (fst pv) (snd pv)) ct_map in
  let construct_tss_list :=
    match tss_list with
    | Some (t :: ts) => (construct_tss_list ++ t :: ts)%list
    | _ => construct_tss_list
    end in
  let ggp_list :=
    match non_shacl_predicates with
    | Some (p :: ps) => [mkGGP (generate_fts_triples_block term (p :: ps) sr_uri)]
    | _ => []
    end in
  match shacl_tssp_preds with
  | None => Raise (TypeError "'NoneType' object is not iterable")
  | Some groups =>
      let ggp_list :=
        (ggp_list
         ++ map (fun tp =>
                   let path_preds_tb :=
                     generate_fts_triples_block term (snd tp) (mkVar "fts_search_node") in
                   mkGGP (mkTriplesBlock (triples path_preds_tb) (Some (fst tp))))
                groups)%list in
      Ok (mkConstructQuery
            construct_tss_list
            (mkSubSelect
               [SelectVar sr_uri; SelectVar pred; SelectVar match_; SelectVar weight;
                SelectAs hash_expression hashid]
               ggp_list
               (mkSolutionModifier
                  (Some [mkOrderCondition weight "DESC"])
                  (Some (mkLimitOffsetClauses limit offset))))
            (mkSolutionModifier None None))
  end.

(** The properties [limit], [offset] and [inner_select_vars] of the class. *)
Definition limit (q : ConstructQuery) : option Z :=
  option_map limit_clause (limit_offset (solution_modifier (where_clause q))).

Definition offset (q : ConstructQuery) : option Z :=
  option_map offset_clause (limit_offset (solution_modifier (where_clause q))).

Definition inner_select_vars (q : ConstructQuery) : list SelectItem :=
  select_clause (where_clause q).

Definition inner_order_by (q : ConstructQuery) : option (list OrderCondition) :=
  order_by (solution_modifier (where_clause q)).

(** The literal search terms the query carries, one for each block. *)
Definition literals_of_node (n : GraphNodePath) : list string :=
  match n with
  | NodeCollection l =>
      flat_map (fun m =>
                  match m with
                  | NodeVarOrTerm (OfTerm (TermLiteral (mkRDFLiteral v))) => [v]
                  | _ => []
                  end) l
  | _ => []
  end.

Definition search_terms (q : ConstructQuery) : list string :=
  flat_map (fun ggp =>
              match ggp with
              | mkGGP tb => flat_map literals_of_node (tssp_objects (triples tb))
              end)
           (group_graph_patterns (where_clause q)).

End Query.

(** *** The value of a bound expression

    The SPARQL functions the result identifier uses, over the string forms
    of the bindings of a row; [sha256] is the hash function. *)

Section Eval.

Variable sha256 : string -> string.
Variable row : string -> string.

Fixpoint eval (e : Expression) : string :=
  match e with
  | ExprVar (mkVar v) => row v
  | ExprLiteral (mkRDFLiteral s) => s
  | BuiltInCall f args =>
      let vals := map eval args in
      if String.eqb f "SHA256" then sha256 (String.concat "" vals)
      else (* CONCAT, STR and URI: the string form of the arguments *)
        String.concat "" vals
  end.

End Eval.

End SearchFts.

(** ** The shapes of the generated fragments *)

Module Shapes.

Import Py Lex SparqlNew.
Local Open Scope string_scope.

(** The blank-node triple of level [i]: [?o_(i+1) ?p_(i+2) ?o_(i+2)]. *)
Definition bnode_triple (i : Z) : string * string * string :=
  ("?o" ++ str_int (i + 1), "?p" ++ str_int (i + 2), "?o" ++ str_int (i + 2)).

(** The guard of level [i]: [FILTER(ISBLANK(?o_(i+1)))]. *)
Definition bnode_guard (i : Z) : string :=
  "FILTER(ISBLANK(?o" ++ str_int (i + 1) ++ "))".

(** The tokens of the [OPTIONAL] block of level [i], up to its closing
    brace. *)
Definition optional_tokens (i : Z) : list string :=
  ["OPTIONAL"; "{"; bnode_guard i;
   "?o" ++ str_int (i + 1); "?p" ++ str_int (i + 2); "?o" ++ str_int (i + 2); "."].

Definition triple_tokens (t : string * string * string) : list string :=
  [fst (fst t); snd (fst t); snd t; "."].

(** The triples of a sequence chain from its [i]-th step on. *)
Fixpoint step_triples (i : Z) (preds : list Node) : list (string * string * string) :=
  match preds with
  | [] => []
  | p :: rest =>
      ("?seq_o" ++ str_int i, "<" ++ node_str p ++ ">", "?seq_o" ++ str_int (i + 1))
      :: step_triples (i + 1) rest
  end.

(** The triples of a sequence chain that starts at [object_uri]. *)
Definition chain_triples (object_uri : option string) (chain : list Node)
  : list (string * string * string) :=
  match chain with
  | [] => []
  | p0 :: rest =>
      ("<" ++ fmt_opt object_uri ++ ">", "<" ++ node_str p0 ++ ">", "?seq_o1")
      :: step_triples 1 rest
  end.

(** Each triple starts where the one before it ends. *)
Fixpoint linked (ts : list (string * string * string)) : Prop :=
  match ts with
  | t1 :: ((t2 :: _) as rest) => snd t1 = fst (fst t2) /\ linked rest
  | _ => True
  end.

(** The variables that link the triples of a chain: the objects of all its
    triples but the last. *)
Definition linking_vars (ts : list (string * string * string)) : list string :=
  map snd (removelast ts).

(** *** Tokens *)

(** A text that is empty or starts with white space ends the token under
    way. *)
Definition breaks (s : string) : bool :=
  match s with
  | EmptyString => true
  | String c _ => is_ws c
  end.

(** *** The lines of the blank-node fragments *)

Definition optional_block (i : Z) : string :=
  mul_str tab (i + 1) ++ "OPTIONAL {" ++ nl
  ++ mul_str tab (i + 2) ++ "FILTER(ISBLANK(?o" ++ str_int (i + 1) ++ "))" ++ nl
  ++ mul_str tab (i + 2) ++ "?o" ++ str_int (i + 1) ++ " ?p" ++ str_int (i + 2)
  ++ " ?o" ++ str_int (i + 2) ++ " .".

Definition closing_line (i : Z) : string := nl ++ mul_str tab (i + 1) ++ "}".

Definition construct_line (i : Z) : string :=
  tab ++ "?o" ++ str_int (i + 1) ++ " ?p" ++ str_int (i + 2) ++ " ?o" ++ str_int (i + 2) ++ " .".

(** *** Sequence chains *)

Definition seq_var (k : Z) : string := "?seq_o" ++ str_int k.

(** Hypotheses of the token-level statements: the texts put between angle
    brackets hold no white space, as IRIs do. *)
Definition clean_node (p : Node) : Prop := no_ws (node_str p) = true.

Definition clean_uri (u : option string) : Prop := no_ws (fmt_opt u) = true.

(** The text of one chain, and of the chains of a call one after the other. *)
Definition chain_text (u : option string) (chain : list Node) : string :=
  match sequence_chain u chain with
  | Ok t => t
  | Raise _ => ""
  end.

Definition chains_text (u : option string) (chains : list (list Node)) : string :=
  String.concat "" (map (chain_text u) chains).

Definition predicate_of (t : string * string * string) : string := snd (fst t).

Definition subject_of (t : string * string * string) : string := fst (fst t).

(** *** Texts *)

(** [s.replace(a, b)] for single characters. *)
Fixpoint replace_char (a b : ascii) (s : string) : string :=
  match s with
  | EmptyString => EmptyString
  | String c rest => String (if Ascii.eqb c a then b else c) (replace_char a b rest)
  end.

(** [ends_with t s]: the text [s] ends with [t]. *)
Definition ends_with (t s : string) : Prop := exists body, s = body ++ t.

(** An identifier that closes its own quotes and goes on with an
    expression. *)
Definition breaking_identifier : string :=
  "x" ++ dq ++ " || " ++ dq ++ "1" ++ dq ++ " = " ++ dq ++ "1".

(** *** Computations that only read the profiles graph *)

Definition reader {A} (c : M A) : Prop :=
  forall w,
    profiles_graph_cache (snd (c w)) = profiles_graph_cache w
    /\ item_construct_cache (snd (c w)) = item_construct_cache w
    /\ graph_calls w <= graph_calls (snd (c w))
    /\ forall w', profiles_graph_cache w' = profiles_graph_cache w -> fst (c w') = fst (c w).

(** *** A profiles graph to run the resolution on *)

(** A profile with one shape for a class: an included predicate and a
    sequence path of two predicates. *)
Definition ex_profile : Node := URIRef "http://example.org/profile".

Definition ex_class : Node := URIRef "http://www.w3.org/ns/dcat#Dataset".

Definition ex_title : Node := URIRef "http://purl.org/dc/terms/title".

Definition ex_p1 : Node := URIRef "http://example.org/p1".

Definition ex_p2 : Node := URIRef "http://example.org/p2".

Definition ex_graph : Graph :=
  [(ex_profile, ALTREXT "hasNodeShape", BNode "shape");
   (BNode "shape", SH "targetClass", ex_class);
   (BNode "shape", SH "path", ex_title);
   (BNode "shape", SH "sequencePath", BNode "l1");
   (BNode "l1", RDF_first, ex_p1);
   (BNode "l1", RDF_rest, BNode "l2");
   (BNode "l2", RDF_first, ex_p2);
   (BNode "l2", RDF_rest, URIRef "http://www.w3.org/1999/02/22-rdf-syntax-ns#nil")].

Definition ex_world : World := mkWorld ex_graph 0 LruCache.empty.

Definition ex_item : Item :=
  mkItem (Some "http://example.org/dataset") ex_class
         "http://www.w3.org/ns/dcat#Dataset" "/s/datasets".

Definition ex_index (t : Node) : Res Z := Raise (TypeError "not an integer").

(** *** RDF lists *)

(** The cells a list can run through: no cell at all, or the object of some
    triple of the graph. *)
Definition cells (g : Graph) : list (option Node) := None :: map (fun t => Some (obj t)) g.

Definition out_of_fuel : Exn := Exception "items: out of fuel".

End Shapes.

(** ** What a profile declares

    The reading of the profiles graph that predicate resolution is
    compared with. *)

Module Declared.

Import SparqlNew.

(** [s] is a node shape of [profile] that targets [cls]. *)
Definition shape_for (g : Graph) (profile cls s : Node) : Prop :=
  In (profile, ALTREXT "hasNodeShape", s) g /\ In (s, SH "targetClass", cls) g.

(** Some node shape of [profile] that targets [cls] has the value [o] for
    the property [p]. *)
Definition declared (g : Graph) (profile cls p o : Node) : Prop :=
  exists s, shape_for g profile cls s /\ In (s, p, o) g.

(** The term [o] is the object of a triple of the graph. *)
Definition from_graph (g : Graph) (o : Node) : Prop := exists t, In t g /\ obj t = o.

(** Two graphs hold the same triples. *)
Definition same_triples (g g' : Graph) : Prop := forall t, In t g <-> In t g'.

End Declared.

(** ** More graphs to run the code on *)

Module Examples.

Import SparqlNew Shapes.

(** A profile whose shape for the class lists children and parents. *)
Definition ex_listing_graph : Graph :=
  [(ex_profile, ALTREXT "hasNodeShape", BNode "shape");
   (BNode "shape", SH "targetClass", ex_class);
   (BNode "shape", ALTREXT "outboundChildren",
    URIRef "http://www.w3.org/2000/01/rdf-schema#member");
   (BNode "shape", ALTREXT "inboundParents", URIRef "http://purl.org/dc/terms/hasPart");
   (BNode "shape", ALTREXT "inboundChildren",
    URIRef "http://www.w3.org/2004/02/skos/core#inScheme")].

(** A profile whose sequence path is a list that loops. *)
Definition ex_loop_graph : Graph :=
  [(ex_profile, ALTREXT "hasNodeShape", BNode "shape");
   (BNode "shape", SH "targetClass", ex_class);
   (BNode "shape", SH "sequencePath", BNode "l1");
   (BNode "l1", RDF_first, ex_p1);
   (BNode "l1", RDF_rest, BNode "l2");
   (BNode "l2", RDF_first, ex_p2);
   (BNode "l2", RDF_rest, BNode "l1")].

End Examples.

(** ** Nesting of brackets in generated text *)

Module Nesting.

(** [nest op cl s k]: the nesting level after the text [s], read from
    level [k]; [None] when a closing bracket has no opening one. *)
Fixpoint nest (op cl : ascii) (s : string) (k : nat) : option nat :=
  match s with
  | EmptyString => Some k
  | String c rest =>
      if Ascii.eqb c op then nest op cl rest (S k)
      else if Ascii.eqb c cl then
        match k with
        | O => None
        | S k' => nest op cl rest k'
        end
      else nest op cl rest k
  end.

Definition braces : string -> nat -> option nat := nest "{" "}".
Definition parens : string -> nat -> option nat := nest "(" ")".

(** Every opening bracket is closed and nothing else is. *)
Definition well_braced (s : string) : Prop := braces s 0 = Some 0.
Definition well_parenthesised (s : string) : Prop := parens s 0 = Some 0.

(** The text holds neither bracket. *)
Fixpoint free (op cl : ascii) (s : string) : bool :=
  match s with
  | EmptyString => true
  | String c rest => negb (Ascii.eqb c op) && negb (Ascii.eqb c cl) && free op cl rest
  end.

Definition brace_free : string -> bool := free "{" "}".
Definition paren_free : string -> bool := free "(" ")".

(** The values of a graph hold no brace, as IRIs do. *)
Definition graph_brace_free (g : Graph) : Prop :=
  Forall (fun t => brace_free (node_str (obj t)) = true) g.

(** Predicates that hold no brace. *)
Definition clean_nodes (l : list Node) : Prop :=
  Forall (fun p => brace_free (node_str p) = true) l.

(** A text that leaves the nesting level of what follows it as it is. *)
Definition neutral (op cl : ascii) (s : string) : Prop :=
  forall rest k, nest op cl (s ++ rest) k = nest op cl rest k.

End Nesting.


(** ** Requested mediatypes *)

Module Mediatypes.

Import Py.
Local Open Scope string_scope.

(** The [IF] line that [generate_mediatype_if_statements] writes for one
    requested mediatype. *)
Definition if_line {Weight : Type} (str_weight : Weight -> string) (tup : Weight * string)
  : string :=
  "IF(?format=" ++ dq ++ snd tup ++ dq ++ ", " ++ dq ++ str_weight (fst tup) ++ dq.

Definition if_lines {Weight : Type} (str_weight : Weight -> string)
  (requested_mediatypes : list (Weight * string)) : list string :=
  map (if_line str_weight) requested_mediatypes.

(** What iterating over a Python set gives: each member once, in some
    order. *)
Definition set_iteration (set_iter : list string -> list string) : Prop :=
  forall l, NoDup (set_iter l) /\ (forall x, In x (set_iter l) <-> In x l).

(** One such order: the first occurrences, in order. *)
Definition first_occurrences : list string -> list string := nodup string_dec.

(** Mediatypes and weights that hold no bracket of the kind. *)
Definition plain_mediatypes {Weight : Type} (op cl : ascii) (str_weight : Weight -> string)
  (requested_mediatypes : list (Weight * string)) : Prop :=
  Forall (fun tup => Nesting.free op cl (snd tup) = true
                     /\ Nesting.free op cl (str_weight (fst tup)) = true)
         requested_mediatypes.

End Mediatypes.

(** ** Reading the blocks of a full-text-search query *)

Module FtsBlocks.

Import SearchFts.
Local Open Scope string_scope.

Section Blocks.

Variable CallerTSSP : Type.

(** The IRIs among the arguments of a [text:query] call. *)
Definition iris_of_node (n : GraphNodePath) : list string :=
  match n with
  | NodeCollection l =>
      flat_map (fun m =>
                  match m with
                  | NodeVarOrTerm (OfTerm (TermIRI (mkIRI v))) => [v]
                  | _ => []
                  end) l
  | _ => []
  end.

(** The variable that a block binds the matching node to: the first
    member of its subject collection. *)
Definition block_node (ggp : GroupGraphPattern CallerTSSP) : option string :=
  match ggp with
  | mkGGP _ tb =>
      match tssp_subject (triples _ tb) with
      | NodeCollection (NodeVarOrTerm (OfVar (mkVar v)) :: _) => Some v
      | _ => None
      end
  end.

Definition block_predicates (ggp : GroupGraphPattern CallerTSSP) : list string :=
  match ggp with
  | mkGGP _ tb => flat_map iris_of_node (tssp_objects (triples _ tb))
  end.

Definition block_phrases (ggp : GroupGraphPattern CallerTSSP) : list string :=
  match ggp with
  | mkGGP _ tb => flat_map literals_of_node (tssp_objects (triples _ tb))
  end.

(** The path triples attached to a block. *)
Definition block_paths (ggp : GroupGraphPattern CallerTSSP) : option (list CallerTSSP) :=
  match ggp with
  | mkGGP _ tb => triples_block _ tb
  end.

(** What a block says: the node variable, the predicates searched, the
    phrases and the path triples. *)
Definition block_summary (ggp : GroupGraphPattern CallerTSSP)
  : option string * list string * list string * option (list CallerTSSP) :=
  (block_node ggp, block_predicates ggp, block_phrases ggp, block_paths ggp).

(** The variables of a term of the construct template. *)
Definition term_vars (t : VarOrTerm) : list string :=
  match t with
  | OfVar (mkVar v) => [v]
  | OfTerm _ => []
  end.

Definition template_vars (tss : TriplesSameSubject) : list string :=
  (term_vars (tss_subject tss) ++ term_vars (tss_object tss))%list.

(** The variables that a SELECT clause projects. *)
Definition selected_var (i : SelectItem) : string :=
  match i with
  | SelectVar (mkVar v) => v
  | SelectAs _ (mkVar v) => v
  end.

End Blocks.

End FtsBlocks.

(** ** Annotations from the TBox cache

    [get_annotation_properties] and [get_annotations_from_tbox_cache] of
    [sparql_new.py]; the TBox cache is the graph [tbox_cache]. *)

Module Annotations.

Import Py.
Local Open Scope string_scope.

Definition RDFS_label : Node := URIRef "http://www.w3.org/2000/01/rdf-schema#label".
Definition DCTERMS_description : Node := URIRef "http://purl.org/dc/terms/description".
Definition DCTERMS_provenance : Node := URIRef "http://purl.org/dc/terms/provenance".

(** [isinstance(i, URIRef)]. *)
Definition is_uriref (n : Node) : bool :=
  match n with URIRef _ => true | _ => false end.

Definition triple_eqb (a b : Triple) : bool :=
  node_eqb (subj a) (subj b) && node_eqb (pred a) (pred b) && node_eqb (obj a) (obj b).

(** [Graph.add]: a triple that the graph holds is not added again. *)
Definition graph_add (g : Graph) (t : Triple) : Graph :=
  if existsb (triple_eqb t) g then g else (g ++ [t])%list.

Section Terms.

(** The order in which Python iterates over the set of the given terms. *)
Variable set_order : list Node -> list Node.

Definition get_annotations_from_tbox_cache (tbox_cache : Graph) (terms : list Node)
  : list Node * Graph :=
  let labels_from_cache : Graph := [] in
  let terms_list := terms in
  let labels := triples_choices tbox_cache terms_list RDFS_label None in
  let descriptions := triples_choices tbox_cache terms_list DCTERMS_description None in
  let provenance := triples_choices tbox_cache terms_list DCTERMS_provenance None in
  let all := (labels ++ descriptions ++ provenance)%list in
  let labels_from_cache := fold_left graph_add all labels_from_cache in
  let uncached_terms :=
    set_order (filter (fun t => negb (existsb (node_eqb t) (map subj all))) terms) in
  (uncached_terms, labels_from_cache).

Definition get_annotation_properties (tbox_cache object_graph : Graph)
  (label_property : Node) : option string * Graph :=
  let members :=
    (filter is_uriref (map pred object_graph)
     ++ filter is_uriref (map obj object_graph))%list in
  if negb (truthy_list members) then (None, [])
  else
    let terms := set_order members in
    let '(uncached_terms, labels_g) := get_annotations_from_tbox_cache tbox_cache terms in
    let lp := node_str label_property in
    let queries_for_uncached :=
      "CONSTRUCT { ?term <" ++ lp ++ "> ?label }" ++ nl
      ++ "        WHERE { ?term <" ++ lp ++ "> ?label ." ++ nl
      ++ "        VALUES ?term { "
      ++ join " " (map (fun term => "<" ++ node_str term ++ ">") uncached_terms)
      ++ " }" ++ nl
      ++ "        FILTER(lang(?label) = " ++ dq ++ dq ++ " || lang(?label) = "
      ++ dq ++ "en" ++ dq ++ " || lang(?label) = " ++ dq ++ "en-AU" ++ dq ++ ")" ++ nl
      ++ "        }" in
    (Some queries_for_uncached, labels_g).

End Terms.

(** What iterating over a Python set of terms gives: each member once, in
    some order. *)
Definition term_iteration (set_order : list Node -> list Node) : Prop :=
  forall l, NoDup (set_order l) /\ (forall x, In x (set_order l) <-> In x l).

(** The properties that the TBox cache is read for. *)
Definition annotation (p : Node) : Prop :=
  p = RDFS_label \/ p = DCTERMS_description \/ p = DCTERMS_provenance.

(** The URI references among the predicates and objects of a graph. *)
Definition graph_terms (g : Graph) : list Node :=
  (filter is_uriref (map pred g) ++ filter is_uriref (map obj g))%list.

Definition node_dec (a b : Node) : {a = b} + {a <> b}.
Proof. decide equality; apply string_dec. Defined.

(** One iteration order: the first occurrences, in order. *)
Definition first_terms : list Node -> list Node := nodup node_dec.

(** A TBox with a label for one property and only a description for
    another, and an object graph that uses both and a third. *)
Definition ex_tbox : Graph :=
  [(URIRef "http://purl.org/dc/terms/title", RDFS_label, Literal "Title");
   (URIRef "http://purl.org/dc/terms/creator", DCTERMS_description, Literal "An entity");
   (URIRef "http://example.org/other", RDFS_label, Literal "Other")].

Definition ex_object_graph : Graph :=
  [(URIRef "http://example.org/d", URIRef "http://purl.org/dc/terms/title", Literal "D");
   (URIRef "http://example.org/d", URIRef "http://purl.org/dc/terms/creator",
    URIRef "http://example.org/agent")].

End Annotations.
(** * Properties *)

(** ** Tokens of concatenated text *)

Module LexFacts.

Import Lex Py Shapes.
Local Open Scope string_scope.

Lemma append_empty_r (s : string) : s ++ "" = s.
Proof. induction s; simpl; congruence. Qed.

Lemma append_assoc (a b c : string) : (a ++ b) ++ c = a ++ b ++ c.
Proof. induction a; simpl; congruence. Qed.

Lemma scan_app_no_ws (a : string) : forall cur s,
  no_ws a = true -> scan cur (a ++ s) = scan (cur ++ a) s.
Proof.
  induction a as [|c a IH]; intros cur s H; simpl in *.
  - now rewrite append_empty_r.
  - apply andb_prop in H as [Hc Ha].
    destruct (is_ws c); [discriminate|].
    rewrite IH by assumption. now rewrite append_assoc.
Qed.

Lemma scan_app_ws (a : string) : forall cur w b,
  is_ws w = true -> scan cur (a ++ String w b) = (scan cur a ++ scan "" b)%list.
Proof.
  induction a as [|c a IH]; intros cur w b H; simpl.
  - now rewrite H.
  - destruct (is_ws c); [rewrite IH by assumption; now rewrite app_assoc | now apply IH].
Qed.

Lemma scan_breaks (cur s : string) :
  breaks s = true -> scan cur s = (flush cur ++ scan "" s)%list.
Proof.
  destruct s as [|c s]; simpl; intros H.
  - now rewrite app_nil_r.
  - now rewrite H.
Qed.

Lemma tokens_app_breaks (a b : string) :
  breaks b = true -> tokens (a ++ b) = (tokens a ++ tokens b)%list.
Proof.
  unfold tokens. destruct b as [|w b]; intros H.
  - simpl. now rewrite append_empty_r, app_nil_r.
  - simpl in H. rewrite scan_app_ws by exact H.
    simpl. now rewrite H.
Qed.

Lemma no_ws_uint (u : Decimal.uint) : no_ws (NilEmpty.string_of_uint u) = true.
Proof. induction u; simpl; auto. Qed.

Lemma no_ws_str_int (n : Z) : no_ws (str_int n) = true.
Proof.
  unfold str_int, NilZero.string_of_int, NilZero.string_of_uint.
  destruct (Z.to_int n) as [u|u]; destruct u; simpl; auto;
    rewrite ?no_ws_uint; reflexivity.
Qed.

Lemma scan_tabs (n : nat) (s : string) : scan "" (repeat_nat tab n ++ s) = scan "" s.
Proof. induction n; simpl; auto. Qed.

Lemma scan_mul_tab (n : Z) (s : string) : scan "" (mul_str tab n ++ s) = scan "" s.
Proof. apply scan_tabs. Qed.

Lemma join_cons_nl (x y : string) (l : list string) :
  join nl (x :: y :: l) = x ++ nl ++ join nl (y :: l).
Proof. reflexivity. Qed.

Lemma tokens_join_nl (l : list string) :
  tokens (join nl l) = flat_map tokens l.
Proof.
  induction l as [|x [|y l] IH].
  - reflexivity.
  - simpl. now rewrite app_nil_r.
  - rewrite join_cons_nl. change (x ++ nl ++ join nl (y :: l))
      with (x ++ String (ascii_of_nat 10) (join nl (y :: l))).
    unfold tokens at 1. rewrite scan_app_ws by reflexivity.
    change (flat_map tokens (x :: y :: l)) with (tokens x ++ flat_map tokens (y :: l))%list.
    now rewrite <- IH.
Qed.

Lemma join_empty_cons (x : string) (l : list string) : join "" (x :: l) = x ++ join "" l.
Proof. destruct l; simpl; [now rewrite append_empty_r | reflexivity]. Qed.

Lemma flat_map_map {A B C} (f : B -> list C) (g : A -> B) (l : list A) :
  flat_map f (map g l) = flat_map (fun x => f (g x)) l.
Proof. induction l; simpl; congruence. Qed.

Lemma length_range (d : Z) : List.length (range d) = Z.to_nat d.
Proof. unfold range. now rewrite length_map, length_seq. Qed.

End LexFacts.

(** ** Blank-node fragments *)

Module BnodeFacts.

Import Lex Py SparqlNew Shapes LexFacts.
Local Open Scope string_scope.

Lemma generate_bnode_select_eq (depth : Z) :
  generate_bnode_select depth =
  join nl (map optional_block (range depth))
  ++ join "" (map closing_line (reversed (range depth))).
Proof. reflexivity. Qed.

Lemma generate_bnode_construct_eq (depth : Z) :
  generate_bnode_construct depth = nl ++ join nl (map construct_line (range depth)).
Proof. reflexivity. Qed.

Lemma tokens_optional_block (i : Z) : tokens (optional_block i) = optional_tokens i.
Proof.
  unfold tokens, optional_block, optional_tokens, bnode_guard.
  generalize (no_ws_str_int (i + 1)) (no_ws_str_int (i + 2)).
  generalize (str_int (i + 1)) (str_int (i + 2)).
  intros s1 s2 H1 H2.
  repeat (rewrite ?scan_mul_tab;
          first [ rewrite (scan_app_no_ws s1) by exact H1
                | rewrite (scan_app_no_ws s2) by exact H2
                | progress simpl ]).
  now rewrite !append_assoc.
Qed.

Lemma tokens_construct_line (i : Z) :
  tokens (construct_line i) = triple_tokens (bnode_triple i).
Proof.
  unfold tokens, construct_line, triple_tokens, bnode_triple.
  generalize (no_ws_str_int (i + 1)) (no_ws_str_int (i + 2)).
  generalize (str_int (i + 1)) (str_int (i + 2)).
  intros s1 s2 H1 H2.
  repeat first [ rewrite (scan_app_no_ws s1) by exact H1
               | rewrite (scan_app_no_ws s2) by exact H2
               | progress simpl ].
  reflexivity.
Qed.

Lemma flat_map_ext_eq {A B} (f g : A -> list B) (l : list A) :
  (forall x, f x = g x) -> flat_map f l = flat_map g l.
Proof. intros H. induction l; simpl; congruence. Qed.

Lemma tokens_blocks (l : list Z) :
  tokens (join nl (map optional_block l)) = flat_map optional_tokens l.
Proof.
  rewrite tokens_join_nl, flat_map_map.
  apply flat_map_ext_eq, tokens_optional_block.
Qed.

Lemma tokens_construct_lines (l : list Z) :
  tokens (join nl (map construct_line l)) =
  flat_map (fun i => triple_tokens (bnode_triple i)) l.
Proof.
  rewrite tokens_join_nl, flat_map_map.
  apply flat_map_ext_eq, tokens_construct_line.
Qed.

Lemma breaks_closings (l : list Z) : breaks (join "" (map closing_line l)) = true.
Proof. destruct l; [reflexivity|]. simpl map. now rewrite join_empty_cons. Qed.

Lemma tokens_closings (l : list Z) :
  tokens (join "" (map closing_line l)) = repeat "}" (List.length l).
Proof.
  induction l as [|i l IH]; [reflexivity|].
  simpl map. rewrite join_empty_cons. unfold closing_line at 1, tokens.
  simpl. rewrite append_assoc, scan_mul_tab. simpl.
  rewrite scan_breaks by apply breaks_closings.
  simpl. f_equal. exact IH.
Qed.

(** The token lists of the two fragments. *)
Lemma tokens_bnode_select (depth : Z) :
  tokens (generate_bnode_select depth) =
  (flat_map optional_tokens (range depth) ++ repeat "}" (Z.to_nat depth))%list.
Proof.
  rewrite generate_bnode_select_eq.
  rewrite tokens_app_breaks by apply breaks_closings.
  rewrite tokens_blocks, tokens_closings.
  unfold reversed. now rewrite length_rev, length_range.
Qed.

Lemma tokens_bnode_construct (depth : Z) :
  tokens (generate_bnode_construct depth) =
  flat_map (fun i => triple_tokens (bnode_triple i)) (range depth).
Proof.
  rewrite generate_bnode_construct_eq. unfold tokens. simpl.
  apply tokens_construct_lines.
Qed.

(** Counting over the token list of the WHERE fragment. *)
Section Counting.

Variable l : list Z.

Lemma count_optional (m : nat) :
  count_tok "OPTIONAL" (flat_map optional_tokens l ++ repeat "}" m) = List.length l.
Proof.
  unfold count_tok. rewrite filter_app, length_app.
  assert (H : filter (String.eqb "OPTIONAL") (repeat "}" m) = []).
  { induction m; simpl; auto. }
  rewrite H. simpl. rewrite Nat.add_0_r.
  induction l as [|i r IH]; simpl; auto.
Qed.

Lemma depth_closings (m k : nat) : depth_from k (repeat "}" m) = k.
Proof.
  revert k. induction m as [|m IH]; intros k; simpl; auto.
  rewrite IH. lia.
Qed.

Lemma balanced_closings (m k : nat) : balanced_from k (repeat "}" m) = Nat.eqb k m.
Proof.
  revert k. induction m as [|m IH]; intros k; simpl.
  - destruct k; reflexivity.
  - destruct k; simpl; auto.
Qed.

End Counting.

Lemma depth_blocks (l : list Z) : forall m k,
  depth_from k (flat_map optional_tokens l ++ repeat "}" m) = k + List.length l.
Proof.
  induction l as [|i r IH]; intros m k; simpl.
  - rewrite depth_closings. lia.
  - rewrite IH. simpl. lia.
Qed.

Lemma balanced_blocks (l : list Z) : forall m k,
  balanced_from k (flat_map optional_tokens l ++ repeat "}" m) = Nat.eqb (k + List.length l) m.
Proof.
  induction l as [|i r IH]; intros m k; simpl.
  - rewrite balanced_closings. now rewrite Nat.add_0_r.
  - rewrite IH. simpl. now rewrite Nat.add_succ_r.
Qed.

Lemma guards_blocks (l : list Z) (m : nat) :
  filter (starts_with "FILTER(ISBLANK(") (flat_map optional_tokens l ++ repeat "}" m)
  = map bnode_guard l.
Proof.
  rewrite filter_app.
  assert (H : filter (starts_with "FILTER(ISBLANK(") (repeat "}" m) = []).
  { induction m; simpl; auto. }
  rewrite H, app_nil_r.
  induction l as [|i r IH]; [reflexivity|].
  change (flat_map optional_tokens (i :: r))
    with (optional_tokens i ++ flat_map optional_tokens r)%list.
  rewrite filter_app, IH. reflexivity.
Qed.

Lemma pattern_triples_blocks (l : list Z) (m : nat) :
  pattern_triples (flat_map optional_tokens l ++ repeat "}" m) = Some (map bnode_triple l).
Proof.
  unfold pattern_triples. rewrite filter_app.
  assert (H : filter (fun t => negb (is_structure t)) (repeat "}" m) = []).
  { induction m; simpl; auto. }
  rewrite H, app_nil_r.
  induction l as [|i r IH]; simpl; auto. now rewrite IH.
Qed.

Lemma triples_lines (l : list Z) :
  triples (flat_map (fun i => triple_tokens (bnode_triple i)) l) = Some (map bnode_triple l).
Proof. induction l as [|i r IH]; simpl; auto. now rewrite IH. Qed.

Lemma vars_blocks (l : list Z) (m : nat) :
  filter is_var (flat_map optional_tokens l ++ repeat "}" m)
  = filter is_var (flat_map (fun i => triple_tokens (bnode_triple i)) l).
Proof.
  rewrite filter_app.
  assert (H : filter is_var (repeat "}" m) = []).
  { induction m; simpl; auto. }
  rewrite H, app_nil_r.
  induction l as [|i r IH]; simpl; auto. now rewrite IH.
Qed.

(** C3. For every blank-node depth [d >= 0] (here [d = Z.of_nat n]), the
    WHERE fragment of [generate_bnode_select] has exactly [d] [OPTIONAL]
    blocks, nested [d] deep with balanced braces, the block of level [i]
    guarded by [FILTER(ISBLANK(?o_(i+1)))]; the CONSTRUCT fragment of
    [generate_bnode_construct] has exactly the [d] triples
    [?o_(i+1) ?p_(i+2) ?o_(i+2)]; the triple patterns of the WHERE fragment
    are those same triples, so both fragments use the same variables; for
    [d = 0] both fragments have no token at all. *)
Theorem bnode_fragments_match_depth (n : nat) :
  let d := Z.of_nat n in
  let where_tokens := tokens (generate_bnode_select d) in
  let construct_tokens := tokens (generate_bnode_construct d) in
  count_tok "OPTIONAL" where_tokens = n
  /\ depth_from 0 where_tokens = n
  /\ balanced_from 0 where_tokens = true
  /\ filter (starts_with "FILTER(ISBLANK(") where_tokens = map bnode_guard (range d)
  /\ triples construct_tokens = Some (map bnode_triple (range d))
  /\ List.length (map bnode_triple (range d)) = n
  /\ pattern_triples where_tokens = Some (map bnode_triple (range d))
  /\ filter is_var construct_tokens = filter is_var where_tokens
  /\ (n = 0 -> where_tokens = [] /\ construct_tokens = []).
Proof.
  intros d where_tokens construct_tokens.
  subst where_tokens construct_tokens.
  rewrite tokens_bnode_select, tokens_bnode_construct.
  assert (Hn : List.length (range d) = n).
  { rewrite length_range. subst d. apply Nat2Z.id. }
  assert (Hd : Z.to_nat d = n) by (subst d; apply Nat2Z.id).
  rewrite Hd.
  split; [|split; [|split; [|split; [|split; [|split; [|split; [|split]]]]]]].
  - now rewrite count_optional.
  - now rewrite depth_blocks.
  - rewrite balanced_blocks, Hn. apply Nat.eqb_refl.
  - apply guards_blocks.
  - apply triples_lines.
  - now rewrite length_map.
  - apply pattern_triples_blocks.
  - symmetry. apply vars_blocks.
  - intros H0. rewrite H0 in Hn. rewrite H0.
    destruct (range d); [split; reflexivity | discriminate].
Qed.

End BnodeFacts.

(** ** Sequence paths *)

Module SequenceFacts.

Import Lex Py SparqlNew Shapes LexFacts.
Local Open Scope string_scope.

Lemma to_int_not_nil (z : Z) : Z.to_int z <> Decimal.Pos Decimal.Nil /\ Z.to_int z <> Decimal.Neg Decimal.Nil.
Proof.
  assert (H : forall p, Pos.to_uint p <> Decimal.Nil).
  { intros p E. generalize (DecimalPos.Unsigned.of_to p). rewrite E. discriminate. }
  destruct z; simpl; split; try discriminate; intros E; injection E; apply H.
Qed.

Lemma str_int_inj (a b : Z) : str_int a = str_int b -> a = b.
Proof.
  unfold str_int. intros E.
  apply DecimalZ.to_int_inj.
  destruct (to_int_not_nil a) as [Ha1 Ha2], (to_int_not_nil b) as [Hb1 Hb2].
  generalize (NilZero.isi (Z.to_int a) Ha1 Ha2) (NilZero.isi (Z.to_int b) Hb1 Hb2).
  rewrite E. congruence.
Qed.

Lemma seq_var_inj (a b : Z) : seq_var a = seq_var b -> a = b.
Proof. unfold seq_var. intros E. apply str_int_inj. now inversion E. Qed.

Lemma breaks_steps (i : Z) (preds : list Node) (rest : string) :
  breaks rest = true -> breaks (sequence_steps i preds ++ rest) = true.
Proof. destruct preds; simpl; auto. Qed.

Lemma tokens_steps (preds : list Node) : forall i rest,
  Forall clean_node preds -> breaks rest = true ->
  tokens (sequence_steps i preds ++ rest)
  = (flat_map triple_tokens (step_triples i preds) ++ tokens rest)%list.
Proof.
  induction preds as [|p r IH]; intros i rest Hc Hb.
  - reflexivity.
  - inversion Hc as [|? ? Hp Hr]; subst.
    specialize (IH (i + 1)%Z rest Hr Hb).
    assert (Hbr := breaks_steps (i + 1) r rest Hb).
    unfold tokens in *. cbn [sequence_steps step_triples flat_map triple_tokens fst snd].
    revert IH Hbr.
    generalize (no_ws_str_int i) (no_ws_str_int (i + 1)).
    generalize (str_int i) (str_int (i + 1)) (sequence_steps (i + 1) r).
    unfold clean_node in Hp. revert Hp. generalize (node_str p).
    intros np Hp s1 s2 tail H1 H2 IH Hbr.
    rewrite !append_assoc.
    repeat first [ rewrite (scan_app_no_ws s1) by exact H1
                 | rewrite (scan_app_no_ws s2) by exact H2
                 | rewrite (scan_app_no_ws np) by exact Hp
                 | progress simpl ].
    rewrite scan_breaks by exact Hbr.
    rewrite IH. rewrite ?append_assoc. reflexivity.
Qed.

Lemma tokens_chain (u : option string) (p0 : Node) (r : list Node) (rest : string) :
  clean_uri u -> Forall clean_node (p0 :: r) -> breaks rest = true ->
  tokens ((tab ++ "<" ++ fmt_opt u ++ "> <" ++ node_str p0 ++ "> ?seq_o1 ."
           ++ sequence_steps 1 r) ++ rest)
  = (flat_map triple_tokens (chain_triples u (p0 :: r)) ++ tokens rest)%list.
Proof.
  intros Hu Hc Hb. inversion Hc as [|? ? Hp Hr]; subst.
  assert (IH := tokens_steps r 1 rest Hr Hb).
  assert (Hbr := breaks_steps 1 r rest Hb).
  unfold tokens in *. cbn [chain_triples flat_map triple_tokens fst snd].
  revert IH Hbr. generalize (sequence_steps 1 r).
  unfold clean_node in Hp. revert Hp. generalize (node_str p0).
  unfold clean_uri in Hu. revert Hu. generalize (fmt_opt u).
  intros su Hu np Hp tail IH Hbr.
  rewrite !append_assoc.
  repeat first [ rewrite (scan_app_no_ws su) by exact Hu
               | rewrite (scan_app_no_ws np) by exact Hp
               | progress simpl ].
  rewrite scan_breaks by exact Hbr.
  rewrite IH. rewrite ?append_assoc. reflexivity.
Qed.

Lemma concat_empty_cons (x : string) (l : list string) :
  String.concat "" (x :: l) = x ++ String.concat "" l.
Proof. destruct l; simpl; [now rewrite append_empty_r | reflexivity]. Qed.

Lemma sequence_chains_ok (u : option string) (chains : list (list Node)) : forall acc,
  Forall (fun c => c <> []) chains ->
  sequence_chains u acc chains = Ok (acc ++ chains_text u chains).
Proof.
  induction chains as [|c cs IH]; intros acc H.
  - simpl. now rewrite append_empty_r.
  - inversion H as [|? ? Hc Hcs]; subst.
    destruct c as [|p0 r]; [congruence|].
    unfold chains_text. cbn [map]. rewrite concat_empty_cons.
    cbn [sequence_chains sequence_chain chain_text].
    rewrite IH by assumption. unfold chains_text. now rewrite append_assoc.
Qed.

Lemma breaks_chains_text (u : option string) (chains : list (list Node)) :
  Forall (fun c => c <> []) chains -> breaks (chains_text u chains) = true.
Proof.
  intros H. destruct chains as [|c cs]; [reflexivity|].
  inversion H as [|? ? Hc Hcs]; subst.
  destruct c as [|p0 r]; [congruence|].
  unfold chains_text. cbn [map]. now rewrite concat_empty_cons.
Qed.

Lemma tokens_chains_text (u : option string) (chains : list (list Node)) :
  clean_uri u ->
  Forall (fun c => c <> []) chains ->
  Forall (Forall clean_node) chains ->
  tokens (chains_text u chains)
  = flat_map triple_tokens (flat_map (chain_triples u) chains).
Proof.
  intros Hu. induction chains as [|c cs IH]; intros Hne Hcl; [reflexivity|].
  inversion Hne as [|? ? Hc Hcs]; subst.
  inversion Hcl as [|? ? Hc' Hcs']; subst.
  destruct c as [|p0 r]; [congruence|].
  unfold chains_text. cbn [map]. rewrite concat_empty_cons.
  cbn [chain_text sequence_chain].
  rewrite tokens_chain; auto.
  - cbn [flat_map]. rewrite flat_map_app. f_equal. now apply IH.
  - now apply breaks_chains_text.
Qed.

Lemma triples_of_tokens (ts : list (string * string * string)) :
  triples (flat_map triple_tokens ts) = Some ts.
Proof.
  induction ts as [|[[a b] c] ts IH]; [reflexivity|].
  simpl. now rewrite IH.
Qed.

(** Every call whose chains are non-empty returns a text whose triples are
    those of its chains, chain after chain. *)
Lemma sequence_construct_triples (u : option string) (chains : list (list Node)) :
  clean_uri u ->
  Forall (fun c => c <> []) chains ->
  Forall (Forall clean_node) chains ->
  exists text,
    generate_sequence_construct u (Some chains) = Ok text
    /\ triples (tokens text) = Some (flat_map (chain_triples u) chains).
Proof.
  intros Hu Hne Hcl. unfold generate_sequence_construct.
  destruct chains as [|c cs].
  - exists "". split; reflexivity.
  - cbn [truthy_opt_list truthy_list opt_list].
    rewrite sequence_chains_ok by assumption.
    eexists. split; [reflexivity|].
    cbn [append]. rewrite tokens_chains_text by assumption.
    apply triples_of_tokens.
Qed.

(** The shape of the triples of one chain. *)
Lemma length_step_triples (preds : list Node) (i : Z) :
  List.length (step_triples i preds) = List.length preds.
Proof. revert i. induction preds; intros i; simpl; auto. Qed.

Lemma length_chain_triples (u : option string) (chain : list Node) :
  List.length (chain_triples u chain) = List.length chain.
Proof. destruct chain; simpl; auto using length_step_triples. Qed.

Lemma predicates_step_triples (preds : list Node) (i : Z) :
  map predicate_of (step_triples i preds) = map (fun p => "<" ++ node_str p ++ ">") preds.
Proof. revert i. induction preds; intros i; simpl; auto. now rewrite IHpreds. Qed.

Lemma predicates_chain_triples (u : option string) (chain : list Node) :
  map predicate_of (chain_triples u chain) = map (fun p => "<" ++ node_str p ++ ">") chain.
Proof. destruct chain; simpl; auto. now rewrite predicates_step_triples. Qed.

Lemma linked_steps (preds : list Node) (i : Z) : linked (step_triples i preds).
Proof.
  revert i. induction preds as [|p [|q r] IH]; intros i; simpl; auto.
  split; [reflexivity|]. apply (IH (i + 1)%Z).
Qed.

Lemma linked_chain (u : option string) (chain : list Node) : linked (chain_triples u chain).
Proof.
  destruct chain as [|p0 [|q r]]; simpl; auto.
  split; [reflexivity|]. apply (linked_steps (q :: r) 1).
Qed.

Lemma objects_steps (preds : list Node) : forall i v,
  In v (map snd (step_triples i preds)) -> exists k, (i < k)%Z /\ v = seq_var k.
Proof.
  induction preds as [|p r IH]; intros i v H; simpl in H; [contradiction|].
  destruct H as [<-|H].
  - exists (i + 1)%Z. split; [lia | reflexivity].
  - destruct (IH _ _ H) as [k [Hk ->]]. exists k. split; [lia | reflexivity].
Qed.

Lemma NoDup_objects_steps (preds : list Node) (i : Z) :
  NoDup (map snd (step_triples i preds)).
Proof.
  revert i. induction preds as [|p r IH]; intros i; simpl; constructor; auto.
  intros H. destruct (objects_steps _ _ _ H) as [k [Hk E]].
  apply (seq_var_inj (i + 1) k) in E. lia.
Qed.

Lemma NoDup_objects_chain (u : option string) (chain : list Node) :
  NoDup (map snd (chain_triples u chain)).
Proof.
  destruct chain as [|p0 r]; simpl; constructor.
  - intros H. destruct (objects_steps _ _ _ H) as [k [Hk E]].
    apply (seq_var_inj 1 k) in E. lia.
  - apply NoDup_objects_steps.
Qed.

Lemma map_removelast {A B} (f : A -> B) (l : list A) :
  map f (removelast l) = removelast (map f l).
Proof. induction l as [|a [|b l] IH]; simpl in *; auto. now rewrite IH. Qed.

Lemma NoDup_removelast {A} (l : list A) : NoDup l -> NoDup (removelast l).
Proof.
  intros H. destruct l as [|a l]; [constructor|].
  assert (Hne : a :: l <> []) by discriminate.
  rewrite (app_removelast_last a Hne) in H.
  now apply NoDup_app_remove_r in H.
Qed.

Lemma length_removelast {A} (l : list A) : List.length (removelast l) = List.length l - 1.
Proof. induction l as [|a [|b l] IH]; simpl in *; auto. rewrite IH. lia. Qed.

Lemma NoDup_linking_vars (u : option string) (chain : list Node) :
  NoDup (linking_vars (chain_triples u chain)).
Proof.
  unfold linking_vars. rewrite map_removelast.
  apply NoDup_removelast, NoDup_objects_chain.
Qed.

Lemma length_linking_vars (u : option string) (chain : list Node) :
  List.length (linking_vars (chain_triples u chain)) = List.length chain - 1.
Proof.
  unfold linking_vars. now rewrite length_map, length_removelast, length_chain_triples.
Qed.

(** The text of a chain depends on the texts of its predicates only, and
    tells them apart. *)
Lemma sequence_steps_texts (c1 : list Node) : forall c2 i,
  map node_str c1 = map node_str c2 -> sequence_steps i c1 = sequence_steps i c2.
Proof.
  induction c1 as [|p r IH]; intros [|q s] i H; simpl in *; try discriminate; auto.
  injection H as Hp Hr. rewrite Hp. now rewrite (IH s (i + 1)%Z Hr).
Qed.

Lemma generate_sequence_texts (u : option string) (c1 c2 : list Node) :
  map node_str c1 = map node_str c2 ->
  generate_sequence_construct u (Some [c1]) = generate_sequence_construct u (Some [c2]).
Proof.
  intros H. unfold generate_sequence_construct. cbn.
  destruct c1 as [|p r], c2 as [|q s]; simpl in *; try discriminate; auto.
  injection H as Hp Hr. rewrite Hp. now rewrite (sequence_steps_texts r s 1 Hr).
Qed.

Lemma append_cancel_r (c : ascii) (a : string) : forall b,
  a ++ String c "" = b ++ String c "" -> a = b.
Proof.
  induction a as [|x a IH]; intros [|y b] H; simpl in *; auto.
  - injection H as _ H. destruct b; discriminate.
  - injection H as _ H. destruct a; discriminate.
  - injection H as -> H. f_equal. now apply IH.
Qed.

Lemma angle_texts_inj (c1 : list Node) : forall c2,
  map (fun p => "<" ++ node_str p ++ ">") c1 = map (fun p => "<" ++ node_str p ++ ">") c2 ->
  map node_str c1 = map node_str c2.
Proof.
  induction c1 as [|p r IH]; intros [|q s] H; simpl in *; try discriminate; auto.
  injection H as Hp Hr. f_equal; [| now apply IH].
  now apply append_cancel_r in Hp.
Qed.

(** X22. For every chain of [n >= 1] predicates without white space,
    rendered alone from an object URI without white space, the generated
    pattern is exactly [n] triples whose predicates are the chain's, in
    source order; the first subject is the object URI and each later
    subject is the object variable of the triple before it; the [n - 1]
    linking variables are distinct.  Rendering the reversed chain gives the
    same text exactly when the chain of predicate texts reads the same in
    both directions, so reversing a chain into a different one changes the
    query. *)
Theorem sequence_chain_in_order (u : option string) (chain : list Node) :
  chain <> [] -> clean_uri u -> Forall clean_node chain ->
  exists text,
    generate_sequence_construct u (Some [chain]) = Ok text
    /\ triples (tokens text) = Some (chain_triples u chain)
    /\ List.length (chain_triples u chain) = List.length chain
    /\ map predicate_of (chain_triples u chain)
       = map (fun p => "<" ++ node_str p ++ ">") chain
    /\ option_map subject_of (hd_error (chain_triples u chain))
       = Some ("<" ++ fmt_opt u ++ ">")
    /\ linked (chain_triples u chain)
    /\ NoDup (linking_vars (chain_triples u chain))
    /\ List.length (linking_vars (chain_triples u chain)) = List.length chain - 1
    /\ (generate_sequence_construct u (Some [rev chain]) = Ok text
        <-> map node_str (rev chain) = map node_str chain).
Proof.
  intros Hne Hu Hc.
  destruct (sequence_construct_triples u [chain] Hu) as [text [Hgen Htr]];
    [repeat constructor; assumption | repeat constructor; assumption |].
  cbn [flat_map] in Htr. rewrite app_nil_r in Htr.
  exists text.
  split; [exact Hgen|]. split; [exact Htr|].
  split; [apply length_chain_triples|].
  split; [apply predicates_chain_triples|].
  split; [destruct chain; [congruence | reflexivity]|].
  split; [apply linked_chain|].
  split; [apply NoDup_linking_vars|].
  split; [apply length_linking_vars|].
  split.
  - intros Hrev.
    assert (Hne' : rev chain <> []).
    { intros E. apply (f_equal (@List.length Node)) in E.
      rewrite length_rev in E. destruct chain; [congruence | discriminate]. }
    assert (Hc' : Forall clean_node (rev chain)) by now apply Forall_rev.
    destruct (sequence_construct_triples u [rev chain] Hu) as [text' [Hgen' Htr']];
      [repeat constructor; assumption | repeat constructor; assumption |].
    cbn [flat_map] in Htr'. rewrite app_nil_r in Htr'.
    rewrite Hrev in Hgen'. injection Hgen' as <-.
    rewrite Htr in Htr'. injection Htr' as E.
    apply angle_texts_inj.
    rewrite <- !(predicates_chain_triples u). now rewrite E.
  - intros E. rewrite (generate_sequence_texts u (rev chain) chain E). exact Hgen.
Qed.

(** A chain of two predicates: two triples, linked through [?seq_o1]. *)
Lemma sequence_chain_in_order_example :
  exists text,
    generate_sequence_construct (Some "http://example.org/item")
      (Some [[URIRef "http://example.org/p"; URIRef "http://example.org/q"]]) = Ok text
    /\ triples (tokens text)
       = Some [("<http://example.org/item>", "<http://example.org/p>", "?seq_o1");
               ("?seq_o1", "<http://example.org/q>", "?seq_o2")].
Proof.
  destruct (sequence_chain_in_order (Some "http://example.org/item")
              [URIRef "http://example.org/p"; URIRef "http://example.org/q"])
    as [text [Hgen [Htr _]]].
  - discriminate.
  - reflexivity.
  - repeat constructor.
  - exists text. split; [exact Hgen | exact Htr].
Defined.

(** The object variables of a chain are numbered from 1, whatever the
    chain and whatever was rendered before it. *)
Lemma objects_step_triples (preds : list Node) : forall i,
  map snd (step_triples (Z.of_nat i) preds)
  = map (fun k => seq_var (Z.of_nat k)) (seq (S i) (List.length preds)).
Proof.
  induction preds as [|p r IH]; intros i; [reflexivity|].
  cbn [step_triples map snd List.length seq]. f_equal.
  - unfold seq_var. f_equal. f_equal. lia.
  - replace (Z.of_nat i + 1)%Z with (Z.of_nat (S i)) by lia. apply IH.
Qed.

Lemma objects_chain_triples (u : option string) (chain : list Node) :
  map snd (chain_triples u chain)
  = map (fun k => seq_var (Z.of_nat k)) (seq 1 (List.length chain)).
Proof.
  destruct chain as [|p0 r]; [reflexivity|].
  cbn [chain_triples map snd List.length seq]. f_equal.
  apply (objects_step_triples r 1).
Qed.

Lemma removelast_seq (start len : nat) : removelast (seq start len) = seq start (len - 1).
Proof.
  revert start. induction len as [|[|n] IH]; intros start; try reflexivity.
  change (removelast (seq start (S (S n))))
    with (start :: removelast (seq (S start) (S n))).
  rewrite IH. cbn. now rewrite Nat.sub_0_r.
Qed.

Lemma linking_vars_chain (u : option string) (chain : list Node) :
  linking_vars (chain_triples u chain)
  = map (fun k => seq_var (Z.of_nat k)) (seq 1 (List.length chain - 1)).
Proof.
  unfold linking_vars.
  now rewrite map_removelast, objects_chain_triples, <- map_removelast, removelast_seq.
Qed.

(** C4, on the code: the chains of one call share their variables.  The
    numbering of the intermediate variables restarts at [?seq_o1] for every
    chain of [sequence_predicates], so the text of a call with several
    chains has the triples of each chain, chain after chain, and every
    linking variable of a chain is a linking variable of each chain that is
    not shorter; [?seq_o1] links the first two triples of every chain of two
    predicates or more. *)
Theorem sequence_chains_share_variables (u : option string) (chains : list (list Node)) :
  clean_uri u ->
  Forall (fun c => c <> []) chains ->
  Forall (Forall clean_node) chains ->
  exists text,
    generate_sequence_construct u (Some chains) = Ok text
    /\ triples (tokens text) = Some (flat_map (chain_triples u) chains)
    /\ (forall c1 c2,
          In c1 chains -> In c2 chains -> List.length c1 <= List.length c2 ->
          incl (linking_vars (chain_triples u c1)) (linking_vars (chain_triples u c2)))
    /\ (forall c,
          In c chains -> 2 <= List.length c ->
          In "?seq_o1" (linking_vars (chain_triples u c))).
Proof.
  intros Hu Hne Hcl.
  destruct (sequence_construct_triples u chains Hu Hne Hcl) as [text [Hgen Htr]].
  exists text. split; [exact Hgen|]. split; [exact Htr|]. split.
  - intros c1 c2 _ _ Hle v Hv. rewrite linking_vars_chain in *.
    apply in_map_iff in Hv as [k [<- Hk]]. apply in_map_iff. exists k.
    split; [reflexivity|]. apply in_seq in Hk. apply in_seq. lia.
  - intros c _ Hc. rewrite linking_vars_chain.
    apply in_map_iff. exists 1. split; [reflexivity|]. apply in_seq. lia.
Qed.

(** Two chains of two predicates in one call: both run through [?seq_o1],
    and the second chain ends in the variable the first ends in. *)
Lemma sequence_chains_share_variables_example :
  exists text,
    generate_sequence_construct (Some "http://example.org/item")
      (Some [[URIRef "http://example.org/p"; URIRef "http://example.org/q"];
             [URIRef "http://example.org/r"; URIRef "http://example.org/s"]]) = Ok text
    /\ triples (tokens text)
       = Some [("<http://example.org/item>", "<http://example.org/p>", "?seq_o1");
               ("?seq_o1", "<http://example.org/q>", "?seq_o2");
               ("<http://example.org/item>", "<http://example.org/r>", "?seq_o1");
               ("?seq_o1", "<http://example.org/s>", "?seq_o2")]
    /\ In "?seq_o1"
          (linking_vars
             (chain_triples (Some "http://example.org/item")
                [URIRef "http://example.org/p"; URIRef "http://example.org/q"]))
    /\ In "?seq_o1"
          (linking_vars
             (chain_triples (Some "http://example.org/item")
                [URIRef "http://example.org/r"; URIRef "http://example.org/s"])).
Proof.
  destruct (sequence_chains_share_variables (Some "http://example.org/item")
              [[URIRef "http://example.org/p"; URIRef "http://example.org/q"];
               [URIRef "http://example.org/r"; URIRef "http://example.org/s"]])
    as [text [Hgen [Htr [_ Hs]]]].
  - reflexivity.
  - repeat constructor; discriminate.
  - repeat constructor.
  - exists text. split; [exact Hgen|]. split; [exact Htr|].
    split; apply Hs; cbn; auto; lia.
Defined.

End SequenceFacts.

(** ** Full-text search *)

Module SearchFacts.

Import Py SearchFts Shapes.
Local Open Scope string_scope.

Lemma split_on_cons (c : ascii) (s : string) : exists w ws, split_on c s = w :: ws.
Proof.
  induction s as [|a s [w [ws IH]]]; simpl.
  - now exists "", [].
  - destruct (Ascii.eqb a c); [now exists "", (split_on c s)|].
    rewrite IH. now exists (String a w), ws.
Qed.

Lemma join_cons_cons (sep x y : string) (l : list string) :
  join sep (x :: y :: l) = x ++ sep ++ join sep (y :: l).
Proof. reflexivity. Qed.

Lemma join_String (sep : string) (a : ascii) (w : string) (ws : list string) :
  join sep (String a w :: ws) = String a (join sep (w :: ws)).
Proof. destruct ws; reflexivity. Qed.

(** What the code does with the search phrase: each space becomes a [+],
    every other character stays. *)
Lemma join_term_replaces_spaces (term : string) :
  join_term term = replace_char " " "+" term.
Proof.
  unfold join_term. induction term as [|a s IH]; [reflexivity|].
  cbn [split_on replace_char].
  destruct (split_on_cons " " s) as [w [ws E]]. rewrite E in *.
  destruct (Ascii.eqb a " ").
  - rewrite join_cons_cons, IH. reflexivity.
  - rewrite join_String, IH. reflexivity.
Qed.

Section Built.

Variable CallerTSSP : Type.
Variable PREZ : string.

Let build := SearchQueryFusekiFTS CallerTSSP PREZ.

(** C5. Every full-text-search query built with limit [L] and offset [O]
    carries [L + 1] in the LIMIT clause of its inner SELECT and [O] in its
    OFFSET clause, and the inner SELECT is ordered by [?weight] descending.
    (A query is built whenever [shacl_tssp_preds] is a list; left at its
    default [None], the constructor raises.) *)
Theorem fts_limit_offset_order (term : string) (L O : Z)
  (non_shacl_predicates : option (list string))
  (tss_list : option (list TriplesSameSubject)) :
  (forall groups,
      exists q,
        build term L O non_shacl_predicates (Some groups) tss_list = Ok q
        /\ limit CallerTSSP q = Some (L + 1)%Z
        /\ offset CallerTSSP q = Some O
        /\ inner_order_by CallerTSSP q = Some [mkOrderCondition (mkVar "weight") "DESC"])
  /\ is_ok (build term L O non_shacl_predicates None tss_list) = false.
Proof.
  split; [|reflexivity].
  intros groups. eexists. split; [reflexivity|]. repeat split.
Qed.

(** C6. Every full-text-search query binds [?hashID] in its inner SELECT to
    [URI(CONCAT("urn:hash:", SHA256(CONCAT(STR(?focus_node), STR(?pred),
    STR(?match), STR(?weight)))))], its only bound expression; the value of
    that expression for a row is ["urn:hash:"] followed by the hash of the
    string forms of focus node, predicate, match and weight, concatenated in
    that order, so rows that agree on these four get the same identifier. *)
Theorem fts_hash_identifier (term : string) (L O : Z)
  (non_shacl_predicates : option (list string))
  (groups : list (list CallerTSSP * list string))
  (tss_list : option (list TriplesSameSubject)) :
  let hash :=
    BuiltInCall "URI"
      [BuiltInCall "CONCAT"
         [ExprLiteral (mkRDFLiteral "urn:hash:");
          BuiltInCall "SHA256"
            [BuiltInCall "CONCAT"
               [BuiltInCall "STR" [ExprVar (mkVar "focus_node")];
                BuiltInCall "STR" [ExprVar (mkVar "pred")];
                BuiltInCall "STR" [ExprVar (mkVar "match")];
                BuiltInCall "STR" [ExprVar (mkVar "weight")]]]]] in
  exists q,
    build term L O non_shacl_predicates (Some groups) tss_list = Ok q
    /\ inner_select_vars CallerTSSP q
       = [SelectVar (mkVar "focus_node"); SelectVar (mkVar "pred");
          SelectVar (mkVar "match"); SelectVar (mkVar "weight");
          SelectAs hash (mkVar "hashID")]
    /\ (forall sha256 row,
           eval sha256 row hash
           = "urn:hash:"
             ++ sha256 (row "focus_node" ++ row "pred" ++ row "match" ++ row "weight"))
    /\ (forall sha256 row row',
           row "focus_node" = row' "focus_node" -> row "pred" = row' "pred" ->
           row "match" = row' "match" -> row "weight" = row' "weight" ->
           eval sha256 row hash = eval sha256 row' hash).
Proof.
  intros hash. eexists. split; [reflexivity|]. split; [reflexivity|].
  assert (E : forall sha256 row,
             eval sha256 row hash
             = "urn:hash:"
               ++ sha256 (row "focus_node" ++ row "pred" ++ row "match" ++ row "weight")).
  { intros sha256 row. subst hash. cbn. reflexivity. }
  split; [exact E|].
  intros sha256 row row' H1 H2 H3 H4. rewrite !E. congruence.
Qed.

Lemma literals_of_iris (l : list string) :
  flat_map (fun m : GraphNodePath =>
              match m with
              | NodeVarOrTerm (OfTerm (TermLiteral (mkRDFLiteral v))) => [v]
              | _ => []
              end)
    (map (fun predicate => NodeVarOrTerm (OfTerm (TermIRI (mkIRI predicate)))) l)
  = [].
Proof. induction l; simpl; auto. Qed.

(** The search phrase of the block of a built query is [join_term term],
    the phrase with its spaces replaced. *)
Lemma fts_search_terms (term : string) (L O : Z) (p : string) (ps : list string)
  (tss_list : option (list TriplesSameSubject)) :
  exists q,
    build term L O (Some (p :: ps)) (Some []) tss_list = Ok q
    /\ search_terms CallerTSSP q = [replace_char " " "+" term].
Proof.
  eexists. split; [reflexivity|].
  unfold search_terms. cbn -[join_term].
  rewrite flat_map_app, literals_of_iris. cbn -[join_term].
  now rewrite join_term_replaces_spaces.
Qed.

(** Every block of every built query carries that phrase and no other. *)
Lemma fts_search_terms_every_block (term : string) (L O : Z)
  (non_shacl_predicates : option (list string))
  (groups : list (list CallerTSSP * list string))
  (tss_list : option (list TriplesSameSubject)) :
  exists q,
    build term L O non_shacl_predicates (Some groups) tss_list = Ok q
    /\ Forall (fun v => v = replace_char " " "+" term) (search_terms CallerTSSP q).
Proof.
  eexists. split; [reflexivity|].
  unfold search_terms. cbn [where_clause group_graph_patterns].
  rewrite flat_map_app. apply Forall_app. split.
  - destruct non_shacl_predicates as [[|p ps]|]; try constructor.
    cbn -[join_term]. rewrite flat_map_app, literals_of_iris. cbn -[join_term].
    constructor; [apply join_term_replaces_spaces | constructor].
  - induction groups as [|tp groups IH]; [constructor|].
    cbn [map flat_map]. apply Forall_app. split; [|exact IH].
    cbn -[join_term]. rewrite flat_map_app, literals_of_iris. cbn -[join_term].
    constructor; [apply join_term_replaces_spaces | constructor].
Qed.

End Built.

(** C7, on the code: the phrase is split on the space character only.  A
    tab between two words stays in the phrase the query carries, and two
    spaces give two [+]; splitting on white space would give [new+york] for
    both. *)
Theorem fts_term_split_on_space_only :
  join_term ("new" ++ tab ++ "york") = "new" ++ tab ++ "york"
  /\ join_term "new  york" = "new++york"
  /\ option_map (search_terms unit)
       (match SearchQueryFusekiFTS unit "https://prez.dev/" ("new" ++ tab ++ "york") 10 0
                (Some ["http://www.w3.org/2000/01/rdf-schema#label"]) (Some []) None with
        | Ok q => Some q
        | Raise _ => None
        end)
     = Some ["new" ++ tab ++ "york"].
Proof. repeat split. Qed.

End SearchFacts.

(** ** Profile and mediatype negotiation *)

Module NegotiationFacts.

Import Lex Py SparqlNew Shapes LexFacts.
Local Open Scope string_scope.

Lemma ends_with_refl (t : string) : ends_with t t.
Proof. now exists "". Qed.

Lemma ends_with_app (t a s : string) : ends_with t s -> ends_with t (a ++ s).
Proof. intros [body ->]. exists (a ++ body). now rewrite append_assoc. Qed.


End NegotiationFacts.

(** ** Listing and item construct queries *)

Module AssemblerFacts.

Import Lex Py SparqlNew LexFacts.
Local Open Scope string_scope.

(** Predicate resolution for listings never raises. *)
Lemma get_listing_predicates_ok (profile cls : Node) (w : World) :
  is_ok (fst (get_listing_predicates profile cls w)) = true.
Proof.
  unfold get_listing_predicates, get_relevant_shape_bns_for_profile, bind, pg, ret.
  cbn.
  destruct (truthy_list (objects (profiles_graph_cache w) profile (ALTREXT "hasNodeShape")));
    cbn; [|reflexivity].
  match goal with |- context [truthy_list ?l] => destruct (truthy_list l) end;
    reflexivity.
Qed.

(** C2. For a parent item with a URI, when predicate resolution for
    (profile, selected class) gives four empty sets,
    [generate_listing_construct] returns the empty string. *)
Theorem listing_empty_sentinel (parent_item : Item) (profile : Node)
  (page per_page : option Z) (w : World) :
  truthy_opt (uri parent_item) = true ->
  fst (get_listing_predicates profile (selected_class parent_item) w) = Ok ([], [], [], []) ->
  fst (generate_listing_construct parent_item profile page per_page w) = Ok "".
Proof.
  intros Hu Hp. unfold generate_listing_construct, bind.
  destruct (get_listing_predicates profile (selected_class parent_item) w) as [[preds|e] w'];
    simpl in Hp; [|discriminate].
  injection Hp as ->. rewrite Hu. reflexivity.
Qed.

(** A dataset whose profile declares no shape: the listing query is empty. *)
Lemma listing_empty_sentinel_example :
  fst (generate_listing_construct
         (mkItem (Some "http://example.org/dataset")
                 (URIRef "http://www.w3.org/ns/dcat#Dataset")
                 "http://www.w3.org/ns/dcat#Dataset" "/s/datasets")
         (URIRef "http://example.org/profile") (Some 1%Z) (Some 20%Z)
         (mkWorld [] 0 (LruCache.empty))) = Ok "".
Proof.
  apply listing_empty_sentinel; reflexivity.
Defined.

(** The empty string is returned in that case only. *)
Lemma listing_sentinel_only_then (parent_item : Item) (profile : Node)
  (page per_page : option Z) (w : World) :
  fst (generate_listing_construct parent_item profile page per_page w) = Ok "" ->
  truthy_opt (uri parent_item) = true
  /\ fst (get_listing_predicates profile (selected_class parent_item) w) = Ok ([], [], [], []).
Proof.
  unfold generate_listing_construct, bind.
  destruct (get_listing_predicates profile (selected_class parent_item) w)
    as [[[[[ic ip] oc] op]|e] w']; [|discriminate].
  destruct (truthy_opt (uri parent_item)); cbn [andb fst].
  - destruct ic, ip, oc, op; cbn; try discriminate. auto.
  - discriminate.
Qed.

(** C1, on the code: [generate_item_construct] makes no check of its
    target.  For an item without URI (and whatever else it holds), on a
    profiles graph without shapes, it returns a query about [<None>] and
    stores it in its cache. *)
Theorem item_construct_without_uri (py_index : Node -> Res Z) (cls : Node)
  (general_class link_constructor : string) (profile : Node) :
  let item := mkItem None cls general_class link_constructor in
  exists q w',
    generate_item_construct py_index item profile (mkWorld [] 0 LruCache.empty)
    = (Ok q, w')
    /\ tokens q
       = ["PREFIX"; "rdfs:"; "<http://www.w3.org/2000/01/rdf-schema#>";
          "CONSTRUCT"; "{"; "<None>"; "?p"; "?o1"; ".";
          "?o1"; "?p2"; "?o2"; "."; "?o2"; "?p3"; "?o3"; "."; "}";
          "WHERE"; "{"; "{"; "<None>"; "?p"; "?o1"; ".";
          "OPTIONAL"; "{"; "FILTER(ISBLANK(?o1))"; "?o1"; "?p2"; "?o2"; ".";
          "OPTIONAL"; "{"; "FILTER(ISBLANK(?o2))"; "?o2"; "?p3"; "?o3"; ".";
          "}"; "}"; "}"; "}"]
    /\ LruCache.entries (item_construct_cache w') = [((item, profile), q)].
Proof.
  intros item. eexists. eexists. split; [reflexivity|]. split; reflexivity.
Qed.

(** The sibling [get_dataset_construct] does check: with neither
    identifier nor URI it raises [ValueError] and sends no query. *)
Lemma dataset_construct_requires_target
  (DCAT DCTERMS RDFS XSD c1 c2 g1 g2 : string) (GraphResult : Type)
  (sparql_construct : string -> string -> SpacePrez.Reply GraphResult)
  (sent : SpacePrez.Sent) :
  SpacePrez.get_dataset_construct DCAT DCTERMS RDFS XSD c1 c2 g1 g2 GraphResult
    sparql_construct None None sent
  = (Raise (ValueError "Either an ID or a URI must be provided for a SPARQL query"), sent).
Proof. reflexivity. Qed.

End AssemblerFacts.

(** ** Values interpolated between quotes *)

Module InterpolationFacts.

Import Py Literal SpacePrez Shapes LexFacts.
Local Open Scope string_scope.

Lemma body_plain (v : string) (post : string) :
  plain v = true -> body (v ++ dq ++ post) = Some (v, post).
Proof.
  induction v as [|c v IH]; intros H; [reflexivity|].
  simpl in H. apply andb_prop in H as [H Hv].
  apply andb_prop in H as [H Hb]. apply andb_prop in H as [Hq He].
  apply negb_true_iff in Hq, He, Hb.
  cbn [append body]. rewrite Hq, He, Hb.
  change (v ++ String (ascii_of_nat 34) post) with (v ++ dq ++ post).
  now rewrite (IH Hv).
Qed.

Lemma literal_plain (v : string) (post : string) :
  plain v = true -> string_literal2 (dq ++ v ++ dq ++ post) = Some (v, post).
Proof. intros H. cbn. now apply body_plain. Qed.

(** Replacing spaces by [+] brings in none of the characters that end or
    escape a literal. *)
Lemma plain_replace_space (v : string) :
  plain v = true -> plain (replace_char " " "+" v) = true.
Proof.
  induction v as [|c v IH]; intros H; [reflexivity|].
  cbn [plain replace_char] in *. apply andb_prop in H as [H Hv].
  rewrite (IH Hv), andb_true_r.
  destruct (Ascii.eqb c " "); [reflexivity | exact H].
Qed.

Section Service.

Variables DCAT DCTERMS RDFS XSD : string.
Variables construct_all_prop_obj_info construct_all_bnode_prop_obj_info : string.
Variables get_all_bnode_prop_obj_info get_all_prop_obj_info : string.
Variables GraphResult Rows : Type.
Variable sparql_construct : string -> string -> Reply GraphResult.
Variable sparql_query : string -> string -> Reply Rows.

(** The path triples and the namespace of the full-text-search query. *)
Variable CallerTSSP : Type.
Variable PREZ : string.

(** The identifier goes into both queries as it is. *)
Lemma dataset_label_query (dataset_id : string) :
  queries_sent (get_dataset_label DCAT DCTERMS XSD Rows sparql_query dataset_id)
  = [label_before DCAT DCTERMS XSD ++ dq ++ dataset_id ++ dq ++ label_after].
Proof.
  unfold queries_sent, get_dataset_label, run_query, label_before.
  destruct (sparql_query _ _); cbn [snd app map fst]; f_equal;
    rewrite !append_assoc; reflexivity.
Qed.

Lemma dataset_construct_query (dataset_id : string) :
  queries_sent
    (get_dataset_construct DCAT DCTERMS RDFS XSD construct_all_prop_obj_info
       construct_all_bnode_prop_obj_info get_all_bnode_prop_obj_info get_all_prop_obj_info
       GraphResult sparql_construct (Some dataset_id) None)
  = [construct_before DCAT DCTERMS RDFS XSD construct_all_prop_obj_info
       construct_all_bnode_prop_obj_info
     ++ dq ++ dataset_id ++ dq ++ construct_between
     ++ dq ++ dataset_id ++ dq
     ++ construct_after get_all_bnode_prop_obj_info get_all_prop_obj_info].
Proof.
  unfold queries_sent, get_dataset_construct, run_query, construct_before,
    construct_between, construct_after.
  cbn [is_none andb negb fmt_opt].
  destruct (sparql_construct _ _); cbn [snd app map fst]; f_equal;
    rewrite !append_assoc; reflexivity.
Qed.

(** C9 (amended). User-supplied literal values are embedded as they are,
    without any escaping, whatever they hold: the dataset identifier between
    the double quotes of the queries of [get_dataset_label] and
    [get_dataset_construct], and the search term, each space replaced by
    [+], as the value of the literal of every [text:query] block.  A value
    that holds no double quote, no backslash and no line break, written
    between double quotes, is a literal that ends at its closing quote and
    has the value as its content. *)
Theorem literals_interpolated_verbatim (dataset_id term : string) (L O : Z)
  (non_shacl_predicates : option (list string))
  (groups : list (list CallerTSSP * list string))
  (tss_list : option (list SearchFts.TriplesSameSubject)) :
  let after_label := label_after in
  let after_second := construct_after get_all_bnode_prop_obj_info get_all_prop_obj_info in
  let after_first := construct_between ++ dq ++ dataset_id ++ dq ++ after_second in
  let phrase := replace_char " " "+" term in
  queries_sent (get_dataset_label DCAT DCTERMS XSD Rows sparql_query dataset_id)
  = [label_before DCAT DCTERMS XSD ++ dq ++ dataset_id ++ dq ++ after_label]
  /\ queries_sent
       (get_dataset_construct DCAT DCTERMS RDFS XSD construct_all_prop_obj_info
          construct_all_bnode_prop_obj_info get_all_bnode_prop_obj_info
          get_all_prop_obj_info GraphResult sparql_construct (Some dataset_id) None)
     = [construct_before DCAT DCTERMS RDFS XSD construct_all_prop_obj_info
          construct_all_bnode_prop_obj_info
        ++ dq ++ dataset_id ++ dq ++ after_first]
  /\ (exists q,
        SearchFts.SearchQueryFusekiFTS CallerTSSP PREZ term L O non_shacl_predicates
          (Some groups) tss_list = Ok q
        /\ Forall (fun v => v = phrase) (SearchFts.search_terms CallerTSSP q))
  /\ (plain dataset_id = true ->
      string_literal2 (dq ++ dataset_id ++ dq ++ after_label) = Some (dataset_id, after_label)
      /\ string_literal2 (dq ++ dataset_id ++ dq ++ after_first)
         = Some (dataset_id, after_first)
      /\ string_literal2 (dq ++ dataset_id ++ dq ++ after_second)
         = Some (dataset_id, after_second))
  /\ (plain term = true ->
      forall post, string_literal2 (dq ++ phrase ++ dq ++ post) = Some (phrase, post)).
Proof.
  intros after_label after_second after_first phrase.
  split; [apply dataset_label_query|].
  split; [subst after_first after_second; rewrite dataset_construct_query;
          f_equal; now rewrite ?append_assoc|].
  split; [apply SearchFacts.fts_search_terms_every_block|].
  split.
  - intros H. repeat split; now apply literal_plain.
  - intros H post. apply literal_plain. now apply plain_replace_space.
Qed.

End Service.

(** The identifier [floods] in the label query, and the phrase of the
    term [new york]. *)
Lemma literals_interpolated_verbatim_example :
  string_literal2 (dq ++ "floods" ++ dq ++ label_after) = Some ("floods", label_after)
  /\ string_literal2 (dq ++ "new+york" ++ dq ++ ")") = Some ("new+york", ")").
Proof.
  destruct (literals_interpolated_verbatim
              "http://www.w3.org/ns/dcat#" "http://purl.org/dc/terms/"
              "http://www.w3.org/2000/01/rdf-schema#" "http://www.w3.org/2001/XMLSchema#"
              "" "" "" "" unit unit
              (fun _ _ => Success tt) (fun _ _ => Success tt)
              unit "https://prez.dev/"
              "floods" "new york" 10%Z 0%Z
              (Some ["http://www.w3.org/2000/01/rdf-schema#label"]) [] None)
    as [_ [_ [_ [Hid Hterm]]]].
  split; [exact (proj1 (Hid eq_refl)) | exact (Hterm eq_refl ")")].
Defined.

(** C9 does not hold as stated: nothing is escaped.  [get_dataset_label]
    writes the identifier [x" || "1" = "1] into its query as it is; the
    literal that opens at the template's quote then ends after [x], and the
    rest of the identifier is read as query text.  The same text given as
    search term reaches the literal of the [text:query] block with its
    double quotes, only its spaces replaced; written between double quotes
    it ends after [x] too. *)
Lemma identifier_breaks_out_of_quotes :
  queries_sent
    (get_dataset_label "http://www.w3.org/ns/dcat#" "http://purl.org/dc/terms/"
       "http://www.w3.org/2001/XMLSchema#" unit (fun _ _ => Success tt)
       breaking_identifier)
  = [label_before "http://www.w3.org/ns/dcat#" "http://purl.org/dc/terms/"
       "http://www.w3.org/2001/XMLSchema#"
     ++ dq ++ breaking_identifier ++ dq ++ label_after]
  /\ string_literal2 (dq ++ breaking_identifier ++ dq ++ label_after)
     = Some ("x", " || " ++ dq ++ "1" ++ dq ++ " = " ++ dq ++ "1" ++ dq ++ label_after)
  /\ ~ stays_quoted breaking_identifier label_after
  /\ option_map (SearchFts.search_terms unit)
       (match SearchFts.SearchQueryFusekiFTS unit "https://prez.dev/" breaking_identifier
                10 0 (Some ["http://www.w3.org/2000/01/rdf-schema#label"]) (Some []) None with
        | Ok q => Some q
        | Raise _ => None
        end)
     = Some ["x" ++ dq ++ "+||+" ++ dq ++ "1" ++ dq ++ "+=+" ++ dq ++ "1"]
  /\ string_literal2
       (dq ++ ("x" ++ dq ++ "+||+" ++ dq ++ "1" ++ dq ++ "+=+" ++ dq ++ "1") ++ dq)
     = Some ("x", "+||+" ++ dq ++ "1" ++ dq ++ "+=+" ++ dq ++ "1" ++ dq)
  /\ ~ stays_quoted ("x" ++ dq ++ "+||+" ++ dq ++ "1" ++ dq ++ "+=+" ++ dq ++ "1") "".
Proof.
  split; [apply dataset_label_query|].
  split; [reflexivity|].
  split; [intros [b H]; vm_compute in H; discriminate H|].
  split; [reflexivity|].
  split; [reflexivity|].
  intros [b H]. vm_compute in H. discriminate H.
Qed.

End InterpolationFacts.

(** ** Memoization *)

Module CacheFacts.

Import Py SparqlNew Shapes.
Local Open Scope string_scope.

Lemma node_eqb_refl (n : Node) : node_eqb n n = true.
Proof. destruct n; simpl; apply String.eqb_refl. Qed.

Lemma key_eqb_refl (k : Key) : key_eqb k k = true.
Proof.
  destruct k as [[u c g l] p]. unfold key_eqb, item_eqb. cbn.
  rewrite !node_eqb_refl, !String.eqb_refl.
  destruct u; cbn; [now rewrite String.eqb_refl | reflexivity].
Qed.

(** *** The cache as a bounded list *)

Section Lru.

Context {V : Type}.

Local Abbreviation find := (LruCache.find key_eqb).
Local Abbreviation remove := (LruCache.remove key_eqb).

Lemma find_touch (k : Key) (v : V) (c : LruCache.t Key V) :
  find k (LruCache.entries (LruCache.touch key_eqb k v c)) = Some v.
Proof. cbn. now rewrite key_eqb_refl. Qed.

Lemma find_store (maxsize : nat) (k : Key) (v : V) (c : LruCache.t Key V) :
  find k (LruCache.entries c) = None ->
  find k (LruCache.entries (LruCache.store key_eqb maxsize k v c)) = Some v.
Proof.
  intros H. unfold LruCache.store. rewrite H.
  destruct (Nat.leb maxsize _); cbn; now rewrite key_eqb_refl.
Qed.

Lemma length_remove (k : Key) (l : list (Key * V)) (v : V) :
  find k l = Some v -> S (List.length (remove k l)) = List.length l.
Proof.
  induction l as [|[k' v'] l IH]; simpl; [discriminate|].
  destruct (key_eqb k k'); [reflexivity|].
  intros H. simpl. now rewrite IH.
Qed.

Lemma length_removelast_pred {A} (l : list A) : List.length (removelast l) = List.length l - 1.
Proof. induction l as [|a [|b l] IH]; simpl in *; auto. rewrite IH. lia. Qed.

(** Neither a hit nor a miss takes the cache beyond its capacity. *)
Lemma touch_within (maxsize : nat) (k : Key) (v : V) (c : LruCache.t Key V) :
  find k (LruCache.entries c) = Some v ->
  List.length (LruCache.entries c) <= maxsize ->
  List.length (LruCache.entries (LruCache.touch key_eqb k v c)) <= maxsize.
Proof. intros Hf Hl. cbn. now rewrite (length_remove k _ v Hf). Qed.

Lemma store_within (maxsize : nat) (k : Key) (v : V) (c : LruCache.t Key V) :
  1 <= maxsize ->
  List.length (LruCache.entries c) <= maxsize ->
  List.length (LruCache.entries (LruCache.store key_eqb maxsize k v c)) <= maxsize.
Proof.
  intros Hm Hl. unfold LruCache.store.
  destruct (find k (LruCache.entries c)); [exact Hl|].
  destruct (Nat.leb_spec maxsize (List.length (LruCache.entries c))); cbn.
  - rewrite length_removelast_pred. lia.
  - lia.
Qed.

(** On a full cache a miss drops the entry used least recently, the last
    of the list. *)
Lemma store_evicts_last (maxsize : nat) (k : Key) (v : V) (c : LruCache.t Key V) :
  find k (LruCache.entries c) = None ->
  maxsize <= List.length (LruCache.entries c) ->
  LruCache.entries (LruCache.store key_eqb maxsize k v c)
  = (k, v) :: removelast (LruCache.entries c).
Proof.
  intros Hf Hl. unfold LruCache.store. rewrite Hf.
  apply Nat.leb_le in Hl. now rewrite Hl.
Qed.

End Lru.

Lemma reader_ret {A} (a : A) : reader (ret a).
Proof. intros w. cbn. repeat split; auto. Qed.

Lemma reader_lift {A} (r : Res A) : reader (lift r).
Proof. intros w. cbn. repeat split; auto. Qed.

Lemma reader_pg {A} (f : Graph -> A) : reader (pg f).
Proof. intros w. cbn. repeat split; auto. intros w' E. now rewrite E. Qed.

Lemma reader_pg_res {A} (f : Graph -> Res A) : reader (pg_res f).
Proof. intros w. cbn. repeat split; auto. intros w' E. now rewrite E. Qed.

Lemma reader_bind {A B} (c : M A) (k : A -> M B) :
  reader c -> (forall a, reader (k a)) -> reader (bind c k).
Proof.
  intros Hc Hk w. unfold bind.
  destruct (Hc w) as [Hg [Hi [Hn Hf]]].
  destruct (c w) as [[a|e] w1] eqn:E; cbn [fst snd] in *.
  - destruct (Hk a w1) as [Hg1 [Hi1 [Hn1 Hf1]]].
    repeat split; try congruence; try lia.
    intros w' Ew. specialize (Hf w' Ew).
    destruct (Hc w') as [Hg' _].
    destruct (c w') as [[a'|e'] w1']; cbn [fst snd] in *; [|discriminate].
    injection Hf as ->. apply Hf1. congruence.
  - repeat split; auto.
    intros w' Ew. specialize (Hf w' Ew).
    destruct (c w') as [[a'|e'] w1']; cbn [fst snd] in *; [discriminate|].
    now injection Hf as ->.
Qed.

Lemma reader_mapM {A B} (f : A -> M B) (l : list A) :
  (forall a, reader (f a)) -> reader (mapM f l).
Proof.
  intros Hf. induction l as [|x l IH]; cbn [mapM].
  - apply reader_ret.
  - apply reader_bind; [apply Hf|]. intros y.
    apply reader_bind; [apply IH|]. intros ys. apply reader_ret.
Qed.

Ltac reader_steps :=
  repeat first
    [ apply reader_ret | apply reader_lift | apply reader_pg | apply reader_pg_res
    | apply reader_mapM; intros
    | apply reader_bind; [|intros]
    | match goal with
      | |- reader (if ?b then _ else _) => destruct b
      | |- reader (let '(_, _) := ?p in _) => destruct p
      end ].

Lemma reader_shape_bns (cls profile : Node) :
  reader (get_relevant_shape_bns_for_profile cls profile).
Proof. unfold get_relevant_shape_bns_for_profile. reader_steps. Qed.

Lemma reader_item_predicates (profile cls : Node) :
  reader (get_item_predicates profile cls).
Proof.
  unfold get_item_predicates.
  apply reader_bind; [apply reader_shape_bns|]. intros bns. reader_steps.
Qed.

Lemma reader_listing_predicates (profile cls : Node) :
  reader (get_listing_predicates profile cls).
Proof.
  unfold get_listing_predicates.
  apply reader_bind; [apply reader_shape_bns|]. intros bns. reader_steps.
Qed.

Lemma reader_item_construct_body (py_index : Node -> Res Z) (item : Item) (profile : Node) :
  reader (generate_item_construct_body py_index item profile).
Proof.
  unfold generate_item_construct_body.
  apply reader_bind; [apply reader_item_predicates|].
  intros [[[inc exc] inv] sq]. reader_steps.
Qed.

Lemma bind_assoc {A B C} (c : M A) (k1 : A -> M B) (k2 : B -> M C) (w : World) :
  bind (bind c k1) k2 w = bind c (fun x => bind (k1 x) k2) w.
Proof. unfold bind. destruct (c w) as [[a|e] w1]; reflexivity. Qed.

Lemma pg_first {A B} (f : Graph -> A) (k : A -> M B) (w : World) :
  (forall a, reader (k a)) ->
  graph_calls w < graph_calls (snd (bind (pg f) k w)).
Proof.
  intros Hk. unfold bind, pg.
  destruct (Hk (f (profiles_graph_cache w))
              (mkWorld (profiles_graph_cache w) (S (graph_calls w)) (item_construct_cache w)))
    as [_ [_ [Hn _]]].
  cbn in Hn. lia.
Qed.

(** Every resolution queries the graph at least once. *)
Lemma item_predicates_query_graph (profile cls : Node) (w : World) :
  graph_calls w < graph_calls (snd (get_item_predicates profile cls w)).
Proof.
  unfold get_item_predicates, get_relevant_shape_bns_for_profile.
  rewrite bind_assoc. apply pg_first. intros shape_bns.
  apply reader_bind; [reader_steps|]. intros bns. reader_steps.
Qed.

(** After a call that returned, the cache holds the result under the
    call's arguments, and the graph is the one the call started with. *)
Lemma item_construct_cached (py_index : Node -> Res Z) (item : Item) (profile : Node)
  (w w1 : World) (q : string) :
  generate_item_construct py_index item profile w = (Ok q, w1) ->
  LruCache.find key_eqb (item, profile) (LruCache.entries (item_construct_cache w1)) = Some q
  /\ profiles_graph_cache w1 = profiles_graph_cache w
  /\ (List.length (LruCache.entries (item_construct_cache w)) <= 128 ->
      List.length (LruCache.entries (item_construct_cache w1)) <= 128).
Proof.
  unfold generate_item_construct, lru_cache. cbn [fst snd].
  destruct (LruCache.find key_eqb (item, profile)
              (LruCache.entries (item_construct_cache w))) as [v|] eqn:Hf.
  - intros [= <- <-]. cbn [item_construct_cache profiles_graph_cache].
    split; [apply find_touch|]. split; [reflexivity|].
    now apply touch_within.
  - destruct (reader_item_construct_body py_index item profile w) as [Hg [Hi _]].
    destruct (generate_item_construct_body py_index item profile w) as [[v|e] w'];
      cbn [snd] in *; [|discriminate].
    intros [= <- <-]. cbn [item_construct_cache profiles_graph_cache].
    rewrite Hi. split; [now apply find_store|]. split; [exact Hg|].
    apply store_within. lia.
Qed.




End CacheFacts.

(** ** RDF lists *)

Module RdfFacts.

Import Shapes.

Lemma opt_node_eqb_refl (a : option Node) : opt_node_eqb a a = true.
Proof. destruct a as [n|]; simpl; auto. destruct n; simpl; apply String.eqb_refl. Qed.

Lemma not_in_chain (x : option Node) (chain : list (option Node)) :
  existsb (opt_node_eqb x) chain = false -> ~ In x chain.
Proof.
  intros H Hin. assert (E : existsb (opt_node_eqb x) chain = true).
  { apply existsb_exists. exists x. split; [exact Hin | apply opt_node_eqb_refl]. }
  congruence.
Qed.

Lemma value_in_cells (g : Graph) (s p : Node) : In (value g s p) (cells g).
Proof.
  unfold value, objects, triples, cells.
  destruct (map obj (filter _ g)) as [|o l] eqn:E; [now left|].
  right. assert (Ho : In o (map obj (filter
           (fun t => pos_matches (Some s) (subj t) && pos_matches (Some p) (pred t)
                     && pos_matches None (obj t)) g))).
  { rewrite E. now left. }
  apply in_map_iff in Ho as [t [<- Ht]]. apply filter_In in Ht as [Ht _].
  apply in_map_iff. now exists t.
Qed.

Lemma items_loop_fuel (fuel : nat) (g : Graph) : forall cell extra head,
  NoDup extra -> incl extra (cells g) ->
  2 + List.length g <= fuel + List.length extra ->
  items_loop fuel g cell (extra ++ [Some head]) <> Raise out_of_fuel.
Proof.
  induction fuel as [|fuel IH]; intros cell extra head Hnd Hin Hlen.
  - exfalso. apply NoDup_incl_length in Hin; [|exact Hnd].
    unfold cells in Hin. cbn [List.length] in Hin. rewrite length_map in Hin. lia.
  - cbn [items_loop]. destruct cell as [c|]; [|discriminate].
    destruct (truthy_node c); [|discriminate].
    destruct (existsb _ _) eqn:Ex; [discriminate|].
    apply not_in_chain in Ex.
    specialize (IH (value g c RDF_rest) (value g c RDF_rest :: extra) head).
    cbn [app] in IH.
    destruct (items_loop fuel g (value g c RDF_rest)
                (value g c RDF_rest :: extra ++ [Some head])) as [rest|e];
      [discriminate|].
    intros E. apply IH; [| | | congruence].
    + constructor; [|exact Hnd]. intros H. apply Ex. apply in_or_app. now left.
    + intros x [<-|Hx]; [apply value_in_cells | now apply Hin].
    + cbn [List.length]. lia.
Qed.

(** Reading an RDF list never runs out of fuel: it returns the items, or
    raises the [ValueError] of a list that loops. *)
Lemma items_total (g : Graph) (head : Node) :
  items g head <> Raise out_of_fuel.
Proof.
  unfold items. apply (items_loop_fuel _ g (Some head) [] head).
  - constructor.
  - intros x [].
  - cbn [List.length]. lia.
Qed.

End RdfFacts.

(** ** Predicate resolution against the profiles graph *)

Module ResolutionFacts.

Import Py SparqlNew Shapes Declared Examples.

Lemma node_eqb_true (a b : Node) : node_eqb a b = true <-> a = b.
Proof.
  split.
  - destruct a, b; simpl; try discriminate; intros H; apply String.eqb_eq in H; congruence.
  - intros <-. destruct a; simpl; apply String.eqb_refl.
Qed.

Lemma pos_matches_true (pat : option Node) (n : Node) :
  pos_matches pat n = true <-> pat = None \/ pat = Some n.
Proof.
  destruct pat as [m|]; simpl.
  - rewrite node_eqb_true. split; [intros <-; now right | intros [H|H]; congruence].
  - split; auto.
Qed.

Lemma in_graph_triples (g : Graph) (s p o : option Node) (t : Triple) :
  In t (Rdf.triples g s p o)
  <-> In t g /\ (s = None \/ s = Some (subj t)) /\ (p = None \/ p = Some (pred t))
      /\ (o = None \/ o = Some (obj t)).
Proof.
  unfold Rdf.triples. rewrite filter_In, !andb_true_iff, !pos_matches_true. tauto.
Qed.

Lemma in_objects (g : Graph) (s p o : Node) :
  In o (objects g s p) <-> In (s, p, o) g.
Proof.
  unfold objects. rewrite in_map_iff. split.
  - intros [[[s' p'] o'] [E H]]. apply in_graph_triples in H as [H [Hs [Hp _]]].
    unfold subj, pred, obj in *. cbn in *. subst o'.
    destruct Hs as [Hs|Hs]; [discriminate|]. destruct Hp as [Hp|Hp]; [discriminate|].
    injection Hs as ->. injection Hp as ->. exact H.
  - intros H. exists (s, p, o). split; [reflexivity|].
    apply in_graph_triples. unfold subj, pred, obj. cbn. auto.
Qed.

Lemma in_triples_choices (g : Graph) (subjects : list Node) (p : Node) (o : option Node)
  (t : Triple) :
  subjects <> [] ->
  In t (triples_choices g subjects p o)
  <-> In t g /\ In (subj t) subjects /\ pred t = p /\ (o = None \/ o = Some (obj t)).
Proof.
  intros Hne. unfold triples_choices.
  destruct subjects as [|s0 rest]; [congruence|].
  rewrite in_flat_map. split.
  - intros [s [Hs H]]. apply in_graph_triples in H as [H [Hs' [Hp Ho]]].
    destruct Hs' as [Hs'|Hs']; [discriminate|]. destruct Hp as [Hp|Hp]; [discriminate|].
    injection Hs' as ->. injection Hp as ->. auto.
  - intros [H [Hs [Hp Ho]]]. exists (subj t). split; [exact Hs|].
    apply in_graph_triples. subst p. auto.
Qed.

(** The values that a non-empty list of shapes has for a property. *)
Lemma in_shape_values (g : Graph) (bns : list Node) (p o : Node) :
  bns <> [] ->
  In o (map obj (triples_choices g bns p None)) <-> exists s, In s bns /\ In (s, p, o) g.
Proof.
  intros Hne. rewrite in_map_iff. split.
  - intros [[[s p'] o'] [E H]]. apply (in_triples_choices g bns p None _ Hne) in H.
    cbn in *. destruct H as [H [Hs [Hp _]]]. subst. now exists s.
  - intros [s [Hs H]]. exists (s, p, o). split; [reflexivity|].
    apply (in_triples_choices g bns p None _ Hne). cbn. auto.
Qed.

(** The shapes that resolution keeps are the node shapes of the profile
    that target the class. *)
Lemma in_relevant_shapes (g : Graph) (profile cls s : Node) :
  objects g profile (ALTREXT "hasNodeShape") <> [] ->
  In s (map subj (triples_choices g (objects g profile (ALTREXT "hasNodeShape"))
                    (SH "targetClass") (Some cls)))
  <-> shape_for g profile cls s.
Proof.
  intros Hne. unfold shape_for. rewrite in_map_iff. split.
  - intros [[[s' p'] o'] [E H]]. apply (in_triples_choices g _ _ _ _ Hne) in H.
    cbn in *. destruct H as [H [Hs [Hp Ho]]]. subst.
    destruct Ho as [Ho|Ho]; [discriminate|]. injection Ho as ->.
    apply in_objects in Hs. auto.
  - intros [H1 H2]. exists (s, SH "targetClass", cls). split; [reflexivity|].
    apply (in_triples_choices g _ _ _ _ Hne). cbn.
    rewrite in_objects. auto.
Qed.

Lemma truthy_list_nonempty {A} (l : list A) : truthy_list l = true -> l <> [].
Proof. destruct l; [discriminate | discriminate]. Qed.

Lemma not_truthy_list {A} (l : list A) : truthy_list l = false -> l = [].
Proof. destruct l; [reflexivity | discriminate]. Qed.

(** What [get_relevant_shape_bns_for_profile] returns. *)
Lemma relevant_shapes_result (cls profile : Node) (w : World) :
  exists r,
    fst (get_relevant_shape_bns_for_profile cls profile w) = Ok r
    /\ profiles_graph_cache (snd (get_relevant_shape_bns_for_profile cls profile w))
       = profiles_graph_cache w
    /\ (forall s, In s (opt_list r) <-> shape_for (profiles_graph_cache w) profile cls s).
Proof.
  unfold get_relevant_shape_bns_for_profile, bind, pg, ret. cbn.
  destruct (truthy_list (objects (profiles_graph_cache w) profile (ALTREXT "hasNodeShape")))
    eqn:E; cbn.
  - eexists. split; [reflexivity|]. split; [reflexivity|]. intros s. cbn.
    apply in_relevant_shapes. now apply truthy_list_nonempty.
  - eexists. split; [reflexivity|]. split; [reflexivity|]. intros s. cbn.
    apply not_truthy_list in E. split; [contradiction|].
    intros [H _]. apply in_objects in H. rewrite E in H. contradiction.
Qed.

Lemma truthy_opt_list_nonempty {A} (r : option (list A)) :
  truthy_opt_list r = true -> opt_list r <> [].
Proof. destruct r as [[|x l]|]; cbn; discriminate. Qed.

Lemma not_truthy_opt_list {A} (r : option (list A)) :
  truthy_opt_list r = false -> opt_list r = [].
Proof. destruct r as [[|x l]|]; cbn; try discriminate; reflexivity. Qed.

Lemma declared_values (g : Graph) (profile cls p o : Node) (bns : list Node) :
  bns <> [] ->
  (forall s, In s bns <-> shape_for g profile cls s) ->
  In o (map obj (triples_choices g bns p None)) <-> declared g profile cls p o.
Proof.
  intros Hne Hr. rewrite (in_shape_values g bns p o Hne). unfold declared.
  split; intros [s [H1 H2]]; exists s; split; auto; now apply Hr.
Qed.

Lemma nothing_declared (g : Graph) (profile cls p o : Node) :
  (forall s, In s [] <-> shape_for g profile cls s) ->
  In o [] <-> declared g profile cls p o.
Proof.
  intros Hr. split; [contradiction|]. intros [s [H _]]. now apply Hr in H.
Qed.

(** The four sets of a listing resolution, read against the graph. *)
Lemma listing_predicates_sets (profile cls : Node) (w : World) :
  exists ic ip oc op,
    fst (get_listing_predicates profile cls w) = Ok (ic, ip, oc, op)
    /\ forall o,
         let g := profiles_graph_cache w in
         (In o ic <-> declared g profile cls (ALTREXT "inboundChildren") o)
         /\ (In o ip <-> declared g profile cls (ALTREXT "inboundParents") o)
         /\ (In o oc <-> declared g profile cls (ALTREXT "outboundChildren") o)
         /\ (In o op <-> declared g profile cls (ALTREXT "outboundParents") o).
Proof.
  unfold get_listing_predicates, bind.
  destruct (relevant_shapes_result cls profile w) as [r [E [Hg Hr]]].
  destruct (get_relevant_shape_bns_for_profile cls profile w) as [[r'|e] w1];
    cbn [fst snd] in *; [|discriminate].
  injection E as ->.
  destruct (truthy_opt_list r) eqn:T; cbn [negb].
  - apply truthy_opt_list_nonempty in T.
    unfold pg, ret. cbn. rewrite Hg.
    do 4 eexists. split; [reflexivity|]. intros o.
    split; [|split; [|split]]; apply (declared_values _ profile cls _ o _ T Hr).
  - apply not_truthy_opt_list in T. rewrite T in Hr.
    unfold ret. cbn.
    do 4 eexists. split; [reflexivity|]. intros o.
    split; [|split; [|split]]; apply (nothing_declared _ profile cls _ o Hr).
Qed.


(** X1. Listing-predicate resolution always returns, and each of the four
    sets it returns holds exactly the values that the node shapes of the
    profile targeting the class have for its annotation property: a
    predicate is in the set if and only if some such shape declares it. *)
Theorem listing_predicates_declared (profile cls : Node) (w : World) :
  exists ic ip oc op,
    fst (get_listing_predicates profile cls w) = Ok (ic, ip, oc, op)
    /\ forall o,
         let g := profiles_graph_cache w in
         (In o ic <-> declared g profile cls (ALTREXT "inboundChildren") o)
         /\ (In o ip <-> declared g profile cls (ALTREXT "inboundParents") o)
         /\ (In o oc <-> declared g profile cls (ALTREXT "outboundChildren") o)
         /\ (In o op <-> declared g profile cls (ALTREXT "outboundParents") o).
Proof.
  destruct (listing_predicates_sets profile cls w) as [ic [ip [oc [op [E H]]]]].
  exists ic, ip, oc, op. split; [exact E|]. intros o g. apply (H o).
Qed.

Lemma declared_same (g g' : Graph) (profile cls p o : Node) :
  same_triples g g' -> declared g profile cls p o <-> declared g' profile cls p o.
Proof.
  intros H. unfold declared, shape_for.
  split; intros [s [[H1 H2] H3]]; exists s; repeat split; now apply H.
Qed.

(** X2. The order in which the profiles graph stores its triples does not
    matter to listing resolution: on two graphs that hold the same triples
    the four sets returned have the same members. *)
Theorem listing_predicates_order_independent (profile cls : Node) (w w' : World) :
  same_triples (profiles_graph_cache w) (profiles_graph_cache w') ->
  exists ic ip oc op ic' ip' oc' op',
    fst (get_listing_predicates profile cls w) = Ok (ic, ip, oc, op)
    /\ fst (get_listing_predicates profile cls w') = Ok (ic', ip', oc', op')
    /\ forall o,
         (In o ic <-> In o ic') /\ (In o ip <-> In o ip')
         /\ (In o oc <-> In o oc') /\ (In o op <-> In o op').
Proof.
  intros Hs.
  destruct (listing_predicates_sets profile cls w) as [ic [ip [oc [op [E H]]]]].
  destruct (listing_predicates_sets profile cls w') as [ic' [ip' [oc' [op' [E' H']]]]].
  exists ic, ip, oc, op, ic', ip', oc', op'.
  split; [exact E|]. split; [exact E'|]. intros o.
  destruct (H o) as [A [B [C D]]]. destruct (H' o) as [A' [B' [C' D']]].
  cbv zeta in *.
  rewrite A, B, C, D, A', B', C', D'.
  split; [|split; [|split]]; now apply declared_same.
Qed.

(** The stored order reversed: the same members. *)
Lemma listing_predicates_order_independent_example :
  exists ic ip oc op ic' ip' oc' op',
    fst (get_listing_predicates ex_profile ex_class (mkWorld ex_listing_graph 0 LruCache.empty))
    = Ok (ic, ip, oc, op)
    /\ fst (get_listing_predicates ex_profile ex_class
              (mkWorld (rev ex_listing_graph) 0 LruCache.empty))
       = Ok (ic', ip', oc', op')
    /\ forall o,
         (In o ic <-> In o ic') /\ (In o ip <-> In o ip')
         /\ (In o oc <-> In o oc') /\ (In o op <-> In o op').
Proof.
  apply (listing_predicates_order_independent ex_profile ex_class
           (mkWorld ex_listing_graph 0 LruCache.empty)
           (mkWorld (rev ex_listing_graph) 0 LruCache.empty)).
  intros t. apply in_rev.
Defined.

Lemma mapM_items (l : list Node) : forall w ys w',
  mapM (fun i => pg_res (fun g => items g i)) l w = (Ok ys, w') ->
  Forall2 (fun n c => items (profiles_graph_cache w) n = Ok c) l ys.
Proof.
  induction l as [|x l IH]; intros w ys w' H; cbn [mapM] in H.
  - unfold ret in H. injection H as <- _. constructor.
  - unfold bind at 1 in H. unfold pg_res at 1 in H.
    destruct (items (profiles_graph_cache w) x) as [c|e] eqn:Ex; [|discriminate].
    unfold bind at 1 in H.
    match type of H with
    | context [mapM ?f l ?w1] => destruct (mapM f l w1) as [[cs|e] w2] eqn:El
    end; [|discriminate].
    unfold ret in H. injection H as <- _.
    constructor; [exact Ex|]. apply (IH _ _ _ El).
Qed.

Lemma mapM_items_raise (l : list Node) : forall w e w',
  mapM (fun i => pg_res (fun g => items g i)) l w = (Raise e, w') ->
  exists n, In n l /\ items (profiles_graph_cache w) n = Raise e.
Proof.
  induction l as [|x l IH]; intros w e w' H; cbn [mapM] in H.
  - discriminate.
  - unfold bind at 1 in H. unfold pg_res at 1 in H.
    destruct (items (profiles_graph_cache w) x) as [c|e0] eqn:Ex.
    + unfold bind at 1 in H.
      match type of H with
      | context [mapM ?f l ?w1] => destruct (mapM f l w1) as [[cs|e1] w2] eqn:El
      end; [discriminate|].
      injection H as <- _. destruct (IH _ _ _ El) as [n [Hn Hi]].
      exists n. split; [now right | exact Hi].
    + injection H as <- _. exists x. split; [now left | exact Ex].
Qed.

(** The cases of item-predicate resolution: no shape for the class; shapes
    whose sequence paths could all be read; a sequence path that could not
    be read. *)
Lemma item_predicates_cases (profile cls : Node) (w : World) :
  let g := profiles_graph_cache w in
  match fst (get_item_predicates profile cls w) with
  | Ok (inc, exc, inv, sq) =>
      ((forall s, ~ shape_for g profile cls s)
       /\ inc = None /\ exc = ExcludesNone /\ inv = None /\ sq = None)
      \/ (exists bns chains,
            bns <> [] /\ (forall s, In s bns <-> shape_for g profile cls s)
            /\ inc = Some (map obj (triples_choices g bns (SH "path") None))
            /\ exc = ExcludesEllipsis
            /\ inv = Some (map obj (triples_choices g bns (SH "inversePath") None))
            /\ sq = Some chains
            /\ Forall2 (fun n c => items g n = Ok c)
                 (map obj (triples_choices g bns (SH "sequencePath") None)) chains)
  | Raise e =>
      exists bns n,
        bns <> [] /\ (forall s, In s bns <-> shape_for g profile cls s)
        /\ In n (map obj (triples_choices g bns (SH "sequencePath") None))
        /\ items g n = Raise e
  end.
Proof.
  unfold get_item_predicates, bind.
  destruct (relevant_shapes_result cls profile w) as [r [E [Hg Hr]]].
  destruct (get_relevant_shape_bns_for_profile cls profile w) as [[r'|e] w1];
    cbn [fst snd] in *; [|discriminate].
  injection E as ->. cbv zeta.
  destruct (truthy_opt_list r) eqn:T; cbn [negb].
  - apply truthy_opt_list_nonempty in T.
    unfold pg at 1 2 3. cbn [fst snd profiles_graph_cache].
    match goal with
    | |- context [mapM ?f ?l ?w1] => destruct (mapM f l w1) as [[cs|e] w2] eqn:El
    end.
    + unfold ret. cbn [fst].
      apply mapM_items in El. cbn [profiles_graph_cache] in El. rewrite Hg in *.
      right. exists (opt_list r), cs. repeat split; auto; now apply Hr.
    + cbn [fst].
      apply mapM_items_raise in El as [n [Hn Hi]].
      cbn [profiles_graph_cache] in Hi. rewrite Hg in *.
      exists (opt_list r), n. repeat split; auto; now apply Hr.
  - apply not_truthy_opt_list in T. rewrite T in Hr.
    unfold ret. cbn [fst]. left. repeat split; auto.
    intros s Hs. now apply Hr in Hs.
Qed.

(** X3. When item-predicate resolution returns: if no node shape of the
    profile targets the class, all four values are [None]; otherwise the
    included and the inverse predicates are exactly the [sh:path] and
    [sh:inversePath] values those shapes declare, the excluded predicates
    are the placeholder [...], and the sequence paths are the RDF lists
    under the declared [sh:sequencePath] nodes, read in order. *)
Theorem item_predicates_declared (profile cls : Node) (w : World)
  (inc : option (list Node)) (exc : Excludes) (inv : option (list Node))
  (sq : option (list (list Node))) :
  fst (get_item_predicates profile cls w) = Ok (inc, exc, inv, sq) ->
  let g := profiles_graph_cache w in
  ((exists s, shape_for g profile cls s) ->
   exists includes inverses nodes chains,
     inc = Some includes /\ exc = ExcludesEllipsis /\ inv = Some inverses
     /\ sq = Some chains
     /\ (forall o, In o includes <-> declared g profile cls (SH "path") o)
     /\ (forall o, In o inverses <-> declared g profile cls (SH "inversePath") o)
     /\ (forall o, In o nodes <-> declared g profile cls (SH "sequencePath") o)
     /\ Forall2 (fun n c => items g n = Ok c) nodes chains)
  /\ ((~ exists s, shape_for g profile cls s) ->
      inc = None /\ exc = ExcludesNone /\ inv = None /\ sq = None).
Proof.
  intros E g. assert (H := item_predicates_cases profile cls w).
  cbv zeta in H. rewrite E in H. subst g.
  destruct H as [[Hn [-> [-> [-> ->]]]] | [bns [chains [Hne [Hr [-> [-> [-> [-> HF]]]]]]]]].
  - split; [|auto]. intros [s Hs]. now apply Hn in Hs.
  - split.
    + intros _. do 4 eexists.
      split; [reflexivity|]. split; [reflexivity|]. split; [reflexivity|].
      split; [reflexivity|].
      split; [intros o; apply (declared_values _ profile cls _ o _ Hne Hr)|].
      split; [intros o; apply (declared_values _ profile cls _ o _ Hne Hr)|].
      split; [intros o; apply (declared_values _ profile cls _ o _ Hne Hr)|].
      exact HF.
    + intros Hn. exfalso. apply Hn.
      destruct bns as [|s l]; [congruence|]. exists s. apply Hr. now left.
Qed.

(** The profile of the example: one included predicate, no inverse one, one
    sequence path of two predicates. *)
Lemma item_predicates_declared_example :
  exists includes inverses nodes chains,
    Some [ex_title] = Some includes /\ ExcludesEllipsis = ExcludesEllipsis
    /\ Some [] = Some inverses /\ Some [[ex_p1; ex_p2]] = Some chains
    /\ (forall o, In o includes <-> declared ex_graph ex_profile ex_class (SH "path") o)
    /\ (forall o, In o inverses <-> declared ex_graph ex_profile ex_class (SH "inversePath") o)
    /\ (forall o, In o nodes <-> declared ex_graph ex_profile ex_class (SH "sequencePath") o)
    /\ Forall2 (fun n c => items ex_graph n = Ok c) nodes chains.
Proof.
  apply (item_predicates_declared ex_profile ex_class ex_world
           (Some [ex_title]) ExcludesEllipsis (Some []) (Some [[ex_p1; ex_p2]])).
  - vm_compute. reflexivity.
  - exists (BNode "shape"). split; [left; reflexivity | right; left; reflexivity].
Defined.

Lemma triples_choices_incl (g : Graph) (l : list Node) (p : Node) (o : option Node)
  (t : Triple) : In t (triples_choices g l p o) -> In t g.
Proof.
  unfold triples_choices. destruct l as [|s0 rest].
  - intros H. now apply in_graph_triples in H.
  - intros H. apply in_flat_map in H as [s [_ H]]. now apply in_graph_triples in H.
Qed.

Lemma shape_values_from_graph (g : Graph) (l : list Node) (p o : Node) :
  In o (map obj (triples_choices g l p None)) -> from_graph g o.
Proof.
  intros H. apply in_map_iff in H as [t [<- H]]. exists t.
  split; [now apply triples_choices_incl in H | reflexivity].
Qed.

Lemma value_from_graph (g : Graph) (s p o : Node) : value g s p = Some o -> from_graph g o.
Proof.
  intros H. assert (Hc := RdfFacts.value_in_cells g s p). rewrite H in Hc.
  destruct Hc as [Hc|Hc]; [discriminate|].
  apply in_map_iff in Hc as [t [[= <-] Ht]]. now exists t.
Qed.

Lemma items_loop_from_graph (fuel : nat) (g : Graph) : forall cell chain l,
  items_loop fuel g cell chain = Ok l -> Forall (from_graph g) l.
Proof.
  induction fuel as [|fuel IH]; intros cell chain l H; cbn [items_loop] in H; [discriminate|].
  destruct cell as [c|]; [|injection H as <-; constructor].
  destruct (truthy_node c); [|injection H as <-; constructor].
  destruct (existsb _ _); [discriminate|].
  destruct (items_loop fuel g (value g c RDF_rest) (value g c RDF_rest :: chain))
    as [rest|e] eqn:E; [|discriminate].
  apply IH in E. injection H as <-.
  destruct (value g c RDF_first) as [i|] eqn:Ei; [|exact E].
  constructor; [now apply value_from_graph in Ei | exact E].
Qed.

Lemma items_loop_raises (fuel : nat) (g : Graph) : forall cell chain e,
  items_loop fuel g cell chain = Raise e ->
  e = ValueError "List contains a recursive rdf:rest reference" \/ e = out_of_fuel.
Proof.
  induction fuel as [|fuel IH]; intros cell chain e H; cbn [items_loop] in H.
  - injection H as <-. now right.
  - destruct cell as [c|]; [|discriminate].
    destruct (truthy_node c); [|discriminate].
    destruct (existsb _ _); [injection H as <-; now left|].
    destruct (items_loop fuel g (value g c RDF_rest) (value g c RDF_rest :: chain))
      as [rest|e0] eqn:E; [discriminate|].
    injection H as <-. now apply IH in E.
Qed.

(** The predicates of a resolved item were all read from the graph. *)
Lemma item_predicates_from_graph (profile cls : Node) (w : World)
  (inc : option (list Node)) (exc : Excludes) (inv : option (list Node))
  (sq : option (list (list Node))) :
  fst (get_item_predicates profile cls w) = Ok (inc, exc, inv, sq) ->
  let g := profiles_graph_cache w in
  Forall (from_graph g) (opt_list inc) /\ Forall (from_graph g) (opt_list inv)
  /\ Forall (Forall (from_graph g)) (opt_list sq).
Proof.
  intros E g. assert (H := item_predicates_cases profile cls w).
  cbv zeta in H. rewrite E in H. subst g.
  destruct H as [[Hn [-> [-> [-> ->]]]] | [bns [chains [Hne [Hr [-> [-> [-> [-> HF]]]]]]]]].
  - repeat split; constructor.
  - cbn [opt_list]. split; [|split].
    + apply Forall_forall. intros o. apply shape_values_from_graph.
    + apply Forall_forall. intros o. apply shape_values_from_graph.
    + clear E Hne Hr. revert HF.
      generalize (map obj (triples_choices (profiles_graph_cache w) bns (SH "sequencePath") None)).
      intros nodes HF. induction HF as [|n c ns cs Hn HF IH]; [constructor|].
      constructor; [|exact IH].
      unfold items in Hn. now apply items_loop_from_graph in Hn.
Qed.

Lemma listing_predicates_from_graph (profile cls : Node) (w : World) :
  exists ic ip oc op,
    fst (get_listing_predicates profile cls w) = Ok (ic, ip, oc, op)
    /\ Forall (from_graph (profiles_graph_cache w)) ic
    /\ Forall (from_graph (profiles_graph_cache w)) ip
    /\ Forall (from_graph (profiles_graph_cache w)) oc
    /\ Forall (from_graph (profiles_graph_cache w)) op.
Proof.
  destruct (listing_predicates_sets profile cls w) as [ic [ip [oc [op [E H]]]]].
  exists ic, ip, oc, op. split; [exact E|].
  assert (D : forall p o, declared (profiles_graph_cache w) profile cls p o ->
                          from_graph (profiles_graph_cache w) o).
  { intros p o [s [_ Hs]]. now exists (s, p, o). }
  repeat split; apply Forall_forall; intros o Ho; destruct (H o) as [A [B [C F]]];
    cbv zeta in *.
  - apply A in Ho. eapply D; eauto.
  - apply B in Ho. eapply D; eauto.
  - apply C in Ho. eapply D; eauto.
  - apply F in Ho. eapply D; eauto.
Qed.

(** X8. Item-predicate resolution raises in one case only: the RDF list of
    a sequence path that a shape for the class declares runs into one of
    its own cells again; the error is then the [ValueError] of the list
    reader. *)
Theorem item_predicates_raise_on_looping_list (profile cls : Node) (w : World) (e : Exn) :
  fst (get_item_predicates profile cls w) = Raise e ->
  let g := profiles_graph_cache w in
  e = ValueError "List contains a recursive rdf:rest reference"
  /\ exists n, declared g profile cls (SH "sequencePath") n /\ items g n = Raise e.
Proof.
  intros E g. assert (H := item_predicates_cases profile cls w).
  cbv zeta in H. rewrite E in H. subst g.
  destruct H as [bns [n [Hne [Hr [Hn Hi]]]]].
  split.
  - assert (Hi' := Hi). unfold items in Hi'. apply items_loop_raises in Hi' as [H|H];
      [exact H|]. subst e. now apply RdfFacts.items_total in Hi.
  - exists n. split; [|exact Hi].
    now apply (declared_values _ profile cls _ n _ Hne Hr).
Qed.

(** A sequence path whose list points back at its first cell. *)
Lemma item_predicates_raise_on_looping_list_example :
  ValueError "List contains a recursive rdf:rest reference"
  = ValueError "List contains a recursive rdf:rest reference"
  /\ exists n,
       declared ex_loop_graph ex_profile ex_class (SH "sequencePath") n
       /\ items ex_loop_graph n
          = Raise (ValueError "List contains a recursive rdf:rest reference").
Proof.
  apply (item_predicates_raise_on_looping_list ex_profile ex_class
           (mkWorld ex_loop_graph 0 LruCache.empty)).
  vm_compute. reflexivity.
Defined.

End ResolutionFacts.

(** ** Fragment builders, case by case *)

Module FragmentFacts.

Import Lex Py SparqlNew Shapes LexFacts.
Local Open Scope string_scope.

Lemma tokens_iri (p : Node) :
  clean_node p -> tokens ("<" ++ node_str p ++ ">") = ["<" ++ node_str p ++ ">"].
Proof.
  unfold clean_node, tokens. generalize (node_str p). intros s H.
  simpl. rewrite (scan_app_no_ws s) by exact H. simpl.
  rewrite ?append_assoc. reflexivity.
Qed.

Lemma tokens_iris (preds : list Node) :
  Forall clean_node preds ->
  flat_map tokens (map (fun p => "<" ++ node_str p ++ ">") preds)
  = map (fun p => "<" ++ node_str p ++ ">") preds.
Proof.
  induction 1 as [|p l Hp Hl IH]; [reflexivity|].
  cbn [map flat_map]. rewrite (tokens_iri p Hp), IH. reflexivity.
Qed.

Lemma tokens_values_block (preds : list Node) :
  Forall clean_node preds ->
  tokens (join nl (map (fun p => "<" ++ node_str p ++ ">") preds) ++ nl ++ "}")
  = List.app (map (fun p => "<" ++ node_str p ++ ">") preds) ["}"].
Proof.
  intros H. rewrite tokens_app_breaks by reflexivity.
  rewrite tokens_join_nl, (tokens_iris preds H). reflexivity.
Qed.

(** X4. The VALUES clauses of the item query enumerate the predicates they
    are given, one IRI each and in the order given, between [VALUES ?p{]
    (or [VALUES ?inbound_p{]) and [}]; for no predicate at all ([None] or
    the empty list) there is no clause. *)
Theorem values_clauses_enumerate (preds : list Node) :
  Forall clean_node preds ->
  let iris := map (fun p => "<" ++ node_str p ++ ">") preds in
  tokens (generate_include_predicates (Some preds))
  = match preds with
    | [] => []
    | _ => "VALUES" :: "?p{" :: List.app iris ["}"]
    end
  /\ tokens (generate_inverse_predicates (Some preds))
     = match preds with
       | [] => []
       | _ => "VALUES" :: "?inbound_p{" :: List.app iris ["}"]
       end
  /\ generate_include_predicates None = ""
  /\ generate_inverse_predicates None = "".
Proof.
  intros H iris. subst iris.
  destruct preds as [|p ps]; [repeat split|].
  unfold generate_include_predicates, generate_inverse_predicates.
  cbn [truthy_opt_list truthy_list opt_list].
  assert (Hb := tokens_values_block (p :: ps) H).
  revert Hb. unfold tokens.
  generalize (join nl (map (fun p0 => "<" ++ node_str p0 ++ ">") (p :: ps)) ++ nl ++ "}").
  generalize (map (fun p0 => "<" ++ node_str p0 ++ ">") (p :: ps)).
  intros iris text Hb. simpl. rewrite Hb. repeat split.
Qed.

(** Two predicates: the clause lists both. *)
Lemma values_clauses_enumerate_example :
  tokens (generate_include_predicates
            (Some [URIRef "http://purl.org/dc/terms/title";
                   URIRef "http://www.w3.org/2000/01/rdf-schema#label"]))
  = ["VALUES"; "?p{"; "<http://purl.org/dc/terms/title>";
     "<http://www.w3.org/2000/01/rdf-schema#label>"; "}"].
Proof.
  destruct (values_clauses_enumerate
              [URIRef "http://purl.org/dc/terms/title";
               URIRef "http://www.w3.org/2000/01/rdf-schema#label"]) as [H _].
  - repeat constructor.
  - exact H.
Defined.

Lemma sequence_chains_empty_chain (u : option string) (chains : list (list Node)) :
  forall acc,
    In [] chains ->
    sequence_chains u acc chains = Raise (IndexError "list index out of range").
Proof.
  induction chains as [|c cs IH]; intros acc H; [contradiction|].
  cbn [sequence_chains]. destruct c as [|p0 r]; [reflexivity|].
  cbn [sequence_chain]. apply IH. destruct H as [H|H]; [discriminate | exact H].
Qed.

(** X5. A sequence path without predicates makes the sequence builder
    raise [IndexError], wherever it stands among the paths and whatever the
    other paths are; no text is returned for the paths before it. *)
Theorem sequence_empty_chain_raises (u : option string) (chains : list (list Node)) :
  In [] chains ->
  generate_sequence_construct u (Some chains) = Raise (IndexError "list index out of range").
Proof.
  intros H. unfold generate_sequence_construct.
  destruct chains as [|c cs]; [contradiction|].
  cbn [truthy_opt_list truthy_list opt_list].
  now apply sequence_chains_empty_chain.
Qed.

(** An empty path after a path of one predicate. *)
Lemma sequence_empty_chain_raises_example :
  generate_sequence_construct (Some "http://example.org/item")
    (Some [[URIRef "http://example.org/p"]; []])
  = Raise (IndexError "list index out of range").
Proof.
  apply sequence_empty_chain_raises. right. left. reflexivity.
Defined.

(** X6. The link bindings of a listing query bind one variable for each
    non-empty predicate set, in the order inbound children, outbound
    children, inbound parents, outbound parents, named
    [?inbound_children_link], [?outbound_children_link],
    [?inbound_parent_link] and [?outbound_parent_link]; when all four sets
    are empty they bind [?outbound_general_link] instead, so the result is
    never empty. *)
Theorem listing_binds_variables (item : Item) (ic ip oc op : list Node) :
  no_ws (link_constructor item) = true ->
  filter is_var (tokens (generate_id_listing_binds item ic ip oc op))
  = List.app (if truthy_list ic then ["?inbound_children_link)"] else [])
      (List.app (if truthy_list oc then ["?outbound_children_link)"] else [])
         (List.app (if truthy_list ip then ["?inbound_parent_link)"] else [])
            (List.app (if truthy_list op then ["?outbound_parent_link)"] else [])
               (if truthy_list ic || truthy_list oc || truthy_list ip || truthy_list op
                then [] else ["?outbound_general_link)"]))))
  /\ truthy_str (generate_id_listing_binds item ic ip oc op) = true.
Proof.
  unfold generate_id_listing_binds, tokens.
  generalize (link_constructor item). intros lc H.
  destruct ic as [|i1 ic], ip as [|i2 ip], oc as [|i3 oc], op as [|i4 op];
    cbn [truthy_list orb negb truthy_str append];
    (split; [| reflexivity]);
    repeat first [ rewrite (scan_app_no_ws lc) by exact H
                 | progress rewrite append_assoc
                 | progress simpl ];
    reflexivity.
Qed.

(** Children in both directions: two links are bound. *)
Lemma listing_binds_variables_example :
  filter is_var
    (tokens (generate_id_listing_binds ex_item [ex_p1] [] [ex_p2] []))
  = ["?inbound_children_link)"; "?outbound_children_link)"].
Proof.
  destruct (listing_binds_variables ex_item [ex_p1] [] [ex_p2] []) as [H _].
  - reflexivity.
  - exact H.
Defined.

End FragmentFacts.

(** ** Listing queries *)

Module ListingFacts.

Import Lex Py SparqlNew Shapes LexFacts NegotiationFacts AssemblerFacts.
Local Open Scope string_scope.

Lemma str_int_negative (z : Z) : (z < 0)%Z -> exists digits, str_int z = "-" ++ digits.
Proof.
  destruct z as [|p|p]; try lia. intros _.
  unfold str_int. cbn. eexists. reflexivity.
Qed.

Lemma str_int_not_empty (z : Z) : str_int z <> "".
Proof.
  unfold str_int, NilZero.string_of_int, NilZero.string_of_uint.
  destruct (Z.to_int z) as [u|u]; destruct u; discriminate.
Qed.

Lemma tokens_window (n off : Z) :
  tokens ("    } " ++ ("LIMIT " ++ str_int n ++ " OFFSET " ++ str_int off) ++ nl ++ "    ")
  = ["}"; "LIMIT"; str_int n; "OFFSET"; str_int off].
Proof.
  unfold tokens.
  generalize (no_ws_str_int n) (no_ws_str_int off)
             (str_int_not_empty n) (str_int_not_empty off).
  generalize (str_int n) (str_int off). intros s1 s2 H1 H2 N1 N2.
  repeat first [ rewrite (scan_app_no_ws s1) by exact H1
               | rewrite (scan_app_no_ws s2) by exact H2
               | progress rewrite append_assoc
               | progress simpl ].
  destruct s1, s2; try congruence; reflexivity.
Qed.

(** X7. A listing query that is not the empty sentinel ends with its
    pagination window: for page [p] and page size [n] the closing brace is
    followed by [LIMIT n OFFSET (p - 1) * n], and by nothing when the page
    or the page size is missing.  Nothing rejects a page below 1: for
    [p <= 0] and [n > 0] the OFFSET written is a negative number. *)
Theorem listing_pagination_window (parent_item : Item) (profile : Node)
  (page per_page : option Z) (w : World) :
  exists q,
    fst (generate_listing_construct parent_item profile page per_page w) = Ok q
    /\ (q = ""
        \/ match page, per_page with
           | Some p, Some n =>
               ends_with
                 ("    } " ++ ("LIMIT " ++ str_int n ++ " OFFSET " ++ str_int ((p - 1) * n))
                  ++ nl ++ "    ") q
               /\ tokens ("    } "
                          ++ ("LIMIT " ++ str_int n ++ " OFFSET " ++ str_int ((p - 1) * n))
                          ++ nl ++ "    ")
                  = ["}"; "LIMIT"; str_int n; "OFFSET"; str_int ((p - 1) * n)]
               /\ ((p <= 0)%Z -> (0 < n)%Z ->
                   exists digits, str_int ((p - 1) * n) = "-" ++ digits)
           | _, _ => ends_with ("    } " ++ "" ++ nl ++ "    ") q
           end).
Proof.
  unfold generate_listing_construct, bind.
  assert (Hok := get_listing_predicates_ok profile (selected_class parent_item) w).
  destruct (get_listing_predicates profile (selected_class parent_item) w)
    as [[[[[ic ip] oc] op]|e] w']; [|discriminate].
  clear Hok.
  match goal with |- context [if ?b then _ else _] => destruct b end.
  - exists "". split; [reflexivity | now left].
  - eexists. split; [reflexivity|]. right.
    destruct page as [p|], per_page as [n|].
    + split; [|split].
      * unfold ret; cbn [fst].
        repeat first [ apply ends_with_refl | apply ends_with_app ].
      * apply tokens_window.
      * intros Hp Hn. apply str_int_negative. nia.
    + unfold ret; cbn [fst]. repeat first [ apply ends_with_refl | apply ends_with_app ].
    + unfold ret; cbn [fst]. repeat first [ apply ends_with_refl | apply ends_with_app ].
    + unfold ret; cbn [fst]. repeat first [ apply ends_with_refl | apply ends_with_app ].
Qed.

End ListingFacts.

(** ** Brackets of the generated queries *)

Module NestingFacts.

Import Lex Py SparqlNew Shapes Declared Examples Nesting LexFacts ResolutionFacts.
Local Open Scope string_scope.

Section Brackets.

Variables op cl : ascii.

Lemma neutral_free (s : string) : free op cl s = true -> neutral op cl s.
Proof.
  intros H rest k. revert k. induction s as [|c s IH]; intros k; [reflexivity|].
  cbn [free] in H. apply andb_prop in H as [H Hs]. apply andb_prop in H as [H1 H2].
  apply negb_true_iff in H1, H2.
  cbn [append nest]. rewrite H1, H2. now apply IH.
Qed.

Lemma neutral_app (a b : string) : neutral op cl a -> neutral op cl b -> neutral op cl (a ++ b).
Proof. intros Ha Hb rest k. now rewrite append_assoc, Ha, Hb. Qed.

Lemma neutral_empty : neutral op cl "".
Proof. intros rest k. reflexivity. Qed.

Lemma neutral_level (s : string) (k : nat) : neutral op cl s -> nest op cl s k = Some k.
Proof. intros H. rewrite <- (append_empty_r s). now rewrite H. Qed.

Lemma free_app (a b : string) : free op cl (a ++ b) = free op cl a && free op cl b.
Proof. induction a as [|c a IH]; [reflexivity|]. cbn. rewrite IH. now rewrite !andb_assoc. Qed.

Lemma free_join (sep : string) (l : list string) :
  free op cl sep = true -> Forall (fun x => free op cl x = true) l ->
  free op cl (join sep l) = true.
Proof.
  intros Hs H. induction H as [|x l Hx Hl IH]; [reflexivity|].
  destruct l as [|y l]; [exact Hx|].
  change (join sep (x :: y :: l)) with (x ++ sep ++ join sep (y :: l)).
  now rewrite !free_app, Hx, Hs, IH.
Qed.

Lemma free_repeat (s : string) (n : nat) :
  free op cl s = true -> free op cl (repeat_nat s n) = true.
Proof. intros H. induction n; [reflexivity|]. cbn. now rewrite free_app, H, IHn. Qed.

End Brackets.

Lemma brace_free_uint (u : Decimal.uint) : brace_free (NilEmpty.string_of_uint u) = true.
Proof. induction u; cbn; auto. Qed.

Lemma brace_free_str_int (z : Z) : brace_free (str_int z) = true.
Proof.
  unfold str_int, NilZero.string_of_int, NilZero.string_of_uint.
  destruct (Z.to_int z) as [u|u]; destruct u; cbn; auto using brace_free_uint;
    apply (brace_free_uint (Decimal.D0 Decimal.Nil)) || idtac.
Qed.

Lemma brace_free_tabs (n : Z) : brace_free (mul_str tab n) = true.
Proof. apply free_repeat. reflexivity. Qed.

(** *** Blank-node fragments *)

Lemma block_opens (i : Z) (rest : string) (k : nat) :
  braces (Shapes.optional_block i ++ rest) k = braces rest (S k).
Proof.
  unfold Shapes.optional_block, braces.
  generalize (brace_free_str_int (i + 1)) (brace_free_str_int (i + 2))
             (brace_free_tabs (i + 1)) (brace_free_tabs (i + 2)).
  generalize (str_int (i + 1)) (str_int (i + 2)) (mul_str tab (i + 1)) (mul_str tab (i + 2)).
  intros s1 s2 t1 t2 H1 H2 T1 T2.
  repeat first [ rewrite (neutral_free "{" "}" s1 H1)
               | rewrite (neutral_free "{" "}" s2 H2)
               | rewrite (neutral_free "{" "}" t1 T1)
               | rewrite (neutral_free "{" "}" t2 T2)
               | progress rewrite append_assoc
               | progress simpl ].
  reflexivity.
Qed.

Lemma blocks_open (l : list Z) : forall rest k,
  braces (join nl (map Shapes.optional_block l) ++ rest) k
  = braces rest (k + List.length l).
Proof.
  induction l as [|x [|y l] IH]; intros rest k.
  - cbn. now rewrite Nat.add_0_r.
  - cbn [map join List.length]. rewrite block_opens. f_equal. lia.
  - cbn [map]. rewrite join_cons_nl, !append_assoc, block_opens.
    change (Shapes.optional_block y :: map Shapes.optional_block l)
      with (map Shapes.optional_block (y :: l)).
    change (braces (nl ++ join nl (map Shapes.optional_block (y :: l)) ++ rest) (S k))
      with (braces (join nl (map Shapes.optional_block (y :: l)) ++ rest) (S k)).
    rewrite IH. f_equal. cbn [List.length]. lia.
Qed.

Lemma closing_closes (i : Z) (rest : string) (k : nat) :
  braces (Shapes.closing_line i ++ rest) (S k) = braces rest k.
Proof.
  unfold Shapes.closing_line, braces.
  generalize (brace_free_tabs (i + 1)). generalize (mul_str tab (i + 1)). intros t T.
  repeat first [ rewrite (neutral_free "{" "}" t T)
               | progress rewrite append_assoc
               | progress simpl ].
  reflexivity.
Qed.

Lemma closings_close (l : list Z) : forall rest k,
  braces (join "" (map Shapes.closing_line l) ++ rest) (k + List.length l) = braces rest k.
Proof.
  induction l as [|x l IH]; intros rest k.
  - cbn. now rewrite Nat.add_0_r.
  - cbn [map]. rewrite join_empty_cons, append_assoc.
    cbn [List.length]. rewrite Nat.add_succ_r, closing_closes. apply IH.
Qed.

Lemma neutral_bnode_select (depth : Z) : neutral "{" "}" (generate_bnode_select depth).
Proof.
  intros rest k. rewrite BnodeFacts.generate_bnode_select_eq, append_assoc.
  fold braces. rewrite blocks_open.
  unfold reversed. rewrite <- (length_rev (range depth)). apply closings_close.
Qed.

Lemma brace_free_bnode_construct (depth : Z) :
  brace_free (generate_bnode_construct depth) = true.
Proof.
  rewrite BnodeFacts.generate_bnode_construct_eq. unfold brace_free.
  rewrite free_app. apply andb_true_intro. split; [reflexivity|].
  apply free_join; [reflexivity|]. apply Forall_forall. intros x Hx.
  apply in_map_iff in Hx as [i [<- _]]. unfold Shapes.construct_line.
  rewrite !free_app. fold brace_free. rewrite !brace_free_str_int. reflexivity.
Qed.

(** *** Predicates read from a clean graph *)

Lemma from_graph_free (g : Graph) (o : Node) :
  graph_brace_free g -> from_graph g o -> brace_free (node_str o) = true.
Proof.
  intros Hg [t [Ht <-]]. unfold graph_brace_free in Hg.
  rewrite Forall_forall in Hg. now apply Hg.
Qed.

Lemma from_graph_clean (g : Graph) (l : list Node) :
  graph_brace_free g -> Forall (from_graph g) l -> clean_nodes l.
Proof.
  intros Hg H. unfold clean_nodes. rewrite Forall_forall in *.
  intros o Ho. apply (from_graph_free g); auto.
Qed.

Lemma brace_free_iris (sep : string) (l : list Node) :
  brace_free sep = true -> clean_nodes l ->
  brace_free (join sep (map (fun p => "<" ++ node_str p ++ ">") l)) = true.
Proof.
  intros Hs H. apply free_join; [exact Hs|].
  apply Forall_forall. intros x Hx. apply in_map_iff in Hx as [p [<- Hp]].
  unfold clean_nodes in H. rewrite Forall_forall in H.
  rewrite !free_app. fold brace_free. rewrite (H p Hp). reflexivity.
Qed.

(** Steps through a text from the left: literal characters by
    computation, the pieces known to be neutral by their hypothesis. *)
Ltac brace_run :=
  repeat first
    [ match goal with
      | H : forall rest k, nest _ _ (?x ++ rest) k = nest _ _ rest k
        |- context [(?x ++ _)%string] => rewrite H
      end
    | progress rewrite append_assoc
    | progress cbn ].

(** Names a piece of the text, with the proof that it is neutral. *)
Ltac piece_of op cl X P :=
  let H := fresh "N" in
  let x := fresh "x" in
  assert (H : forall rest k, nest op cl (X ++ rest) k = nest op cl rest k)
    by (apply P);
  revert H; generalize X; intros x H.

Ltac piece X P := piece_of "{"%char "}"%char X P.

Lemma neutral_include (inc : option (list Node)) :
  clean_nodes (opt_list inc) -> neutral "{" "}" (generate_include_predicates inc).
Proof.
  intros H. unfold generate_include_predicates.
  destruct (truthy_opt_list inc); [|apply neutral_empty].
  intros rest k.
  piece (join nl (map (fun p => "<" ++ node_str p ++ ">") (opt_list inc)))
        (neutral_free "{" "}" _ (brace_free_iris nl _ eq_refl H)).
  brace_run. reflexivity.
Qed.

Lemma neutral_inverse (inv : option (list Node)) :
  clean_nodes (opt_list inv) -> neutral "{" "}" (generate_inverse_predicates inv).
Proof.
  intros H. unfold generate_inverse_predicates.
  destruct (truthy_opt_list inv); [|apply neutral_empty].
  intros rest k.
  piece (join nl (map (fun p => "<" ++ node_str p ++ ">") (opt_list inv)))
        (neutral_free "{" "}" _ (brace_free_iris nl _ eq_refl H)).
  brace_run. reflexivity.
Qed.

Lemma brace_free_sequence_steps (preds : list Node) : forall i,
  clean_nodes preds -> brace_free (sequence_steps i preds) = true.
Proof.
  induction preds as [|p r IH]; intros i H; [reflexivity|].
  inversion H as [|? ? Hp Hr]; subst.
  cbn [sequence_steps]. unfold brace_free in *.
  rewrite !free_app, Hp, (IH (i + 1)%Z Hr).
  fold brace_free. rewrite !brace_free_str_int. reflexivity.
Qed.

Lemma brace_free_sequence_chains (u : option string) (chains : list (list Node)) :
  forall acc t,
    sequence_chains u acc chains = Ok t ->
    brace_free acc = true -> brace_free (fmt_opt u) = true ->
    Forall clean_nodes chains -> brace_free t = true.
Proof.
  induction chains as [|c cs IH]; intros acc t H Ha Hu Hc; cbn [sequence_chains] in H.
  - now injection H as <-.
  - inversion Hc as [|? ? Hc1 Hcs]; subst.
    destruct c as [|p0 r]; [discriminate|]. cbn [sequence_chain] in H.
    apply (IH _ _ H); auto.
    inversion Hc1 as [|? ? Hp Hr]; subst.
    unfold brace_free in *.
    rewrite !free_app, Ha, Hu, Hp. fold brace_free.
    rewrite (brace_free_sequence_steps r 1 Hr). reflexivity.
Qed.

Lemma brace_free_sequence (u : option string) (sq : option (list (list Node))) (t : string) :
  generate_sequence_construct u sq = Ok t ->
  brace_free (fmt_opt u) = true -> Forall clean_nodes (opt_list sq) ->
  brace_free t = true.
Proof.
  unfold generate_sequence_construct. intros H Hu Hc.
  destruct (truthy_opt_list sq); [|now injection H as <-].
  now apply (brace_free_sequence_chains u (opt_list sq) "" t H).
Qed.

(** *** The item query *)

Lemma neutral_if (b : bool) (x y : string) :
  neutral "{" "}" x -> neutral "{" "}" y -> neutral "{" "}" (if b then x else y).
Proof. destruct b; auto. Qed.

Lemma Ok_inj {A} (a b : A) : Ok a = Ok b -> a = b.
Proof. now intros [=]. Qed.

Lemma item_body_well_braced (py_index : Node -> Res Z) (item : Item) (profile : Node)
  (w w' : World) (q : string) :
  generate_item_construct_body py_index item profile w = (Ok q, w') ->
  graph_brace_free (profiles_graph_cache w) ->
  brace_free (fmt_opt (uri item)) = true ->
  well_braced q.
Proof.
  intros H Hg Hu. unfold generate_item_construct_body in H.
  unfold bind at 1 in H.
  destruct (get_item_predicates profile (selected_class item) w)
    as [[[[[inc exc] inv] sq]|e] w1] eqn:E1; [|discriminate].
  assert (E1' : fst (get_item_predicates profile (selected_class item) w)
                = Ok (inc, exc, inv, sq)) by now rewrite E1.
  apply item_predicates_from_graph in E1'. cbv zeta in E1'.
  destruct E1' as [Hinc [Hinv Hsq]].
  apply (from_graph_clean _ _ Hg) in Hinc, Hinv.
  assert (Hsq' : Forall clean_nodes (opt_list sq)).
  { rewrite Forall_forall in *. intros c Hc. apply (from_graph_clean _ _ Hg). auto. }
  clear Hsq E1.
  unfold bind at 1 in H. unfold pg at 1 in H.
  unfold bind at 1 in H. unfold lift at 1 in H.
  destruct (truthy_opt_list sq) eqn:Tsq.
  - destruct (generate_sequence_construct (uri item) sq) as [seq|e] eqn:Es; [|discriminate].
    apply brace_free_sequence in Es; auto.
    unfold bind at 1 in H. unfold lift at 1 in H.
    match type of H with
    | context [match ?d with Some _ => _ | None => _ end] => destruct d
    end;
      [destruct (py_index _) as [depth|e]; [|discriminate] | ];
      unfold bind at 1 in H; unfold lift at 1 in H; unfold ret in H;
      apply (f_equal fst) in H; cbn [fst] in H; apply Ok_inj in H; subst q;
      unfold well_braced, braces.
    + piece (generate_bnode_select depth) (neutral_bnode_select depth).
      piece (generate_bnode_construct depth)
            (neutral_free "{" "}" _ (brace_free_bnode_construct depth)).
      piece (generate_include_predicates inc) (neutral_include inc Hinc).
      piece (generate_inverse_predicates inv) (neutral_inverse inv Hinv).
      piece seq (neutral_free "{" "}" seq Es).
      piece (fmt_opt (uri item)) (neutral_free "{" "}" _ Hu).
      destruct (truthy_opt_list inv); brace_run; reflexivity.
    + piece (generate_bnode_select 2) (neutral_bnode_select 2).
      piece (generate_bnode_construct 2)
            (neutral_free "{" "}" _ (brace_free_bnode_construct 2)).
      piece (generate_include_predicates inc) (neutral_include inc Hinc).
      piece (generate_inverse_predicates inv) (neutral_inverse inv Hinv).
      piece seq (neutral_free "{" "}" seq Es).
      piece (fmt_opt (uri item)) (neutral_free "{" "}" _ Hu).
      destruct (truthy_opt_list inv); brace_run; reflexivity.
  - unfold bind at 1 in H. unfold lift at 1 in H.
    match type of H with
    | context [match ?d with Some _ => _ | None => _ end] => destruct d
    end;
      [destruct (py_index _) as [depth|e]; [|discriminate] | ];
      unfold bind at 1 in H; unfold lift at 1 in H; unfold ret in H;
      apply (f_equal fst) in H; cbn [fst] in H; apply Ok_inj in H; subst q;
      unfold well_braced, braces.
    + piece (generate_bnode_select depth) (neutral_bnode_select depth).
      piece (generate_bnode_construct depth)
            (neutral_free "{" "}" _ (brace_free_bnode_construct depth)).
      piece (generate_include_predicates inc) (neutral_include inc Hinc).
      piece (generate_inverse_predicates inv) (neutral_inverse inv Hinv).
      piece (fmt_opt (uri item)) (neutral_free "{" "}" _ Hu).
      destruct (truthy_opt_list inv); brace_run; reflexivity.
    + piece (generate_bnode_select 2) (neutral_bnode_select 2).
      piece (generate_bnode_construct 2)
            (neutral_free "{" "}" _ (brace_free_bnode_construct 2)).
      piece (generate_include_predicates inc) (neutral_include inc Hinc).
      piece (generate_inverse_predicates inv) (neutral_inverse inv Hinv).
      piece (fmt_opt (uri item)) (neutral_free "{" "}" _ Hu).
      destruct (truthy_opt_list inv); brace_run; reflexivity.
Qed.

(** X9. Every query that [generate_item_construct] computes (a cache
    miss that returns) has balanced braces: whatever the predicates, the
    sequence paths and the blank-node depth read from the profiles graph,
    each opening brace is closed and no brace is closed before it was
    opened, provided the item's URI and the values of the graph hold no
    brace themselves. *)
Theorem item_query_well_braced (py_index : Node -> Res Z) (item : Item) (profile : Node)
  (w w' : World) (q : string) :
  LruCache.find key_eqb (item, profile) (LruCache.entries (item_construct_cache w)) = None ->
  generate_item_construct py_index item profile w = (Ok q, w') ->
  graph_brace_free (profiles_graph_cache w) ->
  brace_free (fmt_opt (uri item)) = true ->
  well_braced q.
Proof.
  intros Hm H Hg Hu. unfold generate_item_construct, lru_cache in H.
  rewrite Hm in H. cbn [fst snd] in H.
  destruct (generate_item_construct_body py_index item profile w) as [[q0|e] w1] eqn:Eb;
    [|discriminate].
  apply (f_equal fst) in H. cbn [fst] in H. apply Ok_inj in H. subst q0.
  now apply (item_body_well_braced py_index item profile w w1 q Eb).
Qed.

(** The item query of the example profile. *)
Lemma item_query_well_braced_example :
  well_braced
    (match fst (generate_item_construct ex_index ex_item ex_profile ex_world) with
     | Ok q => q
     | Raise _ => ""
     end).
Proof.
  apply (item_query_well_braced ex_index ex_item ex_profile ex_world
           (snd (generate_item_construct ex_index ex_item ex_profile ex_world))).
  - reflexivity.
  - vm_compute. reflexivity.
  - repeat constructor.
  - reflexivity.
Defined.

(** *** The listing query *)

Lemma neutral_outbound (item : Item) (oc op : list Node) :
  brace_free (fmt_opt (uri item)) = true -> clean_nodes oc -> clean_nodes op ->
  neutral "{" "}" (generate_outbound_predicates item oc op).
Proof.
  intros Hu Hoc Hop. unfold generate_outbound_predicates.
  destruct (truthy_opt (uri item)); [|apply neutral_empty].
  intros rest k. unfold values_list.
  piece (join " " (map (fun pred => "<" ++ node_str pred ++ ">") oc))
        (neutral_free "{" "}" _ (brace_free_iris " " _ eq_refl Hoc)).
  piece (join " " (map (fun pred => "<" ++ node_str pred ++ ">") op))
        (neutral_free "{" "}" _ (brace_free_iris " " _ eq_refl Hop)).
  piece (fmt_opt (uri item)) (neutral_free "{" "}" _ Hu).
  destruct (truthy_list oc), (truthy_list op); brace_run; reflexivity.
Qed.

Lemma neutral_inbound (item : Item) (ic ip : list Node) :
  brace_free (fmt_opt (uri item)) = true -> clean_nodes ic -> clean_nodes ip ->
  neutral "{" "}" (generate_inbound_predicates item ic ip).
Proof.
  intros Hu Hic Hip. unfold generate_inbound_predicates.
  intros rest k. unfold values_list.
  piece (join " " (map (fun pred => "<" ++ node_str pred ++ ">") ic))
        (neutral_free "{" "}" _ (brace_free_iris " " _ eq_refl Hic)).
  piece (join " " (map (fun pred => "<" ++ node_str pred ++ ">") ip))
        (neutral_free "{" "}" _ (brace_free_iris " " _ eq_refl Hip)).
  piece (fmt_opt (uri item)) (neutral_free "{" "}" _ Hu).
  destruct (truthy_list ic), (truthy_list ip); brace_run; reflexivity.
Qed.

Lemma neutral_binds (item : Item) (ic ip oc op : list Node) :
  brace_free (link_constructor item) = true ->
  neutral "{" "}" (generate_id_listing_binds item ic ip oc op).
Proof.
  intros Hl. apply neutral_free. change (free "{" "}") with brace_free.
  unfold generate_id_listing_binds.
  revert Hl. generalize (link_constructor item). intros lc Hl.
  destruct (truthy_list ic), (truthy_list ip), (truthy_list oc), (truthy_list op);
    cbn [truthy_str append negb]; unfold brace_free in *;
    repeat first [rewrite free_app | rewrite Hl | progress cbn]; reflexivity.
Qed.

(** X10. The listing query has balanced braces for every profiles graph,
    item and page: the CONSTRUCT template, the WHERE group with its
    VALUES blocks and BINDs, and the LIMIT/OFFSET tail open and close
    the same braces in order, provided the item's URI, general class and
    link constructor and the values of the graph hold no brace. *)
Theorem listing_query_well_braced (parent_item : Item) (profile : Node)
  (page per_page : option Z) (w : World) :
  graph_brace_free (profiles_graph_cache w) ->
  brace_free (fmt_opt (uri parent_item)) = true ->
  brace_free (general_class parent_item) = true ->
  brace_free (link_constructor parent_item) = true ->
  exists q,
    fst (generate_listing_construct parent_item profile page per_page w) = Ok q
    /\ well_braced q.
Proof.
  intros Hg Hu Hc Hl.
  destruct (listing_predicates_from_graph profile (selected_class parent_item) w)
    as [ic [ip [oc [op [E [Fic [Fip [Foc Fop]]]]]]]].
  apply (from_graph_clean _ _ Hg) in Fic, Fip, Foc, Fop.
  unfold generate_listing_construct, bind.
  destruct (get_listing_predicates profile (selected_class parent_item) w) as [r w1].
  cbn [fst] in E. subst r. cbv zeta.
  match goal with |- context [if ?b then ret "" else _] => destruct b end;
    [exists ""; split; reflexivity|].
  unfold ret. cbn [fst]. eexists. split; [reflexivity|].
  unfold well_braced, braces.
  piece (generate_outbound_predicates parent_item oc op)
        (neutral_outbound parent_item oc op Hu Foc Fop).
  piece (generate_inbound_predicates parent_item ic ip)
        (neutral_inbound parent_item ic ip Hu Fic Fip).
  piece (generate_id_listing_binds parent_item ic ip oc op)
        (neutral_binds parent_item ic ip oc op Hl).
  assert (T : forall rest k,
             nest "{" "}"
               ((match page, per_page with
                 | Some pg_no, Some pp =>
                     "LIMIT " ++ str_int pp ++ " OFFSET " ++ str_int ((pg_no - 1) * pp)
                 | _, _ => ""
                 end) ++ rest) k = nest "{" "}" rest k).
  { apply neutral_free. destruct page as [pg_no|], per_page as [pp|]; try reflexivity.
    change (brace_free ("LIMIT " ++ str_int pp ++ " OFFSET " ++ str_int ((pg_no - 1) * pp))
            = true).
    unfold brace_free. rewrite !free_app.
    fold brace_free. rewrite !brace_free_str_int. reflexivity. }
  revert T.
  generalize (match page, per_page with
              | Some pg_no, Some pp =>
                  "LIMIT " ++ str_int pp ++ " OFFSET " ++ str_int ((pg_no - 1) * pp)
              | _, _ => ""
              end).
  intros tail T.
  repeat match goal with
  | |- context [((if ?b then ?X else ?Y) ++ _)%string] =>
      let N := fresh "N" in
      assert (N : forall rest k,
                 nest "{" "}" ((if b then X else Y) ++ rest) k = nest "{" "}" rest k)
        by (apply neutral_free; destruct b; unfold brace_free in *;
            repeat first [rewrite free_app | rewrite Hu | rewrite Hc | progress cbn];
            reflexivity);
      revert N; generalize (if b then X else Y); intros ? N
  end.
  brace_run. reflexivity.
Qed.

(** The listing of the datasets of the example profile, first page. *)
Lemma listing_query_well_braced_example :
  exists q,
    fst (generate_listing_construct ex_item ex_profile (Some 1%Z) (Some 20%Z)
           (mkWorld ex_listing_graph 0 LruCache.empty)) = Ok q
    /\ well_braced q.
Proof.
  apply listing_query_well_braced; [repeat constructor | reflexivity ..].
Defined.

(** *** The count query *)

(** X11. The count query has balanced braces, with the item's URI as with
    its general class, provided these hold no brace. *)
Theorem count_query_well_braced (item : Item) :
  brace_free (fmt_opt (uri item)) = true ->
  brace_free (general_class item) = true ->
  well_braced (generate_listing_count_construct item).
Proof.
  intros Hu Hc. unfold well_braced, braces, generate_listing_count_construct.
  piece (general_class item) (neutral_free "{" "}" _ Hc).
  piece (fmt_opt (uri item)) (neutral_free "{" "}" _ Hu).
  destruct (truthy_opt (uri item)); brace_run; reflexivity.
Qed.

Lemma count_query_well_braced_example :
  well_braced (generate_listing_count_construct ex_item).
Proof. apply count_query_well_braced; reflexivity. Defined.

End NestingFacts.

(** ** The mediatype choice of the negotiation query *)

Module MediatypeFacts.

Import Lex Py SparqlNew Shapes Nesting Mediatypes LexFacts NestingFacts.
Local Open Scope string_scope.

Lemma nest_app (op cl : ascii) (a b : string) (k : nat) :
  nest op cl (a ++ b) k
  = match nest op cl a k with
    | Some k' => nest op cl b k'
    | None => None
    end.
Proof.
  revert k. induction a as [|c a IH]; intros k; [reflexivity|].
  cbn [append nest]. destruct (Ascii.eqb c op); [apply IH|].
  destruct (Ascii.eqb c cl); [|apply IH]. destruct k; [reflexivity|apply IH].
Qed.

Section Lines.

Context {Weight : Type}.
Variable str_weight : Weight -> string.

Lemma if_line_opens (tup : Weight * string) (rest : string) (k : nat) :
  paren_free (snd tup) = true -> paren_free (str_weight (fst tup)) = true ->
  parens (if_line str_weight tup ++ rest) k = parens rest (S k).
Proof.
  intros Hm Hw. unfold if_line, parens.
  piece_of "("%char ")"%char (snd tup) (neutral_free "(" ")" _ Hm).
  piece_of "("%char ")"%char (str_weight (fst tup)) (neutral_free "(" ")" _ Hw).
  brace_run. reflexivity.
Qed.

Lemma if_line_brace_free (tup : Weight * string) :
  brace_free (snd tup) = true -> brace_free (str_weight (fst tup)) = true ->
  brace_free (if_line str_weight tup) = true.
Proof.
  intros Hm Hw. unfold if_line, brace_free in *.
  repeat first [rewrite free_app | rewrite Hm | rewrite Hw | progress cbn]. reflexivity.
Qed.

(** Lines that each open one parenthesis, joined by a separator without any. *)
Lemma lines_open (sep : string) (l : list string) :
  paren_free sep = true ->
  Forall (fun x => forall rest k, parens (x ++ rest) k = parens rest (S k)) l ->
  forall rest k, parens (join sep l ++ rest) k = parens rest (k + List.length l).
Proof.
  intros Hs H. induction H as [|x l Hx Hl IH]; intros rest k.
  - cbn. now rewrite Nat.add_0_r.
  - destruct l as [|y l].
    + cbn [join List.length]. rewrite Hx. f_equal. lia.
    + change (join sep (x :: y :: l)) with (x ++ sep ++ join sep (y :: l)).
      rewrite !append_assoc, Hx.
      unfold parens at 1. rewrite (neutral_free "(" ")" sep Hs). fold parens.
      rewrite IH. f_equal. cbn [List.length]. lia.
Qed.

Lemma closers_close (n : nat) : forall rest k,
  parens (repeat_nat ")" n ++ rest) k
  = if Nat.leb n k then parens rest (k - n) else None.
Proof.
  induction n as [|n IH]; intros rest k.
  - cbn. now rewrite Nat.sub_0_r.
  - cbn [repeat_nat]. rewrite append_assoc. destruct k as [|k]; [reflexivity|].
    change (parens (")" ++ repeat_nat ")" n ++ rest) (S k))
      with (parens (repeat_nat ")" n ++ rest) k).
    rewrite IH. reflexivity.
Qed.

Lemma set_iter_lines (set_iter : list string -> list string)
  (requested_mediatypes : list (Weight * string)) (P : string -> Prop) :
  (forall x, In x (set_iter (if_lines str_weight requested_mediatypes))
             -> In x (if_lines str_weight requested_mediatypes)) ->
  (forall tup, In tup requested_mediatypes -> P (if_line str_weight tup)) ->
  Forall P (set_iter (if_lines str_weight requested_mediatypes)).
Proof.
  intros Hin HP. apply Forall_forall. intros x Hx. apply Hin in Hx.
  apply in_map_iff in Hx as [tup [<- Ht]]. now apply HP.
Qed.

(** The nesting level at the end of the statement: the lines written less
    the mediatypes requested, when there are as many lines. *)
Lemma mediatype_ifs_level (set_iter : list string -> list string)
  (requested_mediatypes : list (Weight * string)) :
  (forall x, In x (set_iter (if_lines str_weight requested_mediatypes))
             -> In x (if_lines str_weight requested_mediatypes)) ->
  plain_mediatypes "(" ")" str_weight requested_mediatypes ->
  parens (generate_mediatype_if_statements Weight str_weight set_iter requested_mediatypes) 0
  = let m := List.length (set_iter (if_lines str_weight requested_mediatypes)) in
    let n := List.length requested_mediatypes in
    if Nat.leb n m then Some (m - n) else None.
Proof.
  intros Hin Hp. unfold generate_mediatype_if_statements.
  change (map _ requested_mediatypes) with (if_lines str_weight requested_mediatypes).
  assert (HL : Forall (fun x => forall rest k, parens (x ++ rest) k = parens rest (S k))
                      (set_iter (if_lines str_weight requested_mediatypes))).
  { apply set_iter_lines; [exact Hin|]. intros tup Ht rest k.
    unfold plain_mediatypes in Hp. rewrite Forall_forall in Hp.
    destruct (Hp tup Ht) as [Hm Hw]. now apply if_line_opens. }
  revert HL. generalize (set_iter (if_lines str_weight requested_mediatypes)).
  intros L HL. cbv zeta.
  unfold parens. cbn. change (nest "(" ")") with parens.
  rewrite lines_open; [| reflexivity | exact HL].
  unfold parens at 1. cbn. change (nest "(" ")") with parens.
  change (String ")" "") with ")".
  rewrite closers_close.
  generalize (List.length requested_mediatypes) (List.length L). intros n m.
  destruct (Nat.leb_spec n m) as [H|H].
  - replace (Nat.leb n (S m)) with true by (symmetry; apply Nat.leb_le; lia).
    replace (S m - n) with (S (m - n)) by lia. reflexivity.
  - destruct (Nat.leb_spec n (S m)) as [H1|H1]; [|reflexivity].
    replace (S m - n) with 0 by lia. reflexivity.
Qed.

End Lines.

(** X12. The parentheses of the statement that
    [generate_mediatype_if_statements] writes are balanced exactly when no
    two requested mediatypes give the same [IF] line.  The lines are
    collected in a set, which keeps one copy of each, while one closing
    parenthesis is written for every requested mediatype: a mediatype
    requested twice with the same weight leaves a closing parenthesis
    without an opening one. *)
Theorem mediatype_ifs_parentheses (Weight : Type) (str_weight : Weight -> string)
  (set_iter : list string -> list string)
  (requested_mediatypes : list (Weight * string)) :
  set_iteration set_iter ->
  plain_mediatypes "(" ")" str_weight requested_mediatypes ->
  let statement :=
    generate_mediatype_if_statements Weight str_weight set_iter requested_mediatypes in
  (NoDup (if_lines str_weight requested_mediatypes) -> well_parenthesised statement)
  /\ (~ NoDup (if_lines str_weight requested_mediatypes) -> parens statement 0 = None).
Proof.
  intros Hs Hp statement. unfold well_parenthesised, statement.
  destruct (Hs (if_lines str_weight requested_mediatypes)) as [Hn Hi].
  rewrite (mediatype_ifs_level str_weight set_iter requested_mediatypes
             (fun x Hx => proj1 (Hi x) Hx) Hp).
  cbv zeta.
  assert (Hlen : List.length (if_lines str_weight requested_mediatypes)
                 = List.length requested_mediatypes)
    by (unfold if_lines; apply length_map).
  rewrite <- Hlen.
  assert (Hle : List.length (set_iter (if_lines str_weight requested_mediatypes))
                <= List.length (if_lines str_weight requested_mediatypes)).
  { apply NoDup_incl_length; [exact Hn|]. intros x Hx. now apply Hi. }
  split.
  - intros Hd.
    assert (E : List.length (if_lines str_weight requested_mediatypes)
                <= List.length (set_iter (if_lines str_weight requested_mediatypes))).
    { apply NoDup_incl_length; [exact Hd|]. intros x Hx. now apply Hi. }
    apply Nat.leb_le in E as E'. rewrite E'. f_equal. lia.
  - intros Hd.
    destruct (Nat.leb_spec (List.length (if_lines str_weight requested_mediatypes))
                (List.length (set_iter (if_lines str_weight requested_mediatypes))))
      as [E|E]; [|reflexivity].
    exfalso. apply Hd.
    apply (NoDup_incl_NoDup Hn); [exact E|].
    intros x Hx. now apply Hi.
Qed.

Lemma first_occurrences_iteration : set_iteration first_occurrences.
Proof.
  intros l. split; [apply NoDup_nodup|]. intros x. apply nodup_In.
Qed.

(** Two mediatypes, and one of them requested twice. *)
Lemma mediatype_ifs_parentheses_example :
  well_parenthesised
    (generate_mediatype_if_statements string (fun s => s) first_occurrences
       [("0.9", "text/html"); ("0.8", "text/turtle")])
  /\ parens
       (generate_mediatype_if_statements string (fun s => s) first_occurrences
          [("0.9", "text/html"); ("0.8", "text/turtle"); ("0.9", "text/html")]) 0
     = None.
Proof.
  split.
  - apply (mediatype_ifs_parentheses string (fun s => s) first_occurrences
             [("0.9", "text/html"); ("0.8", "text/turtle")]).
    + exact first_occurrences_iteration.
    + repeat constructor.
    + repeat constructor; cbn; intuition discriminate.
  - apply (mediatype_ifs_parentheses string (fun s => s) first_occurrences
             [("0.9", "text/html"); ("0.8", "text/turtle"); ("0.9", "text/html")]).
    + exact first_occurrences_iteration.
    + repeat constructor.
    + intros H. inversion H as [|x l Hx Hl]. apply Hx. cbn. auto.
Defined.

Lemma mediatype_ifs_brace_free (Weight : Type) (str_weight : Weight -> string)
  (set_iter : list string -> list string)
  (requested_mediatypes : list (Weight * string)) :
  set_iteration set_iter ->
  plain_mediatypes "{" "}" str_weight requested_mediatypes ->
  brace_free
    (generate_mediatype_if_statements Weight str_weight set_iter requested_mediatypes)
  = true.
Proof.
  intros Hs Hp. unfold generate_mediatype_if_statements.
  change (map _ requested_mediatypes) with (if_lines str_weight requested_mediatypes).
  assert (HL : brace_free
                 (join ("," ++ nl) (set_iter (if_lines str_weight requested_mediatypes)))
               = true).
  { apply free_join; [reflexivity|].
    apply (set_iter_lines str_weight set_iter requested_mediatypes
             (fun x => free "{" "}" x = true)).
    - intros x Hx. now apply (Hs (if_lines str_weight requested_mediatypes)).
    - intros tup Ht. unfold plain_mediatypes in Hp. rewrite Forall_forall in Hp.
      destruct (Hp tup Ht) as [Hm Hw]. now apply if_line_brace_free. }
  cbv zeta. revert HL.
  generalize (join ("," ++ nl) (set_iter (if_lines str_weight requested_mediatypes))).
  intros body HL.
  assert (HR : brace_free (repeat_nat ")" (List.length requested_mediatypes)) = true)
    by (apply free_repeat; reflexivity).
  revert HR. generalize (repeat_nat ")" (List.length requested_mediatypes)).
  intros closers HR. unfold brace_free in *.
  repeat first [rewrite free_app | rewrite HL | rewrite HR | progress cbn]. reflexivity.
Qed.

(** X13. The negotiation query has balanced braces whatever the candidate
    classes, the requested profile and the requested mediatypes, provided
    none of them holds a brace. *)
Theorem negotiation_query_well_braced (Weight : Type) (str_weight : Weight -> string)
  (set_iter : list string -> list string) (classes : list string)
  (requested_profile : option string)
  (requested_mediatypes : option (list (Weight * string))) :
  set_iteration set_iter ->
  Forall (fun klass => brace_free klass = true) classes ->
  brace_free (fmt_opt requested_profile) = true ->
  plain_mediatypes "{" "}" str_weight (opt_list requested_mediatypes) ->
  well_braced
    (select_profile_mediatype Weight str_weight set_iter classes requested_profile
       requested_mediatypes).
Proof.
  intros Hs Hc Hr Hp. unfold well_braced, braces, select_profile_mediatype.
  assert (HC : brace_free (join " " (map (fun klass => "<" ++ klass ++ ">") classes)) = true).
  { apply free_join; [reflexivity|]. apply Forall_forall. intros x Hx.
    apply in_map_iff in Hx as [klass [<- Hk]]. rewrite Forall_forall in Hc.
    specialize (Hc klass Hk). unfold brace_free in *.
    repeat first [rewrite free_app | rewrite Hc | progress cbn]. reflexivity. }
  piece (join " " (map (fun klass => "<" ++ klass ++ ">") classes))
        (neutral_free "{" "}" _ HC).
  pose proof (mediatype_ifs_brace_free Weight str_weight set_iter
                (opt_list requested_mediatypes) Hs Hp) as HM.
  repeat match goal with
  | |- context [((if ?b then ?X else ?Y) ++ _)%string] =>
      let N := fresh "N" in
      assert (N : forall rest k,
                 nest "{" "}" ((if b then X else Y) ++ rest) k = nest "{" "}" rest k)
        by (apply neutral_free; destruct b; unfold brace_free in *;
            repeat first [rewrite free_app | rewrite Hr | rewrite HM | progress cbn];
            reflexivity);
      revert N; generalize (if b then X else Y); intros ? N
  end.
  brace_run. reflexivity.
Qed.

(** A request for a profile and two mediatypes. *)
Lemma negotiation_query_well_braced_example :
  well_braced
    (select_profile_mediatype string (fun s => s) first_occurrences
       ["http://www.w3.org/ns/dcat#Dataset"]
       (Some "http://www.opengis.net/def/geosparql")
       (Some [("0.9", "text/html"); ("0.8", "text/turtle")])).
Proof.
  apply negotiation_query_well_braced.
  - exact first_occurrences_iteration.
  - repeat constructor.
  - reflexivity.
  - repeat constructor.
Defined.

End MediatypeFacts.

(** ** The blocks of the full-text-search query *)

Module FtsFacts.

Import Py SearchFts Shapes FtsBlocks LexFacts SearchFacts.
Local Open Scope string_scope.

Lemma iris_of_iris (l : list string) (term : string) :
  flat_map (fun m : GraphNodePath =>
              match m with
              | NodeVarOrTerm (OfTerm (TermIRI (mkIRI v))) => [v]
              | _ => []
              end)
    (map (fun predicate => NodeVarOrTerm (OfTerm (TermIRI (mkIRI predicate)))) l
     ++ [NodeVarOrTerm (OfTerm (TermLiteral (mkRDFLiteral term)))])%list
  = l.
Proof. induction l as [|x l IH]; cbn in *; [reflexivity|]. now rewrite IH. Qed.

Lemma literals_of_block (l : list string) (term : string) :
  flat_map (fun m : GraphNodePath =>
              match m with
              | NodeVarOrTerm (OfTerm (TermLiteral (mkRDFLiteral v))) => [v]
              | _ => []
              end)
    (map (fun predicate => NodeVarOrTerm (OfTerm (TermIRI (mkIRI predicate)))) l
     ++ [NodeVarOrTerm (OfTerm (TermLiteral (mkRDFLiteral term)))])%list
  = [term].
Proof. rewrite flat_map_app, literals_of_iris. reflexivity. Qed.

Section Built.

Variable CallerTSSP : Type.
Variable PREZ : string.

Lemma fts_block_summary (term : string) (preds : list string) (node : Var)
  (paths : option (list CallerTSSP)) :
  block_summary CallerTSSP
    (mkGGP CallerTSSP
       (mkTriplesBlock CallerTSSP
          (triples CallerTSSP (generate_fts_triples_block CallerTSSP term preds node)) paths))
  = (Some (match node with mkVar v => v end), preds, [term], paths).
Proof.
  unfold block_summary, block_node, block_predicates, block_phrases, block_paths.
  cbn. rewrite !app_nil_r, iris_of_iris, literals_of_block. now destruct node.
Qed.

(** X14. The blocks of a full-text-search query follow its arguments: a
    block over [?focus_node] for the direct predicates comes first when
    there are any (none for an empty list or [None]), then one block over
    [?fts_search_node] for each shape group, in the caller's order, with
    the group's predicates and path triples; every block searches for the
    same phrase, the term with its spaces replaced by [+]. *)
Theorem fts_blocks_follow_arguments (term : string) (L O : Z)
  (non_shacl_predicates : option (list string))
  (groups : list (list CallerTSSP * list string))
  (tss_list : option (list TriplesSameSubject)) :
  exists q,
    SearchQueryFusekiFTS CallerTSSP PREZ term L O non_shacl_predicates (Some groups) tss_list
    = Ok q
    /\ map (block_summary CallerTSSP) (group_graph_patterns CallerTSSP (where_clause CallerTSSP q))
       = ((match non_shacl_predicates with
           | Some (p :: ps) =>
               [(Some "focus_node", p :: ps, [replace_char " " "+" term], None)]
           | _ => []
           end)
          ++ map (fun tp => (Some "fts_search_node", snd tp,
                             [replace_char " " "+" term], Some (fst tp)))
                 groups)%list.
Proof.
  eexists. split; [reflexivity|].
  cbn [where_clause group_graph_patterns].
  rewrite map_app, map_map. f_equal.
  - destruct non_shacl_predicates as [[|p ps]|]; try reflexivity.
    cbn [map]. rewrite <- join_term_replaces_spaces. f_equal.
    exact (fts_block_summary (join_term term) (p :: ps) sr_uri None).
  - apply map_ext. intros [paths preds]. cbn [fst snd].
    rewrite <- join_term_replaces_spaces.
    now rewrite (fts_block_summary (join_term term) preds (mkVar "fts_search_node")
                   (Some paths)).
Qed.

(** X16. The construct template of a full-text-search query is the five
    result triples on [?hashID], then the caller's triples if any ([None]
    and the empty list add nothing); every variable of the five result
    triples is projected by the inner SELECT, whatever the arguments. *)
Theorem fts_template_variables_projected (term : string) (L O : Z)
  (non_shacl_predicates : option (list string))
  (groups : list (list CallerTSSP * list string))
  (tss_list : option (list TriplesSameSubject)) :
  exists q,
    SearchQueryFusekiFTS CallerTSSP PREZ term L O non_shacl_predicates (Some groups) tss_list
    = Ok q
    /\ exists result_triples,
         construct_template CallerTSSP q
         = (result_triples ++ match tss_list with Some l => l | None => [] end)%list
         /\ map tss_predicate result_triples
            = List.app
                (map (fun name => mkIRI (PREZ ++ name))
                     ["searchResultWeight"; "searchResultPredicate"; "searchResultMatch";
                      "searchResultURI"])
                [mkIRI RDF_type]
         /\ Forall (fun t => tss_subject t = OfVar (mkVar "hashID")) result_triples
         /\ Forall (fun v => In v (map selected_var (inner_select_vars CallerTSSP q)))
                   (flat_map template_vars result_triples).
Proof.
  eexists. split; [reflexivity|].
  exists (map (fun pv => from_spo (OfVar hashid) (fst pv) (snd pv))
            [(mkIRI (PREZ ++ "searchResultWeight"), OfVar weight);
             (mkIRI (PREZ ++ "searchResultPredicate"), OfVar pred);
             (mkIRI (PREZ ++ "searchResultMatch"), OfVar match_);
             (mkIRI (PREZ ++ "searchResultURI"), OfVar sr_uri);
             (mkIRI RDF_type, OfTerm (TermIRI (mkIRI (PREZ ++ "SearchResult"))))]).
  split; [|split; [|split]].
  - cbn [construct_template]. destruct tss_list as [[|t ts]|].
    + symmetry. apply app_nil_r.
    + reflexivity.
    + symmetry. apply app_nil_r.
  - reflexivity.
  - repeat constructor.
  - cbn [map flat_map template_vars term_vars tss_subject tss_object fst snd
         hashid weight pred match_ sr_uri List.app inner_select_vars where_clause
         select_clause selected_var].
    repeat (apply Forall_cons; [cbn; tauto|]). apply Forall_nil.
Qed.

End Built.

(** X15. The search phrase: [join_term] leaves no space in the phrase and
    keeps its length, the characters that are not spaces stay in place,
    and a phrase without a space is carried as it is. *)
Theorem join_term_leaves_no_space (term : string) :
  String.length (join_term term) = String.length term
  /\ (forall n,
        String.get n (join_term term)
        = option_map (fun c => if Ascii.eqb c " " then "+"%char else c) (String.get n term))
  /\ (forall n, String.get n (join_term term) <> Some " "%char)
  /\ join_term (join_term term) = join_term term
  /\ ((forall n, String.get n term <> Some " "%char) -> join_term term = term).
Proof.
  rewrite !join_term_replaces_spaces.
  assert (G : forall s n,
             String.get n (replace_char " " "+" s)
             = option_map (fun c => if Ascii.eqb c " " then "+"%char else c)
                          (String.get n s)).
  { induction s as [|c s IH]; intros n; [reflexivity|].
    destruct n as [|n]; cbn; [reflexivity|apply IH]. }
  split; [|split; [|split; [|split]]].
  - induction term as [|c s IH]; cbn; [reflexivity|now rewrite IH].
  - apply G.
  - intros n. rewrite G. destruct (String.get n term) as [c|]; cbn; [|discriminate].
    destruct (Ascii.eqb_spec c " "); [discriminate|congruence].
  - induction term as [|c s IH]; cbn; [reflexivity|]. rewrite IH. f_equal.
    destruct (Ascii.eqb_spec c " "); [reflexivity|].
    destruct (Ascii.eqb_spec c " "); [contradiction|reflexivity].
  - induction term as [|c s IH]; intros H; cbn; [reflexivity|].
    rewrite IH; [|intros n; apply (H (S n))].
    specialize (H 0). cbn in H.
    destruct (Ascii.eqb_spec c " "); [congruence|reflexivity].
Qed.

End FtsFacts.

(** ** What the item cache keeps *)

Module MemoFacts.

Import Py SparqlNew Shapes Examples CacheFacts.
Local Open Scope string_scope.

Lemma bind_queries_graph {A B} (c : M A) (k : A -> M B) (w : World) :
  graph_calls w < graph_calls (snd (c w)) ->
  (forall a, reader (k a)) ->
  graph_calls w < graph_calls (snd (bind c k w)).
Proof.
  intros Hc Hk. unfold bind.
  destruct (c w) as [[a|e] w1]; cbn [snd] in *; [|exact Hc].
  destruct (Hk a w1) as [_ [_ [Hn _]]]. lia.
Qed.

Lemma item_body_queries_graph (py_index : Node -> Res Z) (item : Item) (profile : Node)
  (w : World) :
  graph_calls w < graph_calls (snd (generate_item_construct_body py_index item profile w)).
Proof.
  unfold generate_item_construct_body.
  apply bind_queries_graph; [apply item_predicates_query_graph|].
  intros [[[inc exc] inv] sq]. reader_steps.
Qed.

(** X17. A call of [generate_item_construct] that raises stores nothing
    and counts as a miss: the entries of the cache and its hit counter are
    as before, and the miss counter is one more.  The same call made again
    reads the profiles graph again, raises the same exception and counts
    another miss. *)
Theorem item_construct_error_not_cached (py_index : Node -> Res Z) (item : Item)
  (profile : Node) (w w1 : World) (e : Exn) :
  generate_item_construct py_index item profile w = (Raise e, w1) ->
  let second := generate_item_construct py_index item profile w1 in
  let cache := item_construct_cache w in
  LruCache.entries (item_construct_cache w1) = LruCache.entries cache
  /\ LruCache.hits (item_construct_cache w1) = LruCache.hits cache
  /\ LruCache.misses (item_construct_cache w1) = S (LruCache.misses cache)
  /\ fst second = Raise e
  /\ LruCache.entries (item_construct_cache (snd second)) = LruCache.entries cache
  /\ LruCache.hits (item_construct_cache (snd second)) = LruCache.hits cache
  /\ LruCache.misses (item_construct_cache (snd second)) = S (S (LruCache.misses cache))
  /\ graph_calls w1 < graph_calls (snd second).
Proof.
  intros H second cache. subst second cache.
  unfold generate_item_construct, lru_cache in *. cbn [fst snd] in *.
  destruct (LruCache.find key_eqb (item, profile)
              (LruCache.entries (item_construct_cache w))) as [v|] eqn:Hf; [discriminate|].
  destruct (reader_item_construct_body py_index item profile w) as [Hg [Hi [_ Hr]]].
  destruct (generate_item_construct_body py_index item profile w) as [[v|e0] w0] eqn:Eb;
    [discriminate|].
  injection H as -> <-. cbn [fst snd] in *.
  cbn [item_construct_cache profiles_graph_cache graph_calls LruCache.miss
       LruCache.entries LruCache.hits LruCache.misses].
  rewrite Hi, Hf.
  set (w1 := mkWorld (profiles_graph_cache w0) (graph_calls w0)
                     (LruCache.miss (item_construct_cache w))).
  assert (Hg1 : profiles_graph_cache w1 = profiles_graph_cache w) by exact Hg.
  pose proof (Hr w1 Hg1) as Hs. cbn [fst] in Hs.
  destruct (reader_item_construct_body py_index item profile w1) as [_ [Hi1 _]].
  pose proof (item_body_queries_graph py_index item profile w1) as Hq.
  destruct (generate_item_construct_body py_index item profile w1) as [[v|e1] w2];
    cbn [fst snd] in *; [discriminate|].
  injection Hs as ->.
  cbn [fst snd item_construct_cache profiles_graph_cache graph_calls LruCache.miss
       LruCache.entries LruCache.hits LruCache.misses].
  rewrite Hi1. subst w1.
  cbn [item_construct_cache graph_calls LruCache.miss LruCache.entries LruCache.hits
       LruCache.misses] in *.
  repeat split; exact Hq.
Qed.

(** A profile whose sequence path loops: both calls raise and each counts
    a miss; nothing is stored. *)
Lemma item_construct_error_not_cached_example :
  let w := mkWorld ex_loop_graph 0 LruCache.empty in
  let first := generate_item_construct ex_index ex_item ex_profile w in
  let second := generate_item_construct ex_index ex_item ex_profile (snd first) in
  is_ok (fst first) = false
  /\ fst second = fst first
  /\ item_construct_cache (snd first) = LruCache.mk [] 0 1
  /\ LruCache.misses (item_construct_cache (snd second)) = 2.
Proof.
  intros w first second.
  destruct (item_construct_error_not_cached ex_index ex_item ex_profile w (snd first)
              (match fst first with Raise e => e | Ok _ => ValueError "" end))
    as [_ [_ [_ [Hs [_ [_ [Hm _]]]]]]].
  - vm_compute. reflexivity.
  - split; [reflexivity|]. split; [|split; [vm_compute; reflexivity | exact Hm]].
    subst second. rewrite Hs. vm_compute. reflexivity.
Defined.

(** X18. A stored query is returned for its (item, profile) whatever the
    profiles graph has become since: after a call that returned a query,
    the same call in a world with any other profiles graph and the same
    cache returns that query as a hit, without reading the graph. *)
Theorem item_construct_cached_across_graphs (py_index : Node -> Res Z) (item : Item)
  (profile : Node) (w w1 : World) (q : string) (g' : Graph) (n : nat) :
  generate_item_construct py_index item profile w = (Ok q, w1) ->
  let later :=
    generate_item_construct py_index item profile (mkWorld g' n (item_construct_cache w1)) in
  fst later = Ok q
  /\ graph_calls (snd later) = n
  /\ LruCache.hits (item_construct_cache (snd later))
     = S (LruCache.hits (item_construct_cache w1)).
Proof.
  intros H later. subst later.
  destruct (item_construct_cached py_index item profile w w1 q H) as [Hf _].
  unfold generate_item_construct, lru_cache. cbn [fst snd item_construct_cache].
  rewrite Hf. repeat split.
Qed.

(** The query stored for the example profile is returned with an empty
    profiles graph, for which a first call gives another query. *)
Lemma item_construct_cached_across_graphs_example :
  let first := generate_item_construct ex_index ex_item ex_profile ex_world in
  fst (generate_item_construct ex_index ex_item ex_profile
         (mkWorld [] 0 (item_construct_cache (snd first))))
  = fst first
  /\ fst (generate_item_construct ex_index ex_item ex_profile (mkWorld [] 0 LruCache.empty))
     <> fst first.
Proof.
  intros first. split.
  - destruct (item_construct_cached_across_graphs ex_index ex_item ex_profile ex_world
                (snd first)
                (match fst first with Ok q => q | Raise _ => "" end) [] 0)
      as [Hq _].
    + vm_compute. reflexivity.
    + rewrite Hq. vm_compute. reflexivity.
  - vm_compute. discriminate.
Defined.

End MemoFacts.

(** ** Annotations read from the TBox cache *)

Module AnnotationFacts.

Import Lex Py Shapes Annotations LexFacts ResolutionFacts FragmentFacts.
Local Open Scope string_scope.

Lemma triple_eqb_true (a b : Triple) : triple_eqb a b = true <-> a = b.
Proof.
  destruct a as [[s p] o], b as [[s' p'] o']. unfold triple_eqb, subj, pred, obj. cbn.
  rewrite !andb_true_iff, !node_eqb_true. split; [intros [[-> ->] ->]; reflexivity|].
  intros [= -> -> ->]. auto.
Qed.

Lemma in_graph_add (g : Graph) (t x : Triple) :
  In x (graph_add g t) <-> In x g \/ x = t.
Proof.
  unfold graph_add. destruct (existsb (triple_eqb t) g) eqn:E.
  - apply existsb_exists in E as [y [Hy E]]. apply triple_eqb_true in E. subst y.
    split; [auto|]. intros [H| ->]; assumption.
  - rewrite in_app_iff. cbn. intuition.
Qed.

Lemma in_fold_graph_add (l : list Triple) : forall (g : Graph) (x : Triple),
  In x (fold_left graph_add l g) <-> In x g \/ In x l.
Proof.
  induction l as [|t l IH]; intros g x; cbn [fold_left].
  - cbn. tauto.
  - rewrite IH, in_graph_add. cbn. intuition.
Qed.

Lemma nodup_graph_add (g : Graph) (t : Triple) : NoDup g -> NoDup (graph_add g t).
Proof.
  intros H. unfold graph_add. destruct (existsb (triple_eqb t) g) eqn:E; [exact H|].
  apply NoDup_app; [exact H | repeat constructor; intros [] |].
  intros x Hx [<-|[]].
  assert (existsb (triple_eqb t) g = true); [|congruence].
  apply existsb_exists. exists t. split; [exact Hx|]. now apply triple_eqb_true.
Qed.

Lemma nodup_fold_graph_add (l : list Triple) : forall g : Graph,
  NoDup g -> NoDup (fold_left graph_add l g).
Proof.
  induction l as [|t l IH]; intros g H; cbn [fold_left]; [exact H|].
  apply IH. now apply nodup_graph_add.
Qed.

Lemma existsb_node (t : Node) (l : list Node) :
  existsb (node_eqb t) l = true <-> In t l.
Proof.
  rewrite existsb_exists. split.
  - intros [x [Hx E]]. apply node_eqb_true in E. now subst x.
  - intros H. exists t. split; [exact H|]. now apply node_eqb_true.
Qed.

(** The triples read from the cache for a set of terms that is not empty. *)
Lemma in_annotation_triples (tbox_cache : Graph) (terms : list Node) (x : Triple) :
  terms <> [] ->
  In x (triples_choices tbox_cache terms RDFS_label None
        ++ triples_choices tbox_cache terms DCTERMS_description None
        ++ triples_choices tbox_cache terms DCTERMS_provenance None)%list
  <-> In x tbox_cache /\ In (subj x) terms /\ annotation (pred x).
Proof.
  intros Hne. rewrite !in_app_iff, !(in_triples_choices _ _ _ _ _ Hne).
  unfold annotation. intuition.
Qed.

Section Terms.

Variable set_order : list Node -> list Node.
Hypothesis set_order_iteration : term_iteration set_order.

Lemma annotations_sets (tbox_cache : Graph) (terms : list Node) :
  terms <> [] ->
  (forall t,
      In t (fst (get_annotations_from_tbox_cache set_order tbox_cache terms))
      <-> In t terms
          /\ forall x, In x tbox_cache -> subj x = t -> ~ annotation (pred x))
  /\ (forall x,
        In x (snd (get_annotations_from_tbox_cache set_order tbox_cache terms))
        <-> In x tbox_cache /\ In (subj x) terms /\ annotation (pred x))
  /\ NoDup (fst (get_annotations_from_tbox_cache set_order tbox_cache terms))
  /\ NoDup (snd (get_annotations_from_tbox_cache set_order tbox_cache terms)).
Proof.
  intros Hne. unfold get_annotations_from_tbox_cache. cbn [fst snd].
  split; [|split; [|split]].
  - intros t. destruct (set_order_iteration
                          (filter (fun t0 => negb (existsb (node_eqb t0)
                             (map subj
                                (triples_choices tbox_cache terms RDFS_label None
                                 ++ triples_choices tbox_cache terms DCTERMS_description None
                                 ++ triples_choices tbox_cache terms DCTERMS_provenance None))))
                             terms)) as [_ Hi].
    rewrite Hi, filter_In, negb_true_iff. clear Hi.
    split.
    + intros [Ht E]. split; [exact Ht|]. intros x Hx Hs Ha.
      assert (existsb (node_eqb t)
                (map subj
                   (triples_choices tbox_cache terms RDFS_label None
                    ++ triples_choices tbox_cache terms DCTERMS_description None
                    ++ triples_choices tbox_cache terms DCTERMS_provenance None)) = true);
        [|congruence].
      apply existsb_node, in_map_iff. exists x. split; [exact Hs|].
      apply in_annotation_triples; [exact Hne|]. rewrite Hs. auto.
    + intros [Ht H]. split; [exact Ht|].
      apply not_true_is_false. intros E.
      apply existsb_node, in_map_iff in E as [x [Hs Hx]].
      apply in_annotation_triples in Hx as [Hx [_ Ha]]; [|exact Hne].
      exact (H x Hx Hs Ha).
  - intros x. rewrite in_fold_graph_add, in_annotation_triples by exact Hne.
    cbn. tauto.
  - apply set_order_iteration.
  - apply nodup_fold_graph_add. constructor.
Qed.

(** X19. For a set of terms that is not empty,
    [get_annotations_from_tbox_cache] splits it by what the TBox cache
    holds: the graph returned has exactly the triples of the cache that
    give a label, a description or a provenance to one of the terms, each
    once, and the terms returned as uncached are exactly those for which
    the cache has none of the three.  A term with a description and no
    label counts as cached. *)
Theorem annotations_split_terms (tbox_cache : Graph) (terms : list Node) :
  terms <> [] ->
  let result := get_annotations_from_tbox_cache set_order tbox_cache terms in
  (forall t,
      In t (fst result)
      <-> In t terms /\ forall x, In x tbox_cache -> subj x = t -> ~ annotation (pred x))
  /\ (forall x,
        In x (snd result)
        <-> In x tbox_cache /\ In (subj x) terms /\ annotation (pred x))
  /\ NoDup (fst result) /\ NoDup (snd result).
Proof. intros Hne result. now apply annotations_sets. Qed.

(** X20. With no term at all, [get_annotations_from_tbox_cache] returns
    every label, description and provenance triple of the TBox cache,
    whatever its subject, and no uncached term: an empty list of subjects
    matches every subject. *)
Theorem annotations_of_no_term (tbox_cache : Graph) :
  let result := get_annotations_from_tbox_cache set_order tbox_cache [] in
  fst result = []
  /\ forall x, In x (snd result) <-> In x tbox_cache /\ annotation (pred x).
Proof.
  cbv zeta. unfold get_annotations_from_tbox_cache. cbn [fst snd filter]. split.
  - destruct (set_order_iteration []) as [_ Hi].
    destruct (set_order []) as [|t l]; [reflexivity|].
    exfalso. apply (Hi t). now left.
  - intros x. rewrite in_fold_graph_add, !in_app_iff. unfold triples_choices.
    rewrite !in_graph_triples. unfold annotation.
    split.
    + intros [[]|[H|[H|H]]]; destruct H as [Hx [_ [[E|E] _]]]; try discriminate;
        injection E as E; auto.
    + intros [Hx [E|[E|E]]]; right; rewrite E; auto 10.
Qed.

End Terms.

Lemma first_terms_iteration : term_iteration first_terms.
Proof. intros l. split; [apply NoDup_nodup|]. intros x. apply nodup_In. Qed.

(** The example: the title has a label, the creator a description only,
    and the agent nothing; every other triple of the cache is left out. *)
Lemma annotations_split_terms_example :
  let result :=
    get_annotations_from_tbox_cache first_terms ex_tbox
      (first_terms (graph_terms ex_object_graph)) in
  fst result = [URIRef "http://example.org/agent"]
  /\ (forall x,
        In x (snd result)
        <-> In x ex_tbox
            /\ In (subj x) (first_terms (graph_terms ex_object_graph))
            /\ annotation (pred x)).
Proof.
  split; [vm_compute; reflexivity|].
  apply (annotations_split_terms first_terms first_terms_iteration ex_tbox
           (first_terms (graph_terms ex_object_graph))).
  vm_compute. discriminate.
Defined.

Lemma annotations_of_no_term_example :
  fst (get_annotations_from_tbox_cache first_terms ex_tbox []) = []
  /\ forall x,
       In x (snd (get_annotations_from_tbox_cache first_terms ex_tbox []))
       <-> In x ex_tbox /\ annotation (pred x).
Proof. exact (annotations_of_no_term first_terms first_terms_iteration ex_tbox). Defined.

(** *** The query for the terms left *)

Lemma join_cons_space (x y : string) (l : list string) :
  join " " (x :: y :: l) = x ++ " " ++ join " " (y :: l).
Proof. reflexivity. Qed.

Lemma tokens_join_space (l : list string) :
  tokens (join " " l) = flat_map tokens l.
Proof.
  induction l as [|x [|y l] IH].
  - reflexivity.
  - simpl. now rewrite app_nil_r.
  - rewrite join_cons_space. change (x ++ " " ++ join " " (y :: l))
      with (x ++ String " " (join " " (y :: l))).
    unfold tokens at 1. rewrite scan_app_ws by reflexivity.
    change (flat_map tokens (x :: y :: l)) with (tokens x ++ flat_map tokens (y :: l))%list.
    now rewrite <- IH.
Qed.

Lemma scan_iris (terms : list Node) (rest : string) :
  Forall clean_node terms -> breaks rest = true ->
  scan "" (join " " (map (fun term => "<" ++ node_str term ++ ">") terms) ++ rest)
  = List.app (map (fun term => "<" ++ node_str term ++ ">") terms) (scan "" rest).
Proof.
  intros H Hr. change (scan "") with tokens.
  rewrite (tokens_app_breaks _ rest Hr), tokens_join_space.
  now rewrite (tokens_iris terms H).
Qed.

(** X21. [get_annotation_properties] returns no query and an empty graph
    for an object graph without any URI reference among its predicates and
    objects.  Otherwise it returns the annotations found in the TBox cache
    with one query for the label property, whose VALUES block lists the
    uncached terms, one IRI each; when every term is cached the query is
    still returned, with an empty VALUES block. *)
Theorem annotation_query_lists_uncached (set_order : list Node -> list Node)
  (tbox_cache object_graph : Graph) (label_property : Node) :
  term_iteration set_order ->
  clean_node label_property ->
  Forall clean_node (graph_terms object_graph) ->
  let result := get_annotation_properties set_order tbox_cache object_graph label_property in
  let found :=
    get_annotations_from_tbox_cache set_order tbox_cache
      (set_order (graph_terms object_graph)) in
  let lp := "<" ++ node_str label_property ++ ">" in
  (graph_terms object_graph = [] -> result = (None, []))
  /\ (graph_terms object_graph <> [] ->
      exists q,
        result = (Some q, snd found)
        /\ tokens q
           = List.app
               ["CONSTRUCT"; "{"; "?term"; lp; "?label"; "}";
                "WHERE"; "{"; "?term"; lp; "?label"; ".";
                "VALUES"; "?term"; "{"]
               (List.app
                  (map (fun term => "<" ++ node_str term ++ ">") (fst found))
                  ["}"; "FILTER(lang(?label)"; "="; dq ++ dq; "||"; "lang(?label)"; "=";
                   dq ++ "en" ++ dq; "||"; "lang(?label)"; "="; dq ++ "en-AU" ++ dq ++ ")";
                   "}"])).
Proof.
  intros Hs Hl Hc result found lp. subst result found lp.
  unfold get_annotation_properties.
  change (filter is_uriref (map pred object_graph)
          ++ filter is_uriref (map obj object_graph))%list
    with (graph_terms object_graph).
  split.
  - intros ->. reflexivity.
  - intros Hne.
    destruct (truthy_list (graph_terms object_graph)) eqn:Et;
      [|destruct (graph_terms object_graph); [congruence|discriminate]].
    cbn [negb].
    set (found := get_annotations_from_tbox_cache set_order tbox_cache
                    (set_order (graph_terms object_graph))).
    assert (Hu : Forall clean_node (fst found)).
    { apply Forall_forall. intros t Ht. rewrite Forall_forall in Hc. apply Hc.
      unfold found, get_annotations_from_tbox_cache in Ht. cbn [fst] in Ht.
      apply (proj1 (proj2 (Hs _) _)) in Ht. apply filter_In in Ht as [Ht _].
      now apply (proj1 (proj2 (Hs _) _)) in Ht. }
    destruct found as [uncached_terms labels_g]. cbn [fst snd] in *.
    eexists. split; [reflexivity|].
    pose proof (fun rest => scan_iris uncached_terms rest Hu) as HJ.
    revert HJ.
    generalize (join " " (map (fun term => "<" ++ node_str term ++ ">") uncached_terms)).
    generalize (map (fun term => "<" ++ node_str term ++ ">") uncached_terms).
    unfold clean_node in Hl. revert Hl. generalize (node_str label_property).
    intros s Hl iris text HJ. unfold tokens.
    repeat first [ rewrite (scan_app_no_ws s) by exact Hl
                 | rewrite HJ by reflexivity
                 | progress rewrite append_assoc
                 | progress simpl ].
    reflexivity.
Qed.

(** The example: the agent is the one term left to look up. *)
Lemma annotation_query_lists_uncached_example :
  exists q,
    get_annotation_properties first_terms ex_tbox ex_object_graph RDFS_label
    = (Some q,
       snd (get_annotations_from_tbox_cache first_terms ex_tbox
              (first_terms (graph_terms ex_object_graph))))
    /\ tokens q
       = ["CONSTRUCT"; "{"; "?term"; "<http://www.w3.org/2000/01/rdf-schema#label>";
          "?label"; "}";
          "WHERE"; "{"; "?term"; "<http://www.w3.org/2000/01/rdf-schema#label>";
          "?label"; ".";
          "VALUES"; "?term"; "{"; "<http://example.org/agent>"; "}";
          "FILTER(lang(?label)"; "="; dq ++ dq; "||"; "lang(?label)"; "=";
          dq ++ "en" ++ dq; "||"; "lang(?label)"; "="; dq ++ "en-AU" ++ dq ++ ")"; "}"].
Proof.
  apply (annotation_query_lists_uncached first_terms ex_tbox ex_object_graph RDFS_label
           first_terms_iteration).
  - reflexivity.
  - repeat constructor.
  - vm_compute. discriminate.
Defined.

End AnnotationFacts.
